(** * Digital-signage player: offline cache, schedule check and playback engine

    A shallow embedding of the three services that decide what the player
    shows:

    - [ScheduleService.checkSchedule] (schedule.service.ts) and the schedule
      lookup of [PlaybackService.startPlayback] (playback.service.ts);
    - the playback state machine of [PlaybackService]
      (loadPlaylist, processPlaylist, playCurrentItem, skipToNext,
      restartPlayback, loadFallbackContent, reloadPlaylist);
    - the IndexedDB-backed cache of [ContentSyncService]
      (content-sync.service.ts), with its maintenance operations;
    - the schedule check of the player component (player.component.ts).

    JavaScript values are modelled as the code uses them: strings as
    [string] compared by code unit, the [number]s of the playlist model as
    binary64 floats, byte counts, timestamps and priorities as [Z], object
    stores keyed by a string as [gmap string _], and the asynchronous
    callbacks as explicit state passing with the outcome of every external
    request (IndexedDB, HTTP, URL.createObjectURL) given by an environment
    record. *)

From Stdlib Require Import ZArith Lia Ascii Floats.PrimFloat.
From stdpp Require Import gmap strings list sorting.

Local Open Scope Z_scope.
#[local] Set Warnings "-inexact-float,-clear-no-such-hyp".

(* ================================================================== *)
(** * Part I: definitions *)
(* ================================================================== *)

(** ** JavaScript primitives used by the services *)
Module JS.

(** [a <= b] on JavaScript strings: lexicographic order of the code
    units.  [a >= b] in the source is [str_le b a]. *)
Definition str_le (a b : string) : bool := String.leb a b.

(** [a.localeCompare(b)] on the digits-and-colon strings of the schedule,
    where the locale order is the code-unit order. *)
Definition localeCompare (a b : string) : comparison := String.compare a b.

(** Truthiness of a string: only the empty string is falsy. *)
Definition truthy_str (s : string) : bool := negb (String.eqb s "").

(** [s.startsWith(p)] *)
Definition startsWith (p s : string) : bool := String.prefix p s.

(** [arr.includes(x)] on an array of strings. *)
Definition includes (arr : list string) (x : string) : bool :=
  bool_decide (x ∈ arr).

(** Truthiness of a number: [0], [-0] and [NaN] are falsy. *)
Definition truthy_num (v : float) : bool :=
  negb (PrimFloat.eqb v 0%float) && PrimFloat.eqb v v.

(** [a || b] on numbers. *)
Definition or_num (a b : float) : float := if truthy_num a then a else b.

Definition MAX_SAFE_INTEGER : Z := 9007199254740991.

(** [arr.sort(cmp)]: a stable sort, here by insertion from the right.  An
    element is put before the first element it does not compare greater
    than, so elements that compare equal keep their order. *)
Fixpoint insert {A} (cmp : A → A → comparison) (x : A) (l : list A) : list A :=
  match l with
  | [] => [x]
  | y :: l' =>
    match cmp x y with
    | Gt => y :: insert cmp x l'
    | _ => x :: l
    end
  end.

Definition sort {A} (cmp : A → A → comparison) (l : list A) : list A :=
  foldr (insert cmp) [] l.

(** Notifications an RxJS observer receives. *)
Inductive notification (A : Type) : Type :=
| Next (a : A)
| Error
| Complete.
Global Arguments Next {A} a.
Global Arguments Error {A}.
Global Arguments Complete {A}.

(** The settled state of a promise. *)
Inductive promise (A : Type) : Type :=
| Resolved (a : A)
| Rejected.
Global Arguments Resolved {A} a.
Global Arguments Rejected {A}.

(** *** Dates *)
Inductive Weekday : Type :=
| Monday | Tuesday | Wednesday | Thursday | Friday | Saturday | Sunday.

(** [toLocaleDateString('en-US', { weekday: 'long' })] *)
Definition weekdayLong (d : Weekday) : string :=
  match d with
  | Monday => "Monday" | Tuesday => "Tuesday" | Wednesday => "Wednesday"
  | Thursday => "Thursday" | Friday => "Friday" | Saturday => "Saturday"
  | Sunday => "Sunday"
  end.

(** A [Date] in local time, as far as the schedule reads it; [zone] is
    the time-zone text that ends [toTimeString()]. *)
Record Date : Type := {
  weekday : Weekday;
  hours : nat;
  minutes : nat;
  seconds : nat;
  zone : string
}.

Definition digit (n : nat) : Ascii.ascii := Ascii.ascii_of_nat (48 + n).

(** Two decimal digits, zero padded. *)
Definition pad2 (n : nat) : string :=
  String (digit (n / 10)) (String (digit (n mod 10)) EmptyString).

(** The wall-clock text "HH:MM". *)
Definition hhmm (h m : nat) : string := pad2 h +:+ ":" +:+ pad2 m.

(** [toTimeString()]: "HH:MM:SS GMT+hhmm (Zone)". *)
Definition toTimeString (d : Date) : string :=
  hhmm (hours d) (minutes d) +:+ ":" +:+ pad2 (seconds d) +:+ " " +:+ zone d.

(** [s.slice(0, n)] *)
Definition slice0 (n : nat) (s : string) : string := String.substring 0 n s.

Definition minuteOfDay (h m : nat) : nat := (h * 60 + m)%nat.

End JS.

(** ** screen.model.ts *)
Module ScreenModel.

(** [PlaylistScheduleBase]; [days_of_week] is optional. *)
Record ScheduleItem : Type := {
  playlist_id : string;
  start_time : string;
  end_time : string;
  priority : Z;
  days_of_week : option (list string)
}.

(** [PlaylistSchedule]: a rule that also names its playlist. *)
Record PlaylistSchedule : Type := {
  base : ScheduleItem;
  playlist_name : string
}.

Record ScreenSchedule : Type := {
  current : option ScheduleItem;
  upcoming : list ScheduleItem
}.

(** The fields of [Screen] that the player reads. *)
Record Screen : Type := {
  screen_id : string;
  current_playlist : option string;
  schedule : option ScreenSchedule
}.

(** A row of [area_screens]. *)
Record Area : Type := {
  area_id : string;
  area_current_playlist : option string
}.

End ScreenModel.

(** ** schedule.service.ts *)
Module ScheduleService.
Import JS ScreenModel.

Definition allDays : list string :=
  ["Monday"; "Tuesday"; "Wednesday"; "Thursday"; "Friday"; "Saturday"; "Sunday"].

Record t : Type := {
  deviceId : option string;
  currentPlaylistId : option string
}.

(** [now.toTimeString().slice(0, 8).slice(0, 5)] *)
Definition currentTime (now : Date) : string :=
  slice0 5 (slice0 8 (toTimeString now)).

Definition currentDay (now : Date) : string := weekdayLong (weekday now).

(** [schedule.days_of_week || [...all seven...]] *)
Definition days (schedule : ScheduleItem) : list string :=
  default allDays (days_of_week schedule).

Definition isActiveDay (now : Date) (schedule : ScheduleItem) : bool :=
  includes (days schedule) (currentDay now).

(** [currentTime >= schedule.start_time && currentTime <= schedule.end_time] *)
Definition isActiveTime (now : Date) (schedule : ScheduleItem) : bool :=
  str_le (start_time schedule) (currentTime now)
  && str_le (currentTime now) (end_time schedule).

(** The rule takes part in the selection. *)
Definition matches (now : Date) (schedule : ScheduleItem) : bool :=
  isActiveDay now schedule && isActiveTime now schedule.

(** One turn of the [for ... of screen.schedule.upcoming] loop; the
    accumulator is [(highestPrioritySchedule, highestPriority)]. *)
Definition consider (now : Date) (acc : option ScheduleItem * Z)
    (schedule : ScheduleItem) : option ScheduleItem * Z :=
  if isActiveDay now schedule && isActiveTime now schedule
     && (priority schedule <? acc.2)
  then (Some schedule, priority schedule)
  else acc.

Definition highestPrioritySchedule (now : Date) (upcoming : list ScheduleItem)
  : option ScheduleItem :=
  (foldl (consider now) (None, MAX_SAFE_INTEGER) upcoming).1.

(** What one call of [checkSchedule] does: the boolean it emits, the
    service afterwards and the ids passed to [updateCurrentPlaylist]. *)
Record outcome : Type := {
  changed : bool;
  after : t;
  updated : list string
}.

Definition unchanged (svc : t) : outcome :=
  {| changed := false; after := svc; updated := [] |}.

Definition has_upcoming (screen : Screen) : option (list ScheduleItem) :=
  match schedule screen with
  | Some s => match upcoming s with [] => None | l => Some l end
  | None => None
  end.

(** [fetched] is what [getScreenById] emits ([None] for [null]). *)
Definition checkSchedule (svc : t) (now : Date) (fetched : option Screen)
  : outcome :=
  match deviceId svc with
  | None => unchanged svc
  | Some dev =>
    if negb (truthy_str dev) then unchanged svc else
    match fetched with
    | None => unchanged svc
    | Some screen =>
      match has_upcoming screen with
      | None => unchanged svc
      | Some rules =>
        match highestPrioritySchedule now rules with
        | Some best =>
          let newPlaylistId := playlist_id best in
          if bool_decide (Some newPlaylistId ≠ currentPlaylistId svc)
          then {| changed := true;
                  after := {| deviceId := deviceId svc;
                              currentPlaylistId := Some newPlaylistId |};
                  updated := [newPlaylistId] |}
          else unchanged svc
        | None =>
          match current_playlist screen with
          | Some cp =>
            if truthy_str cp && bool_decide (currentPlaylistId svc ≠ Some cp)
            then {| changed := true;
                    after := {| deviceId := deviceId svc;
                                currentPlaylistId := Some cp |};
                    updated := [] |}
            else unchanged svc
          | None => unchanged svc
          end
        end
      end
    end
  end.

(** [updateCurrentPlaylist]: the row of the screens table once the update
    has been applied.  The columns [current_playlist_started_at] and
    [analytics] it also writes are not among the fields of [Screen]. *)
Definition updateCurrentPlaylist (svc : t) (playlistId : string) (row : Screen)
  : Screen :=
  match deviceId svc with
  | Some dev =>
    if truthy_str dev
    then {| screen_id := screen_id row; current_playlist := Some playlistId;
            schedule := schedule row |}
    else row
  | None => row
  end.





End ScheduleService.

(** ** playlist.model.ts *)
Module PlaylistItem.

Inductive Type_ : Type := image | video | webpage | ticker.
Inductive Transition : Type := fade | slide | none.
Inductive Scaling : Type := fit | fill | stretch.

Record Content : Type := {
  url : string;
  thumbnail : option string
}.

Record Settings : Type := {
  transition : Transition;
  transitionDuration : float;
  scaling : Scaling;
  muted : option bool;
  loop : option bool
}.

(** The [schedule] object that [getPlaylistItems] attaches to an item. *)
Record Schedule : Type := {
  enabled : bool;
  startTime : string;
  endTime : string;
  daysOfWeek : list string;
  priority : Z
}.

Record t : Type := {
  schedule : option Schedule;
  id : string;
  type : Type_;
  name : string;
  duration : float;
  content : Content;
  settings : Settings
}.

End PlaylistItem.

Module Playlist.

Inductive Status : Type := active | draft | archived.

Record TransitionSettings : Type := {
  transition_type : PlaylistItem.Transition;
  transition_duration : float
}.

Record Scheduling : Type := {
  enabled : bool;
  startDate : option string;
  endDate : option string;
  priority : Z
}.

Record Settings : Type := {
  autoPlay : bool;
  loop : bool;
  defaultMuted : bool;
  transition : TransitionSettings;
  defaultDuration : float;
  scheduling : Scheduling
}.

Record t : Type := {
  id : string;
  name : string;
  description : option string;
  duration : float;
  items : list PlaylistItem.t;
  schedule : option ScreenModel.PlaylistSchedule;
  lastModified : string;
  createdBy : string;
  status : Status;
  tags : option (list string);
  settings : Settings
}.

End Playlist.

(** ** content-sync.service.ts *)
Module ContentSyncService.
Import JS.

Definition MAX_CACHE_SIZE : Z := 1024 * 1024 * 500.

(** [MAX_CACHE_SIZE * 0.7]: the product is the integer 367001600, also
    in binary64. *)
Definition targetSize : Z := MAX_CACHE_SIZE * 7 / 10.

Record Blob : Type := {
  blob_size : Z;
  blob_type : string;
  blob_bytes : string
}.

Record CachedContent : Type := {
  url : string;
  localUrl : string;
  size : Z;
  timestamp : Z;
  type : string;
  blob : option Blob
}.

(** A record of the playlist store, [{ ...playlist, timestamp: Date.now() }]:
    the properties of the playlist and the added [timestamp], here
    [cachedAt]. *)
Record CachedPlaylist : Type := {
  playlist : Playlist.t;
  cachedAt : Z
}.

(** What the service does to the browser and to IndexedDB, in program
    order. *)
Inductive effect : Type :=
| StorePut (key : string)
| StoreDelete (key : string)
| CreateObjectURL (handle : string)
| RevokeObjectURL (handle : string)
| BlobCacheSet (key handle : string)
| BlobCacheDelete (key : string)
| PlaylistPut (key : string)
| Preload (address : string).

Record t : Type := {
  db : bool;                                  (* [this.db] is not null *)
  isInitialized : bool;
  initPromise : promise bool;
  cacheSizeBytes : Z;
  blobCache : gmap string string;
  contentStore : gmap string CachedContent;   (* object store 'content' *)
  playlistStore : gmap string CachedPlaylist; (* object store 'playlists' *)
  effects : list effect
}.

(** How an IndexedDB transaction with one request ends. *)
Inductive idb : Type :=
| Succeeds
| TransactionThrows     (* [db.transaction] or the request throws *)
| RequestErrors.        (* [onerror] fires *)

(** The outcome of every external request of one call. *)
Record env : Type := {
  read : idb;                       (* the lookup of [getLocalContentUrl] *)
  update : idb;                     (* [updateCachedUrl] *)
  store : idb;                      (* [storeContent] *)
  trim : idb;                       (* [trimCache] *)
  playlists : idb;                  (* requests on the playlist store *)
  createObjectURL : option string;  (* [None]: it throws *)
  http_get : nat → option Blob;     (* the n-th GET of the address *)
  bundled : option Playlist.t;      (* GET of the bundled fallback file *)
  now : Z                           (* [Date.now()] *)
}.

Definition set_cacheSizeBytes (v : Z) (s : t) : t :=
  {| db := db s; isInitialized := isInitialized s; initPromise := initPromise s;
     cacheSizeBytes := v; blobCache := blobCache s;
     contentStore := contentStore s; playlistStore := playlistStore s;
     effects := effects s |}.

Definition set_blobCache (v : gmap string string) (s : t) : t :=
  {| db := db s; isInitialized := isInitialized s; initPromise := initPromise s;
     cacheSizeBytes := cacheSizeBytes s; blobCache := v;
     contentStore := contentStore s; playlistStore := playlistStore s;
     effects := effects s |}.

Definition set_contentStore (v : gmap string CachedContent) (s : t) : t :=
  {| db := db s; isInitialized := isInitialized s; initPromise := initPromise s;
     cacheSizeBytes := cacheSizeBytes s; blobCache := blobCache s;
     contentStore := v; playlistStore := playlistStore s;
     effects := effects s |}.

Definition set_playlistStore (v : gmap string CachedPlaylist) (s : t) : t :=
  {| db := db s; isInitialized := isInitialized s; initPromise := initPromise s;
     cacheSizeBytes := cacheSizeBytes s; blobCache := blobCache s;
     contentStore := contentStore s; playlistStore := v;
     effects := effects s |}.

Definition log (es : list effect) (s : t) : t :=
  {| db := db s; isInitialized := isInitialized s; initPromise := initPromise s;
     cacheSizeBytes := cacheSizeBytes s; blobCache := blobCache s;
     contentStore := contentStore s; playlistStore := playlistStore s;
     effects := effects s ++ es |}.

Definition ensureInitialized (s : t) : promise bool :=
  if isInitialized s then Resolved true else initPromise s.

(** *** The 'timestamp' index

    A cursor over the index visits the records by ascending timestamp,
    records of equal timestamp by ascending primary key. *)
Definition index_leb (k1 k2 : Z * string) : bool :=
  (k1.1 <? k2.1) || ((k1.1 =? k2.1) && str_le k1.2 k2.2).

Definition content_le (a b : CachedContent) : Prop :=
  Is_true (index_leb (timestamp a, url a) (timestamp b, url b)).

Definition playlist_le (a b : CachedPlaylist) : Prop :=
  Is_true (index_leb (cachedAt a, Playlist.id (playlist a))
                     (cachedAt b, Playlist.id (playlist b))).

Definition contentCursor (s : t) : list CachedContent :=
  merge_sort content_le (map_to_list (contentStore s)).*2.

(** [index.openCursor(null, 'prev')]: the same records, newest first. *)
Definition playlistCursorPrev (s : t) : list CachedPlaylist :=
  reverse (merge_sort playlist_le (map_to_list (playlistStore s)).*2).

Definition isBlobUrl (u : string) : bool :=
  truthy_str u && startsWith "blob:" u.

(** *** trimCache *)

(** What the cursor callback does to one record it decides to remove. *)
Definition evict (content : CachedContent) (s : t) : t :=
  let s1 := log [StoreDelete (url content)]
              (set_contentStore (delete (url content) (contentStore s)) s) in
  let s2 := if isBlobUrl (localUrl content)
            then log [RevokeObjectURL (localUrl content)] s1 else s1 in
  log [BlobCacheDelete (url content)]
    (set_blobCache (delete (url content) (blobCache s2)) s2).

(** The effects of one removal, in the order of the callback. *)
Definition evict_effects (content : CachedContent) : list effect :=
  [StoreDelete (url content)]
  ++ (if isBlobUrl (localUrl content) then [RevokeObjectURL (localUrl content)] else [])
  ++ [BlobCacheDelete (url content)].

(** The [onsuccess] callback of the cursor request, once per record and
    once more when the cursor is exhausted. *)
Fixpoint trimCursor (cursor : list CachedContent) (deletedSize : Z) (s : t) : t :=
  match cursor with
  | content :: rest =>
    if cacheSizeBytes s - deletedSize >? targetSize
    then trimCursor rest (deletedSize + size content) (evict content s)
    else set_cacheSizeBytes (cacheSizeBytes s - deletedSize) s
  | [] => set_cacheSizeBytes (cacheSizeBytes s - deletedSize) s
  end.

Definition trimCache (e : env) (s : t) : t :=
  if negb (db s) then s else
  match trim e with
  | Succeeds => trimCursor (contentCursor s) 0 s
  | _ => s
  end.

(** [reduce((total, item) => total + item.size, 0)] *)
Definition totalSize (l : list CachedContent) : Z :=
  foldl (λ total item, total + size item) 0 l.

(** The object store has key path 'url': every record sits under its own
    address. *)
Definition keyed_by_url (s : t) : Prop :=
  ∀ k c, contentStore s !! k = Some c → url c = k.

(** *** storeContent *)
Definition contentEntry (e : env) (address handle : string) (b : Blob)
  : CachedContent :=
  {| url := address; localUrl := handle; size := blob_size b;
     timestamp := now e; type := blob_type b; blob := Some b |}.

(** [transaction.oncomplete] *)
Definition storeContent_oncomplete (e : env) (b : Blob) (s : t) : t :=
  let s1 := set_cacheSizeBytes (cacheSizeBytes s + blob_size b) s in
  if cacheSizeBytes s1 >? MAX_CACHE_SIZE then trimCache e s1 else s1.

(** The store once the put has been carried out. *)
Definition storeContent_put (e : env) (address handle : string) (b : Blob) (s : t) : t :=
  log [StorePut address]
    (set_contentStore
       (<[address := contentEntry e address handle b]> (contentStore s)) s).

Definition storeContent (e : env) (address handle : string) (b : Blob) (s : t) : t :=
  if negb (db s) then s else
  match store e with
  | Succeeds => storeContent_oncomplete e b (storeContent_put e address handle b s)
  | _ => s
  end.

(** *** downloadContent *)

(** [retry(count)]: the source is subscribed again after each failure,
    at most [count] more times. *)
Fixpoint retry {A} (count : nat) (attempt : nat) (source : nat → option A)
  : option A :=
  match source attempt with
  | Some a => Some a
  | None =>
    match count with
    | O => None
    | S count' => retry count' (S attempt) source
    end
  end.

(** [inl handle] when the observable emits, [inr tt] when it fails.  The
    put of [storeContent] and its [oncomplete] run after the synchronous
    rest of the [map] callback, hence after [blobCache.set]. *)
Definition downloadContent (e : env) (address : string) (s : t)
  : (string + unit) * t :=
  if negb (truthy_str address) then (inr (), s) else
  match retry 2 0 (http_get e) with
  | None => (inr (), s)
  | Some b =>
    match createObjectURL e with
    | None => (inr (), s)
    | Some handle =>
      let s1 := log [CreateObjectURL handle] s in
      let s2 := log [BlobCacheSet address handle]
                  (set_blobCache (<[address := handle]> (blobCache s1)) s1) in
      (inl handle, storeContent e address handle b s2)
    end
  end.

(** *** updateCachedUrl *)
Definition updateCachedUrl (e : env) (address newLocalUrl : string) (s : t) : t :=
  if negb (db s) then s else
  match update e with
  | Succeeds =>
    match contentStore s !! address with
    | Some cached =>
      let s1 := if truthy_str (localUrl cached)
                   && negb (String.eqb (localUrl cached) newLocalUrl)
                   && startsWith "blob:" (localUrl cached)
                then log [RevokeObjectURL (localUrl cached)] s else s in
      let cached' := {| url := url cached; localUrl := newLocalUrl;
                        size := size cached; timestamp := timestamp cached;
                        type := type cached; blob := blob cached |} in
      log [StorePut address]
        (set_contentStore (<[address := cached']> (contentStore s1)) s1)
    | None => s
    end
  | _ => s
  end.

(** *** getLocalContentUrl

    The result is the sequence of notifications the subscriber receives
    and the service after all callbacks have run.  [updateCachedUrl] only
    issues its request where the source calls it; what it does to the
    store happens in its [onsuccess] callback, after [blobCache.set]. *)
Definition fallBack (originalUrl : string) (s : t)
  : list (notification string) * t :=
  ([Next originalUrl; Complete], s).

Definition download (e : env) (originalUrl : string) (s : t)
  : list (notification string) * t :=
  match downloadContent e originalUrl s with
  | (inl localUrl, s') => ([Next localUrl; Complete], s')
  | (inr _, s') => ([Next originalUrl; Complete], s')
  end.

Definition getLocalContentUrl (e : env) (originalUrl : string) (s : t)
  : list (notification string) * t :=
  if negb (truthy_str originalUrl)
  then ([Next (if truthy_str originalUrl then originalUrl else ""); Complete], s)
  else
  match ensureInitialized s with
  | Rejected => fallBack originalUrl s
  | Resolved initialized =>
    if negb initialized || negb (db s) then fallBack originalUrl s else
    match blobCache s !! originalUrl with
    | Some handle => ([Next handle; Complete], s)
    | None =>
      match read e with
      | TransactionThrows => fallBack originalUrl s
      | RequestErrors => fallBack originalUrl s
      | Succeeds =>
        match contentStore s !! originalUrl with
        | Some cachedContent =>
          match blob cachedContent with
          | Some b =>
            match createObjectURL e with
            | Some newLocalUrl =>
              let s1 := log [CreateObjectURL newLocalUrl] s in
              let s2 := log [BlobCacheSet originalUrl newLocalUrl]
                          (set_blobCache
                             (<[originalUrl := newLocalUrl]> (blobCache s1)) s1) in
              ([Next newLocalUrl; Complete],
               updateCachedUrl e originalUrl newLocalUrl s2)
            | None => fallBack originalUrl s
            end
          | None => download e originalUrl s
          end
        | None => download e originalUrl s
        end
      end
    end
  end.

(** The same call with an argument that may be [null] or [undefined]
    ([None]), which the first guard answers with [of(originalUrl || '')]. *)
Definition getLocalContentUrl_any (e : env) (originalUrl : option string) (s : t)
  : list (notification string) * t :=
  match originalUrl with
  | Some address => getLocalContentUrl e address s
  | None => ([Next ""; Complete], s)
  end.

(** *** cachePlaylist / getCachedPlaylist / getFallbackPlaylist *)
Definition preloads (p : Playlist.t) : list effect :=
  flat_map (λ item,
    (if truthy_str (PlaylistItem.url (PlaylistItem.content item))
     then [Preload (PlaylistItem.url (PlaylistItem.content item))] else [])
    ++ match PlaylistItem.thumbnail (PlaylistItem.content item) with
       | Some th => if truthy_str th then [Preload th] else []
       | None => []
       end) (Playlist.items p).

Definition cachePlaylist (e : env) (p : Playlist.t) (s : t) : t :=
  if negb (db s) then s else
  match ensureInitialized s with
  | Resolved true =>
    match playlists e with
    | Succeeds =>
      let playlistEntry := {| playlist := p; cachedAt := now e |} in
      log (PlaylistPut (Playlist.id p) :: preloads p)
        (set_playlistStore (<[Playlist.id p := playlistEntry]> (playlistStore s)) s)
    | _ => s
    end
  | _ => s
  end.

(** The emitted value; [None] is [null]. *)
Definition getCachedPlaylist (e : env) (id : string) (s : t)
  : option CachedPlaylist :=
  if negb (truthy_str id) then None else
  match ensureInitialized s with
  | Resolved true =>
    if negb (db s) then None else
    match playlists e with
    | Succeeds => playlistStore s !! id
    | _ => None
    end
  | _ => None
  end.

(** The playlist the caller sees in a record of the playlist store. *)
Definition asPlaylist (c : CachedPlaylist) : Playlist.t := playlist c.

(** The playlist store can be read: the database is open and its
    request succeeds. *)
Definition playlists_readable (e : env) (s : t) : Prop :=
  db s = true ∧ ensureInitialized s = Resolved true ∧ playlists e = Succeeds.

Definition getFallbackPlaylist (e : env) (s : t) : option Playlist.t :=
  match bundled e with
  | Some p => Some p
  | None =>
    if negb (db s) then None else
    match ensureInitialized s with
    | Resolved true =>
      match playlists e with
      | Succeeds => asPlaylist <$> head (playlistCursorPrev s)
      | _ => None
      end
    | _ => None
    end
  end.

(** *** The other operations of the cache

    The outcome of the IndexedDB requests of these operations is given by
    arguments of their own. *)

(** [store.getAll()]: the records by ascending key. *)
Definition url_le (a b : CachedContent) : Prop :=
  Is_true (str_le (url a) (url b)).

Definition getAll (s : t) : list CachedContent :=
  merge_sort url_le (map_to_list (contentStore s)).*2.

(** [MAX_CACHE_SIZE * 0.9]: the product is the integer 471859200, also in
    binary64. *)
Definition nearLimit : Z := MAX_CACHE_SIZE * 9 / 10.

(** [calculateCacheSize]; [listing] is the outcome of its [getAll]. *)
Definition calculateCacheSize (e : env) (listing : idb) (s : t) : t :=
  if negb (db s) then s else
  match listing with
  | Succeeds =>
    let s1 := set_cacheSizeBytes (totalSize (getAll s)) s in
    if cacheSizeBytes s1 >? nearLimit then trimCache e s1 else s1
  | _ => s
  end.

(** [getCacheSize] *)
Definition getCacheSize (s : t) : Z := cacheSizeBytes s.

(** The handle of a record is revoked when it is a blob handle, and the
    handle tracked under [key] is forgotten. *)
Definition release (key : string) (content : CachedContent) (s : t) : t :=
  let s1 := if isBlobUrl (localUrl content)
            then log [RevokeObjectURL (localUrl content)] s else s in
  log [BlobCacheDelete key] (set_blobCache (delete key (blobCache s1)) s1).

(** [deleteFromCache]; [lookup] and [removal] are the outcomes of its
    [get] and [delete] requests.  The handle is released before the delete
    is requested, hence also when the delete fails.  The delete is requested
    inside the callback of the get: when it throws, nothing catches the
    exception and the subscriber is never notified. *)
Definition deleteFromCache (lookup removal : idb) (address : string) (s : t)
  : list (notification bool) * t :=
  if negb (db s) then ([Next false; Complete], s) else
  match ensureInitialized s with
  | Resolved true =>
    match lookup with
    | Succeeds =>
      match contentStore s !! address with
      | Some cachedContent =>
        let s1 := release address cachedContent s in
        match removal with
        | Succeeds =>
          let s2 := log [StoreDelete address]
                      (set_contentStore (delete address (contentStore s1)) s1) in
          ([Next true; Complete],
           set_cacheSizeBytes (cacheSizeBytes s2 - size cachedContent) s2)
        | TransactionThrows => ([], s1)
        | RequestErrors => ([Next false; Complete], s1)
        end
      | None => ([Next false; Complete], s)
      end
    | _ => ([Next false; Complete], s)
    end
  | _ => ([Next false; Complete], s)
  end.

(** [clearCache]; [listing] is the outcome of the first [getAll],
    [clearing] and [clearingPlaylists] those of the two [clear] requests of
    the second transaction.  That transaction is opened inside a callback:
    when opening it throws, nothing catches the exception and the
    subscriber is never notified.  A failed request aborts the transaction,
    so neither store is cleared.  The two [clear] requests are not entered
    in [effects]. *)
Definition clearCache (listing clearing clearingPlaylists : idb) (s : t)
  : list (notification bool) * t :=
  if negb (db s) then ([Next false; Complete], s) else
  match ensureInitialized s with
  | Resolved true =>
    match listing with
    | Succeeds =>
      let s1 := foldl (λ s' content, release (url content) content s') s (getAll s) in
      match clearing, clearingPlaylists with
      | Succeeds, Succeeds =>
        ([Next true; Complete],
         set_cacheSizeBytes 0 (set_playlistStore ∅ (set_contentStore ∅ s1)))
      | TransactionThrows, _ => ([], s1)
      | Succeeds, TransactionThrows => ([], s1)
      | _, _ => ([Next false; Complete], s1)
      end
    | _ => ([Next false; Complete], s)
    end
  | _ => ([Next false; Complete], s)
  end.

(** [getAllCachedPlaylists]: the records by ascending id; the empty array
    when the store cannot be read. *)
Definition id_le (a b : CachedPlaylist) : Prop :=
  Is_true (str_le (Playlist.id (playlist a)) (Playlist.id (playlist b))).

Definition getAllCachedPlaylists (e : env) (s : t) : list CachedPlaylist :=
  match ensureInitialized s with
  | Resolved true =>
    if negb (db s) then [] else
    match playlists e with
    | Succeeds => merge_sort id_le (map_to_list (playlistStore s)).*2
    | _ => []
    end
  | _ => []
  end.

(** [deleteCachedPlaylist]: the delete request succeeds whether or not a
    record is stored under the id. *)
Definition deleteCachedPlaylist (e : env) (id : string) (s : t)
  : list (notification bool) * t :=
  if negb (db s) then ([Next false; Complete], s) else
  match ensureInitialized s with
  | Resolved true =>
    match playlists e with
    | Succeeds =>
      ([Next true; Complete], set_playlistStore (delete id (playlistStore s)) s)
    | _ => ([Next false; Complete], s)
    end
  | _ => ([Next false; Complete], s)
  end.

(** [getCacheStats] *)
Module Stats.
Record t : Type := {
  totalSize : Z;
  itemCount : nat;
  playlistCount : nat;
  oldestItem : option Z;
  newestItem : option Z
}.
End Stats.

Definition noStats : Stats.t :=
  {| Stats.totalSize := 0; Stats.itemCount := 0; Stats.playlistCount := 0;
     Stats.oldestItem := None; Stats.newestItem := None |}.

(** [timestamps.length ? Math.min(...timestamps) : null], and the same
    with [Math.max]. *)
Definition extremum (pick : Z → Z → Z) (l : list Z) : option Z :=
  match l with
  | [] => None
  | x :: l' => Some (foldl pick x l')
  end.

(** [listing] is the outcome of the [getAll] on the content store,
    [counting] that of the [count] on the playlist store, whose
    transaction is opened inside a callback.  Unlike the other operations
    this one signals failures as errors. *)
Definition getCacheStats (listing counting : idb) (s : t)
  : list (notification Stats.t) :=
  if negb (db s) then [Next noStats; Complete] else
  match ensureInitialized s with
  | Rejected => [Error]
  | Resolved false => [Next noStats; Complete]
  | Resolved true =>
    match listing, counting with
    | Succeeds, Succeeds =>
      let contentItems := getAll s in
      let timestamps := timestamp <$> contentItems in
      [Next {| Stats.totalSize := totalSize contentItems;
               Stats.itemCount := length contentItems;
               Stats.playlistCount := base.size (playlistStore s);
               Stats.oldestItem := extremum Z.min timestamps;
               Stats.newestItem := extremum Z.max timestamps |};
       Complete]
    | Succeeds, TransactionThrows => []
    | _, _ => [Error]
    end
  end.

(** The running size is the size of what is stored. *)
Definition size_tracked (s : t) : Prop :=
  cacheSizeBytes s = totalSize (getAll s).

(** Every record carries its bytes, as the records written by
    [storeContent] do. *)
Definition records_have_bytes (s : t) : Prop :=
  ∀ k c, contentStore s !! k = Some c → is_Some (blob c).

End ContentSyncService.

(** ** playback.service.ts *)
Module PlaybackService.
Import JS ScreenModel.

(** *** The schedule lookup of [startPlayback] *)

(** [now.toTimeString().slice(0, 5)] *)
Definition currentTime (now : Date) : string := slice0 5 (toTimeString now).

Definition currentDay (now : Date) : string := weekdayLong (weekday now).

(** The comparator given to [sort]: by priority, then by start time. *)
Definition compareSchedules (a b : ScheduleItem) : comparison :=
  if bool_decide (priority a ≠ priority b)
  then Z.compare (priority a - priority b) 0
  else localeCompare (start_time a) (start_time b).

(** [a] may stand before [b] in the sorted array. *)
Definition schedule_le (a b : ScheduleItem) : Prop :=
  compareSchedules a b ≠ Gt.

(** [[...screen.schedule.upcoming].sort(...)] *)
Definition sortedSchedules (upcoming : list ScheduleItem) : list ScheduleItem :=
  sort compareSchedules upcoming.

(** The predicate given to [find]. *)
Definition isActive (now : Date) (schedule : ScheduleItem) : bool :=
  let days := default ScheduleService.allDays (days_of_week schedule) in
  includes days (currentDay now)
  && str_le (start_time schedule) (currentTime now)
  && str_le (currentTime now) (end_time schedule).

Definition activeSchedule (now : Date) (upcoming : list ScheduleItem)
  : option ScheduleItem :=
  List.find (isActive now) (sortedSchedules upcoming).

Definition truthy_opt (o : option string) : option string :=
  match o with
  | Some v => if truthy_str v then Some v else None
  | None => None
  end.

(** The id that [startPlayback] hands to [loadPlaylist], from the device id
    in local storage, the screen record and, when it is consulted, the area
    row; [None] when it shows an error instead. *)
Definition startPlayback_playlistId (deviceId : option string) (now : Date)
    (screen : option Screen) (area : option Area) : option string :=
  match truthy_opt deviceId, screen with
  | None, _ => None
  | Some _, None => None
  | Some _, Some screen =>
    let scheduled :=
      match ScheduleService.has_upcoming screen with
      | Some rules => activeSchedule now rules
      | None => None
      end in
    match scheduled with
    | Some active => truthy_opt (Some (playlist_id active))
    | None =>
      match truthy_opt (current_playlist screen) with
      | Some cp => Some cp
      | None =>
        match area with
        | Some a => truthy_opt (area_current_playlist a)
        | None => None
        end
      end
    end
  end.

(** *** The playback state *)

(** [currentIndex]: a position, or the [NaN] that [% 0] yields. *)
Inductive index : Type :=
| Idx (i : nat)
| NaN.

Record PlayerState : Type := {
  isPlaying : bool;
  isOnline : bool;
  currentPlaylistId : option string;
  currentPlaylistName : string;
  currentItemIndex : index;
  totalItems : nat
}.

(** [Partial<PlayerState>] *)
Record changes : Type := {
  isPlaying' : option bool;
  currentPlaylistId' : option (option string);
  currentPlaylistName' : option string;
  currentItemIndex' : option index;
  totalItems' : option nat
}.

Record t : Type := {
  (* the values of the four subjects *)
  currentItem_ : option PlaylistItem.t;
  nextItem_ : option PlaylistItem.t;
  isTransitioning_ : bool;
  playbackError_ : option string;
  playerState : PlayerState;
  (* internal state *)
  currentPlaylist : option Playlist.t;
  currentIndex : index;
  currentTransitionTimeout : option float;   (* the pending timer and its delay *)
  (* [setTimeout(() => currentItem$.next(item), 0)] tasks not yet run *)
  deferred : list (option PlaylistItem.t);
  (* everything [currentItem$] has emitted *)
  currentItem_emitted : list (option PlaylistItem.t);
  (* the addresses passed to [preloadContent] *)
  preloaded : list string
}.

Definition next_currentItem (v : option PlaylistItem.t) (e : t) : t :=
  {| currentItem_ := v; nextItem_ := nextItem_ e;
     isTransitioning_ := isTransitioning_ e; playbackError_ := playbackError_ e;
     playerState := playerState e; currentPlaylist := currentPlaylist e;
     currentIndex := currentIndex e;
     currentTransitionTimeout := currentTransitionTimeout e;
     deferred := deferred e;
     currentItem_emitted := currentItem_emitted e ++ [v];
     preloaded := preloaded e |}.

Definition set_nextItem (v : option PlaylistItem.t) (e : t) : t :=
  {| currentItem_ := currentItem_ e; nextItem_ := v;
     isTransitioning_ := isTransitioning_ e; playbackError_ := playbackError_ e;
     playerState := playerState e; currentPlaylist := currentPlaylist e;
     currentIndex := currentIndex e;
     currentTransitionTimeout := currentTransitionTimeout e;
     deferred := deferred e; currentItem_emitted := currentItem_emitted e;
     preloaded := preloaded e |}.

Definition set_isTransitioning (v : bool) (e : t) : t :=
  {| currentItem_ := currentItem_ e; nextItem_ := nextItem_ e;
     isTransitioning_ := v; playbackError_ := playbackError_ e;
     playerState := playerState e; currentPlaylist := currentPlaylist e;
     currentIndex := currentIndex e;
     currentTransitionTimeout := currentTransitionTimeout e;
     deferred := deferred e; currentItem_emitted := currentItem_emitted e;
     preloaded := preloaded e |}.

Definition set_playbackError (v : option string) (e : t) : t :=
  {| currentItem_ := currentItem_ e; nextItem_ := nextItem_ e;
     isTransitioning_ := isTransitioning_ e; playbackError_ := v;
     playerState := playerState e; currentPlaylist := currentPlaylist e;
     currentIndex := currentIndex e;
     currentTransitionTimeout := currentTransitionTimeout e;
     deferred := deferred e; currentItem_emitted := currentItem_emitted e;
     preloaded := preloaded e |}.

Definition set_playerState (v : PlayerState) (e : t) : t :=
  {| currentItem_ := currentItem_ e; nextItem_ := nextItem_ e;
     isTransitioning_ := isTransitioning_ e; playbackError_ := playbackError_ e;
     playerState := v; currentPlaylist := currentPlaylist e;
     currentIndex := currentIndex e;
     currentTransitionTimeout := currentTransitionTimeout e;
     deferred := deferred e; currentItem_emitted := currentItem_emitted e;
     preloaded := preloaded e |}.

Definition set_currentPlaylist (v : option Playlist.t) (e : t) : t :=
  {| currentItem_ := currentItem_ e; nextItem_ := nextItem_ e;
     isTransitioning_ := isTransitioning_ e; playbackError_ := playbackError_ e;
     playerState := playerState e; currentPlaylist := v;
     currentIndex := currentIndex e;
     currentTransitionTimeout := currentTransitionTimeout e;
     deferred := deferred e; currentItem_emitted := currentItem_emitted e;
     preloaded := preloaded e |}.

Definition set_currentIndex (v : index) (e : t) : t :=
  {| currentItem_ := currentItem_ e; nextItem_ := nextItem_ e;
     isTransitioning_ := isTransitioning_ e; playbackError_ := playbackError_ e;
     playerState := playerState e; currentPlaylist := currentPlaylist e;
     currentIndex := v;
     currentTransitionTimeout := currentTransitionTimeout e;
     deferred := deferred e; currentItem_emitted := currentItem_emitted e;
     preloaded := preloaded e |}.

Definition set_currentTransitionTimeout (v : option float) (e : t) : t :=
  {| currentItem_ := currentItem_ e; nextItem_ := nextItem_ e;
     isTransitioning_ := isTransitioning_ e; playbackError_ := playbackError_ e;
     playerState := playerState e; currentPlaylist := currentPlaylist e;
     currentIndex := currentIndex e;
     currentTransitionTimeout := v;
     deferred := deferred e; currentItem_emitted := currentItem_emitted e;
     preloaded := preloaded e |}.

Definition set_deferred (v : list (option PlaylistItem.t)) (e : t) : t :=
  {| currentItem_ := currentItem_ e; nextItem_ := nextItem_ e;
     isTransitioning_ := isTransitioning_ e; playbackError_ := playbackError_ e;
     playerState := playerState e; currentPlaylist := currentPlaylist e;
     currentIndex := currentIndex e;
     currentTransitionTimeout := currentTransitionTimeout e;
     deferred := v; currentItem_emitted := currentItem_emitted e;
     preloaded := preloaded e |}.

Definition preloadContent (address : string) (e : t) : t :=
  {| currentItem_ := currentItem_ e; nextItem_ := nextItem_ e;
     isTransitioning_ := isTransitioning_ e; playbackError_ := playbackError_ e;
     playerState := playerState e; currentPlaylist := currentPlaylist e;
     currentIndex := currentIndex e;
     currentTransitionTimeout := currentTransitionTimeout e;
     deferred := deferred e; currentItem_emitted := currentItem_emitted e;
     preloaded := preloaded e ++ [address] |}.

(** [{ ...currentState, ...changes }]; the [lastUpdated] stamp is left out
    of the model. *)
Definition updatePlayerState (c : changes) (e : t) : t :=
  let st := playerState e in
  set_playerState
    {| isPlaying := default (isPlaying st) (isPlaying' c);
       isOnline := isOnline st;
       currentPlaylistId := default (currentPlaylistId st) (currentPlaylistId' c);
       currentPlaylistName := default (currentPlaylistName st) (currentPlaylistName' c);
       currentItemIndex := default (currentItemIndex st) (currentItemIndex' c);
       totalItems := default (totalItems st) (totalItems' c) |} e.

(** [items[i]]; [None] is [undefined]. *)
Definition item_at (items : list PlaylistItem.t) (i : index)
  : option PlaylistItem.t :=
  match i with
  | Idx k => items !! k
  | NaN => None
  end.

(** [(i + 1) % n] *)
Definition advance (i : index) (n : nat) : index :=
  match i, n with
  | Idx k, S _ => Idx ((k + 1) mod n)
  | _, _ => NaN
  end.

Definition clearTransition (e : t) : t :=
  set_isTransitioning false
    (match currentTransitionTimeout e with
     | Some _ => set_currentTransitionTimeout None e
     | None => e
     end).

Definition preloadItem (item : PlaylistItem.t) (e : t) : t :=
  let e1 := preloadContent (PlaylistItem.url (PlaylistItem.content item)) e in
  match PlaylistItem.thumbnail (PlaylistItem.content item) with
  | Some th => if truthy_str th then preloadContent th e1 else e1
  | None => e1
  end.

Definition preloadNextItem (e : t) : t :=
  match currentPlaylist e with
  | None => e
  | Some p =>
    match Playlist.items p with
    | [] => e
    | items =>
      let nextIndex := advance (currentIndex e) (length items) in
      let nextItem := item_at items nextIndex in
      let e1 := set_nextItem nextItem e in
      match nextItem with
      | Some item => preloadItem item e1
      | None => e1
      end
    end
  end.

Definition playCurrentItem (e : t) : t :=
  match currentPlaylist e with
  | None => e
  | Some p =>
    match Playlist.items p with
    | [] => e
    | items =>
      let item := item_at items (currentIndex e) in
      let e1 := preloadNextItem e in
      let e2 := set_isTransitioning false e1 in
      let e3 := next_currentItem None e2 in
      let e4 := set_deferred (deferred e3 ++ [item]) e3 in
      updatePlayerState
        {| isPlaying' := Some true; currentPlaylistId' := None;
           currentPlaylistName' := None;
           currentItemIndex' := Some (currentIndex e4); totalItems' := None |} e4
    end
  end.

(** The next queued [currentItem$.next(item)] runs. *)
Definition tick (e : t) : t :=
  match deferred e with
  | [] => e
  | item :: rest => next_currentItem item (set_deferred rest e)
  end.

(** All queued emissions run, oldest first. *)
Definition settle (e : t) : t :=
  foldl (λ e' _, tick e') e (deferred e).

Definition getTransitionDuration (e : t) : float :=
  match currentItem_ e with
  | Some currentItem =>
    match PlaylistItem.transition (PlaylistItem.settings currentItem) with
    | PlaylistItem.none => 0%float
    | _ => or_num (PlaylistItem.transitionDuration
                     (PlaylistItem.settings currentItem) * 1000)%float 500%float
    end
  | None => 0%float
  end.

Definition skipToNext (e : t) : t :=
  match currentPlaylist e with
  | None => e
  | Some p =>
    match Playlist.items p with
    | [] => e
    | _ =>
      let e1 := clearTransition e in
      let e2 := set_isTransitioning true e1 in
      let transitionDuration := getTransitionDuration e2 in
      set_currentTransitionTimeout (Some transitionDuration) e2
    end
  end.

(** The callback of the transition timer; it runs only while the timer is
    pending. *)
Definition transitionTimeout (e : t) : t :=
  match currentTransitionTimeout e, currentPlaylist e with
  | Some _, Some p =>
    let e1 := set_currentIndex
                (advance (currentIndex e) (length (Playlist.items p))) e in
    let e2 := set_isTransitioning false e1 in
    let e3 := playCurrentItem e2 in
    set_currentTransitionTimeout None e3
  | _, _ => e
  end.

Definition restartPlayback (e : t) : t :=
  let e1 := clearTransition e in
  playCurrentItem (set_currentIndex (Idx 0) e1).

(** [fallbackPlaylist] is what [getFallbackPlaylist()] emits. *)
Definition loadFallbackContent (fallbackPlaylist : option Playlist.t) (e : t) : t :=
  match fallbackPlaylist with
  | Some fb =>
    let e1 := set_currentPlaylist (Some fb) e in
    let e2 := set_currentIndex (Idx 0) e1 in
    let e3 := set_playbackError None e2 in
    let e4 := updatePlayerState
                {| isPlaying' := Some true;
                   currentPlaylistId' := Some (Some (Playlist.id fb));
                   currentPlaylistName' := Some (Playlist.name fb +:+ " (Fallback)");
                   currentItemIndex' := Some (Idx 0);
                   totalItems' := Some (length (Playlist.items fb)) |} e3 in
    playCurrentItem e4
  | None =>
    set_playbackError
      (Some "No content available. Please check your connection or device configuration.") e
  end.

Definition preloadAllContent (p : Playlist.t) (e : t) : t :=
  foldl (λ e' item,
    let e1 := if truthy_str (PlaylistItem.url (PlaylistItem.content item))
              then preloadContent (PlaylistItem.url (PlaylistItem.content item)) e'
              else e' in
    match PlaylistItem.thumbnail (PlaylistItem.content item) with
    | Some th => if truthy_str th then preloadContent th e1 else e1
    | None => e1
    end) e (Playlist.items p).

Definition processPlaylist (p : Playlist.t) (fallbackPlaylist : option Playlist.t)
    (e : t) : t :=
  match Playlist.items p with
  | _ :: _ =>
    let e1 := set_currentPlaylist (Some p) e in
    let e2 := set_currentIndex (Idx 0) e1 in
    let e3 := set_playbackError None e2 in
    let e4 := preloadAllContent p e3 in
    let e5 := updatePlayerState
                {| isPlaying' := Some true;
                   currentPlaylistId' := Some (Some (Playlist.id p));
                   currentPlaylistName' := Some (Playlist.name p);
                   currentItemIndex' := Some (Idx 0);
                   totalItems' := Some (length (Playlist.items p)) |} e4 in
    playCurrentItem e5
  | [] =>
    loadFallbackContent fallbackPlaylist
      (set_playbackError (Some "Playlist is empty or could not be loaded") e)
  end.

(** *** Loading *)

(** The playback service together with the content service it uses. *)
Record player : Type := {
  engine : t;
  cache : ContentSyncService.t
}.

Definition loading (playlistId : string) : changes :=
  {| isPlaying' := Some false; currentPlaylistId' := Some (Some playlistId);
     currentPlaylistName' := Some "Loading...";
     currentItemIndex' := Some (Idx 0); totalItems' := Some 0%nat |}.

(** [loadPlaylist].  [fetch] is what [getPlaylistById] emits for an id: it
    replaces every error by [null], so the [catchError] handlers of
    [loadPlaylist] never run.  [fallbackPlaylist] is what
    [getFallbackPlaylist()] emits when [processPlaylist] asks for it. *)
Definition loadPlaylist (e : ContentSyncService.env)
    (fetch : string → option Playlist.t) (fallbackPlaylist : option Playlist.t)
    (playlistId : string) (w : player) : player :=
  if negb (truthy_str playlistId)
  then {| engine := set_playbackError (Some "No playlist ID provided") (engine w);
          cache := cache w |}
  else
    let e1 := updatePlayerState (loading playlistId) (clearTransition (engine w)) in
    match ContentSyncService.getCachedPlaylist e playlistId (cache w) with
    | Some cachedPlaylist =>
      let e2 := processPlaylist (ContentSyncService.asPlaylist cachedPlaylist)
                  fallbackPlaylist e1 in
      match fetch playlistId with
      | Some freshPlaylist =>
        {| engine := e2;
           cache := ContentSyncService.cachePlaylist e freshPlaylist (cache w) |}
      | None => {| engine := e2; cache := cache w |}
      end
    | None =>
      match fetch playlistId with
      | Some playlist =>
        {| engine := processPlaylist playlist fallbackPlaylist e1;
           cache := ContentSyncService.cachePlaylist e playlist (cache w) |}
      | None => {| engine := e1; cache := cache w |}
      end
    end.

(** [startPlayback] as a whole. *)
Definition startPlayback (e : ContentSyncService.env)
    (fetch : string → option Playlist.t) (fallbackPlaylist : option Playlist.t)
    (deviceId : option string) (now : Date) (screen : option Screen)
    (area : option Area) (w : player) : player :=
  match truthy_opt deviceId with
  | None => {| engine := set_playbackError (Some "Device not registered") (engine w);
               cache := cache w |}
  | Some _ =>
    match startPlayback_playlistId deviceId now screen area with
    | Some playlistId => loadPlaylist e fetch fallbackPlaylist playlistId w
    | None =>
      {| engine := set_playbackError (Some "No playlist assigned to this screen")
                     (engine w);
         cache := cache w |}
    end
  end.

(** [reloadPlaylist] *)
Definition reloadPlaylist (e : ContentSyncService.env)
    (fetch : string → option Playlist.t) (fallbackPlaylist : option Playlist.t)
    (deviceId : option string) (now : Date) (screen : option Screen)
    (area : option Area) (w : player) : player :=
  match currentPlaylist (engine w) with
  | Some p => loadPlaylist e fetch fallbackPlaylist (Playlist.id p) w
  | None => startPlayback e fetch fallbackPlaylist deviceId now screen area w
  end.

(** A skip from the call to the emission of the new item: the timer fires
    and the queued emission runs. *)
Definition completeSkip (e : t) : t := settle (transitionTimeout (skipToNext e)).

(** The states the engine can be in: the callbacks of a load
    ([processPlaylist], [loadFallbackContent]) arrive at any later time,
    between skips, timer callbacks and queued emissions.  The fallback
    playlists that arrive have items. *)
Inductive interleaving : t → Prop :=
| at_start (e : t) :
    currentPlaylist e = None → interleaving e
| load_begins (playlistId : string) (e : t) :
    interleaving e →
    interleaving (updatePlayerState (loading playlistId) (clearTransition e))
| playlist_arrives (p : Playlist.t) (fb : option Playlist.t) (e : t) :
    interleaving e → (∀ q, fb = Some q → Playlist.items q ≠ []) →
    interleaving (processPlaylist p fb e)
| fallback_arrives (fb : option Playlist.t) (e : t) :
    interleaving e → (∀ q, fb = Some q → Playlist.items q ≠ []) →
    interleaving (loadFallbackContent fb e)
| error_shown (message : option string) (e : t) :
    interleaving e → interleaving (set_playbackError message e)
| skip_requested (e : t) :
    interleaving e → interleaving (skipToNext e)
| timer_fires (e : t) :
    interleaving e → interleaving (transitionTimeout e)
| emission_runs (e : t) :
    interleaving e → interleaving (tick e)
| restart_requested (e : t) :
    interleaving e → interleaving (restartPlayback e).

(** The index is a position of the loaded playlist. *)
Definition index_in_bounds (e : t) : Prop :=
  match currentPlaylist e with
  | Some p => ∃ i, currentIndex e = Idx i ∧ (i < length (Playlist.items p))%nat
  | None => True
  end.

End PlaybackService.

(** ** player.component.ts *)
Module PlayerComponent.
Import JS ScreenModel.

(** [checkScheduleAndReload]: the schedule check and, when it reports a
    change, [reloadPlaylist].  [fetched] is the screen record the check
    receives at [now]; [screen], [area] and [later] are what
    [startPlayback] receives should [reloadPlaylist] come to it. *)
Definition checkScheduleAndReload (e : ContentSyncService.env)
    (fetch : string → option Playlist.t) (fallbackPlaylist : option Playlist.t)
    (now : Date) (fetched : option Screen)
    (deviceId : option string) (later : Date) (screen : option Screen)
    (area : option Area)
    (svc : ScheduleService.t) (w : PlaybackService.player)
  : ScheduleService.t * PlaybackService.player :=
  let result := ScheduleService.checkSchedule svc now fetched in
  (ScheduleService.after result,
   if ScheduleService.changed result
   then PlaybackService.reloadPlaylist e fetch fallbackPlaylist deviceId later
          screen area w
   else w).

End PlayerComponent.

(** ** Concrete screens, playlists and caches used below *)
Module Scenario.
Import JS ScreenModel.

Definition monday (h m : nat) : Date :=
  {| weekday := Monday; hours := h; minutes := m; seconds := 0;
     zone := "GMT+0000 (Coordinated Universal Time)" |}.

Definition office_hours : ScheduleItem :=
  {| playlist_id := "P1"; start_time := "09:00"; end_time := "17:00";
     priority := 1; days_of_week := Some ["Monday"] |}.

(** Two rules of equal priority that both cover 10:30; the one that
    starts later stands first in the array. *)
Definition late_rule : ScheduleItem :=
  {| playlist_id := "P-late"; start_time := "10:00"; end_time := "12:00";
     priority := 1; days_of_week := None |}.

Definition early_rule : ScheduleItem :=
  {| playlist_id := "P-early"; start_time := "09:00"; end_time := "12:00";
     priority := 1; days_of_week := None |}.

Definition tied_screen : Screen :=
  {| screen_id := "screen-1"; current_playlist := None;
     schedule := Some {| current := None; upcoming := [late_rule; early_rule] |} |}.

Definition office_screen : Screen :=
  {| screen_id := "screen-1"; current_playlist := None;
     schedule := Some {| current := None; upcoming := [office_hours] |} |}.

(** The rules of the resolver example: office hours on Mondays and an
    all-day rule of lower precedence. *)
Definition all_day : ScheduleItem :=
  {| playlist_id := "P2"; start_time := "00:00"; end_time := "23:59";
     priority := 5; days_of_week := None |}.

Definition tuesday (h m : nat) : Date :=
  {| weekday := Tuesday; hours := h; minutes := m; seconds := 0;
     zone := "GMT+0000 (Coordinated Universal Time)" |}.

(** The schedule service as constructed: nothing resolved yet. *)
Definition fresh_schedule_service : ScheduleService.t :=
  {| ScheduleService.deviceId := Some "screen-1";
     ScheduleService.currentPlaylistId := None |}.

(** *** Playlists *)
Definition item (name : string) (tr : PlaylistItem.Transition) (seconds : float)
  : PlaylistItem.t :=
  {| PlaylistItem.schedule := None;
     PlaylistItem.id := name;
     PlaylistItem.type := PlaylistItem.image;
     PlaylistItem.name := name;
     PlaylistItem.duration := 10%float;
     PlaylistItem.content :=
       {| PlaylistItem.url := "https://cdn.example/" +:+ name;
          PlaylistItem.thumbnail := None |};
     PlaylistItem.settings :=
       {| PlaylistItem.transition := tr;
          PlaylistItem.transitionDuration := seconds;
          PlaylistItem.scaling := PlaylistItem.fit;
          PlaylistItem.muted := None;
          PlaylistItem.loop := None |} |}.

(** The settings [getPlaylistById] falls back to. *)
Definition default_settings : Playlist.Settings :=
  {| Playlist.autoPlay := true; Playlist.loop := true;
     Playlist.defaultMuted := true;
     Playlist.transition :=
       {| Playlist.transition_type := PlaylistItem.fade;
          Playlist.transition_duration := 0.5%float |};
     Playlist.defaultDuration := 10%float;
     Playlist.scheduling :=
       {| Playlist.enabled := false; Playlist.startDate := None;
          Playlist.endDate := None; Playlist.priority := 1 |} |}.

Definition playlist (id : string) (items : list PlaylistItem.t) : Playlist.t :=
  {| Playlist.id := id; Playlist.name := id; Playlist.description := Some "";
     Playlist.duration := 0%float; Playlist.items := items;
     Playlist.schedule := None;
     Playlist.lastModified := "2024-01-01T00:00:00Z";
     Playlist.createdBy := "admin"; Playlist.status := Playlist.active;
     Playlist.tags := Some []; Playlist.settings := default_settings |}.

(** A slide whose transition is a fade of zero seconds. *)
Definition instant_fade : PlaylistItem.t := item "a.png" PlaylistItem.fade 0%float.

Definition lobby : Playlist.t :=
  playlist "lobby" [instant_fade; item "b.png" PlaylistItem.slide 0.5%float;
                    item "c.png" PlaylistItem.none 2%float].

(** A playlist whose item query returned no rows. *)
Definition no_items : Playlist.t := playlist "no-items" [].

(** A playlist document that carries no id. *)
Definition anonymous : Playlist.t := playlist "" [instant_fade].

(** The playback service as constructed. *)
Definition idle : PlaybackService.t :=
  {| PlaybackService.currentItem_ := None;
     PlaybackService.nextItem_ := None;
     PlaybackService.isTransitioning_ := false;
     PlaybackService.playbackError_ := None;
     PlaybackService.playerState :=
       {| PlaybackService.isPlaying := false; PlaybackService.isOnline := true;
          PlaybackService.currentPlaylistId := None;
          PlaybackService.currentPlaylistName := "";
          PlaybackService.currentItemIndex := PlaybackService.Idx 0;
          PlaybackService.totalItems := 0 |};
     PlaybackService.currentPlaylist := None;
     PlaybackService.currentIndex := PlaybackService.Idx 0;
     PlaybackService.currentTransitionTimeout := None;
     PlaybackService.deferred := [];
     PlaybackService.currentItem_emitted := [];
     PlaybackService.preloaded := [] |}.

(** The lobby playlist showing its first slide. *)
Definition playing_lobby : PlaybackService.t :=
  PlaybackService.settle (PlaybackService.processPlaylist lobby None idle).

(** *** Caches *)

(** The content service once its database is open and empty. *)
Definition open_cache : ContentSyncService.t :=
  {| ContentSyncService.db := true;
     ContentSyncService.isInitialized := true;
     ContentSyncService.initPromise := Resolved true;
     ContentSyncService.cacheSizeBytes := 0;
     ContentSyncService.blobCache := ∅;
     ContentSyncService.contentStore := ∅;
     ContentSyncService.playlistStore := ∅;
     ContentSyncService.effects := [] |}.

(** Every request succeeds, the address is served at the first attempt,
    and no fallback file is bundled. *)
Definition fair_weather (clock : Z) (handle : string) (b : ContentSyncService.Blob)
  : ContentSyncService.env :=
  {| ContentSyncService.read := ContentSyncService.Succeeds;
     ContentSyncService.update := ContentSyncService.Succeeds;
     ContentSyncService.store := ContentSyncService.Succeeds;
     ContentSyncService.trim := ContentSyncService.Succeeds;
     ContentSyncService.playlists := ContentSyncService.Succeeds;
     ContentSyncService.createObjectURL := Some handle;
     ContentSyncService.http_get := λ _, Some b;
     ContentSyncService.bundled := None;
     ContentSyncService.now := clock |}.

Definition blob_of (bytes : Z) : ContentSyncService.Blob :=
  {| ContentSyncService.blob_size := bytes;
     ContentSyncService.blob_type := "video/mp4";
     ContentSyncService.blob_bytes := "" |}.

Definition cached (address handle : string) (bytes stamp : Z)
  : ContentSyncService.CachedContent :=
  {| ContentSyncService.url := address;
     ContentSyncService.localUrl := handle;
     ContentSyncService.size := bytes;
     ContentSyncService.timestamp := stamp;
     ContentSyncService.type := "video/mp4";
     ContentSyncService.blob := Some (blob_of bytes) |}.

(** Two videos of 200 MB each are cached, stored at times 10 and 20. *)
Definition crowded_cache : ContentSyncService.t :=
  {| ContentSyncService.db := true;
     ContentSyncService.isInitialized := true;
     ContentSyncService.initPromise := Resolved true;
     ContentSyncService.cacheSizeBytes := 400000000;
     ContentSyncService.blobCache :=
       <["https://cdn.example/old.mp4" := "blob:old"]>
         (<["https://cdn.example/mid.mp4" := "blob:mid"]> ∅);
     ContentSyncService.contentStore :=
       <["https://cdn.example/old.mp4" :=
           cached "https://cdn.example/old.mp4" "blob:old" 200000000 10]>
         (<["https://cdn.example/mid.mp4" :=
              cached "https://cdn.example/mid.mp4" "blob:mid" 200000000 20]> ∅);
     ContentSyncService.playlistStore := ∅;
     ContentSyncService.effects := [] |}.

(** A cache in the old format: one record of 5000 bytes that carries no
    blob. *)
Definition legacy_cache : ContentSyncService.t :=
  {| ContentSyncService.db := true;
     ContentSyncService.isInitialized := true;
     ContentSyncService.initPromise := Resolved true;
     ContentSyncService.cacheSizeBytes := 5000;
     ContentSyncService.blobCache := ∅;
     ContentSyncService.contentStore :=
       {[ "https://cdn.example/a.png" :=
            {| ContentSyncService.url := "https://cdn.example/a.png";
               ContentSyncService.localUrl := "blob:gone";
               ContentSyncService.size := 5000;
               ContentSyncService.timestamp := 10;
               ContentSyncService.type := "image/png";
               ContentSyncService.blob := None |} ]};
     ContentSyncService.playlistStore := ∅;
     ContentSyncService.effects := [] |}.

End Scenario.

(* ================================================================== *)
(** * Part II: properties *)
(* ================================================================== *)

Section time_text.
Import JS.

Lemma digit_compare (i j : nat) :
  (i < 10)%nat → (j < 10)%nat →
  Ascii.compare (digit i) (digit j) = Nat.compare i j.
Proof.
  intros Hi Hj.
  do 10 (destruct i as [|i]; [do 10 (destruct j as [|j]; [reflexivity|]); lia|]).
  lia.
Qed.

Lemma append_String (c : Ascii.ascii) (s t : string) :
  String c s +:+ t = String c (s +:+ t).
Proof. reflexivity. Qed.

Lemma append_empty (t : string) : "" +:+ t = t.
Proof. reflexivity. Qed.

Lemma pad2_compare (a b : nat) (s t : string) :
  (a < 100)%nat → (b < 100)%nat →
  String.compare (pad2 a +:+ s) (pad2 b +:+ t) =
    match Nat.compare a b with Eq => String.compare s t | c => c end.
Proof.
  intros Ha Hb. unfold pad2.
  rewrite !append_String, !append_empty. cbn [String.compare].
  assert (Hqa : (a / 10 < 10)%nat) by (apply Nat.Div0.div_lt_upper_bound; lia).
  assert (Hqb : (b / 10 < 10)%nat) by (apply Nat.Div0.div_lt_upper_bound; lia).
  assert (Hra : (a mod 10 < 10)%nat) by (apply Nat.mod_upper_bound; lia).
  assert (Hrb : (b mod 10 < 10)%nat) by (apply Nat.mod_upper_bound; lia).
  rewrite !digit_compare by assumption.
  pose proof (Nat.div_mod_eq a 10) as Ea. pose proof (Nat.div_mod_eq b 10) as Eb.
  destruct (Nat.compare_spec (a / 10) (b / 10)) as [Hq|Hq|Hq].
  - destruct (Nat.compare_spec (a mod 10) (b mod 10)) as [Hr|Hr|Hr];
      destruct (Nat.compare_spec a b); try reflexivity; lia.
  - destruct (Nat.compare_spec a b); try reflexivity; lia.
  - destruct (Nat.compare_spec a b); try reflexivity; lia.
Qed.

(** On well-formed wall-clock texts the string order is the order of the
    minute of the day. *)
Lemma hhmm_le (h1 m1 h2 m2 : nat) :
  (h1 < 24)%nat → (m1 < 60)%nat → (h2 < 24)%nat → (m2 < 60)%nat →
  str_le (hhmm h1 m1) (hhmm h2 m2) = true ↔
  (minuteOfDay h1 m1 ≤ minuteOfDay h2 m2)%nat.
Proof.
  intros H1 M1 H2 M2. unfold str_le, String.leb, hhmm, minuteOfDay.
  rewrite pad2_compare by lia.
  destruct (Nat.compare_spec h1 h2) as [->|Hh|Hh].
  - rewrite !append_String, !append_empty. cbn [String.compare].
    replace (Ascii.compare ":"%char ":"%char) with Eq by reflexivity.
    replace (pad2 m1) with (pad2 m1 +:+ "") by (unfold pad2; reflexivity).
    replace (pad2 m2) with (pad2 m2 +:+ "") by (unfold pad2; reflexivity).
    rewrite pad2_compare by lia. cbn [String.compare].
    destruct (Nat.compare_spec m1 m2); split; intros; try done; lia.
  - split; [lia|done].
  - split; [done|lia].
Qed.

Lemma currentTime_hhmm (now : Date) :
  ScheduleService.currentTime now = hhmm (hours now) (minutes now).
Proof. reflexivity. Qed.

End time_text.

(** ** The schedule check *)
Section schedule.
Import JS ScreenModel.

(** Every weekday name is one of the seven default days. *)
Lemma weekdayLong_allDays (d : Weekday) :
  weekdayLong d ∈ ScheduleService.allDays.
Proof. destruct d; unfold ScheduleService.allDays; set_solver. Qed.

(** A rule is a candidate of [checkSchedule] exactly when the day is
    listed and the current time lies between the two bounds in the string
    order, whatever the texts are. *)
Lemma checkSchedule_matches_spec (now : Date) (r : ScheduleItem) :
  ScheduleService.isActiveDay now r && ScheduleService.isActiveTime now r = true ↔
  match days_of_week r with
  | Some ds => weekdayLong (weekday now) ∈ ds
  | None => True
  end
  ∧ str_le (start_time r) (hhmm (hours now) (minutes now)) = true
  ∧ str_le (hhmm (hours now) (minutes now)) (end_time r) = true.
Proof.
  unfold ScheduleService.isActiveDay, ScheduleService.isActiveTime,
    ScheduleService.days, ScheduleService.currentDay, includes.
  rewrite currentTime_hhmm, !andb_true_iff, bool_decide_eq_true.
  destruct (days_of_week r) as [ds|]; cbn [default]; [tauto|].
  pose proof (weekdayLong_allDays (weekday now)). tauto.
Qed.

(** [startPlayback] tests a rule with the same predicate. *)
Lemma startPlayback_isActive_matches (now : Date) (r : ScheduleItem) :
  PlaybackService.isActive now r = ScheduleService.matches now r.
Proof.
  unfold PlaybackService.isActive, ScheduleService.matches,
    ScheduleService.isActiveDay, ScheduleService.isActiveTime,
    ScheduleService.days, ScheduleService.currentDay, PlaybackService.currentDay.
  rewrite currentTime_hhmm.
  replace (PlaybackService.currentTime now) with (hhmm (hours now) (minutes now))
    by reflexivity.
  by rewrite andb_assoc.
Qed.

(** The seconds of the instant play no part. *)
Lemma matches_minute_resolution (now : Date) (r : ScheduleItem) (sec : nat) :
  ScheduleService.matches
    {| weekday := weekday now; hours := hours now; minutes := minutes now;
       seconds := sec; zone := zone now |} r
  = ScheduleService.matches now r.
Proof. reflexivity. Qed.

End schedule.

(** C1. For every rule with well-formed "HH:MM" bounds and every instant,
    [checkSchedule] treats the rule as matching (active day and active
    time) exactly when the current weekday is listed in [days_of_week] (an
    absent list admits every weekday) and the minute of the day lies
    between the start and the end minute, both bounds included; so the rule
    matches at the very minute of its start and at the very minute of its
    end.  The test of [startPlayback] is the same predicate. *)
Theorem checkSchedule_matches_inclusive
    (now : JS.Date) (r : ScreenModel.ScheduleItem) (sh sm eh em : nat) :
  (JS.hours now < 24)%nat → (JS.minutes now < 60)%nat →
  ScreenModel.start_time r = JS.hhmm sh sm → (sh < 24)%nat → (sm < 60)%nat →
  ScreenModel.end_time r = JS.hhmm eh em → (eh < 24)%nat → (em < 60)%nat →
  let listed := match ScreenModel.days_of_week r with
                | Some ds => JS.weekdayLong (JS.weekday now) ∈ ds
                | None => True
                end in
  let t := JS.minuteOfDay (JS.hours now) (JS.minutes now) in
  (ScheduleService.isActiveDay now r && ScheduleService.isActiveTime now r = true ↔
     listed ∧ (JS.minuteOfDay sh sm ≤ t)%nat ∧ (t ≤ JS.minuteOfDay eh em)%nat)
  ∧ (listed → t = JS.minuteOfDay sh sm → (JS.minuteOfDay sh sm ≤ JS.minuteOfDay eh em)%nat →
       ScheduleService.isActiveDay now r && ScheduleService.isActiveTime now r = true)
  ∧ (listed → t = JS.minuteOfDay eh em → (JS.minuteOfDay sh sm ≤ JS.minuteOfDay eh em)%nat →
       ScheduleService.isActiveDay now r && ScheduleService.isActiveTime now r = true)
  ∧ PlaybackService.isActive now r
    = ScheduleService.isActiveDay now r && ScheduleService.isActiveTime now r.
Proof.
  intros Hh Hm Hs Hsh Hsm He Heh Hem listed t.
  assert (Hiff : ScheduleService.isActiveDay now r && ScheduleService.isActiveTime now r = true ↔
     listed ∧ (JS.minuteOfDay sh sm ≤ t)%nat ∧ (t ≤ JS.minuteOfDay eh em)%nat).
  { rewrite checkSchedule_matches_spec, Hs, He.
    rewrite !hhmm_le by assumption. reflexivity. }
  split; [exact Hiff|].
  split; [intros Hl Ht Hle; apply Hiff; repeat split; [done|lia|lia]|].
  split; [intros Hl Ht Hle; apply Hiff; repeat split; [done|lia|lia]|].
  apply startPlayback_isActive_matches.
Qed.

(** ** Which rule wins *)
Section selection.
Import JS ScreenModel.

(** The loop of [checkSchedule] ends with a matching rule of the least
    priority, or with its initial accumulator. *)
Lemma foldl_consider_spec (now : Date) (rules : list ScheduleItem)
    (acc : option ScheduleItem * Z) :
  let res := foldl (ScheduleService.consider now) acc rules in
  res.2 ≤ acc.2
  ∧ (∀ r, r ∈ rules → ScheduleService.matches now r = true → res.2 ≤ priority r)
  ∧ (res = acc
     ∨ ∃ r, r ∈ rules ∧ ScheduleService.matches now r = true
            ∧ res = (Some r, priority r)).
Proof.
  revert acc. induction rules as [|r rules IH]; intros acc; cbn [foldl].
  - split; [lia|]. split; [intros r Hr; by apply elem_of_nil in Hr|by left].
  - specialize (IH (ScheduleService.consider now acc r)).
    cbv zeta in IH. destruct IH as (Hle & Hmin & Hres).
    unfold ScheduleService.consider in Hle, Hres, Hmin |- *.
    fold (ScheduleService.matches now r) in *.
    destruct (ScheduleService.matches now r) eqn:Hm; cbn [andb] in *.
    + destruct (Z.ltb_spec (priority r) acc.2) as [Hlt|Hge]; cbn [snd] in *.
      * split; [lia|]. split.
        -- intros r' Hr' Hm'. apply elem_of_cons in Hr' as [->|Hr']; [lia|eauto].
        -- right. destruct Hres as [->|(r' & Hr' & Hm' & ->)].
           ++ exists r. split; [left|done].
           ++ exists r'. split; [by right|done].
      * split; [lia|]. split.
        -- intros r' Hr' Hm'. apply elem_of_cons in Hr' as [->|Hr']; [lia|eauto].
        -- destruct Hres as [->|(r' & Hr' & Hm' & ->)]; [by left|].
           right. exists r'. split; [by right|done].
    + split; [lia|]. split.
      * intros r' Hr' Hm'. apply elem_of_cons in Hr' as [->|Hr']; [congruence|eauto].
      * destruct Hres as [->|(r' & Hr' & Hm' & ->)]; [by left|].
        right. exists r'. split; [by right|done].
Qed.

(** [checkSchedule] picks a matching rule that no matching rule undercuts
    in priority. *)
Lemma highestPrioritySchedule_least (now : Date) (rules : list ScheduleItem)
    (best : ScheduleItem) :
  ScheduleService.highestPrioritySchedule now rules = Some best →
  best ∈ rules ∧ ScheduleService.matches now best = true
  ∧ ∀ r, r ∈ rules → ScheduleService.matches now r = true →
         priority best ≤ priority r.
Proof.
  unfold ScheduleService.highestPrioritySchedule. intros Hbest.
  destruct (foldl_consider_spec now rules (None, MAX_SAFE_INTEGER))
    as (_ & Hmin & [Hres|(r & Hr & Hm & Hres)]).
  - rewrite Hres in Hbest. discriminate.
  - rewrite Hres in Hbest, Hmin. cbn [fst snd] in *.
    injection Hbest as <-. eauto.
Qed.

(** The whole of [checkSchedule]'s choice: the rule it takes matches, has a
    priority below [MAX_SAFE_INTEGER], beats every matching rule that
    stands before it in the array and is not beaten by one that stands
    after it; it takes none when every matching rule is at that ceiling. *)
Lemma highestPrioritySchedule_first (now : Date) (rules : list ScheduleItem) :
  match ScheduleService.highestPrioritySchedule now rules with
  | Some best =>
    ∃ l1 l2, rules = l1 ++ best :: l2
      ∧ ScheduleService.matches now best = true
      ∧ priority best < MAX_SAFE_INTEGER
      ∧ (∀ r, r ∈ l1 → ScheduleService.matches now r = true →
              priority best < priority r)
      ∧ (∀ r, r ∈ l2 → ScheduleService.matches now r = true →
              priority best ≤ priority r)
  | None =>
    ∀ r, r ∈ rules → ScheduleService.matches now r = true →
         MAX_SAFE_INTEGER ≤ priority r
  end.
Proof.
  unfold ScheduleService.highestPrioritySchedule.
  assert (Hinv :
    let acc := foldl (ScheduleService.consider now) (None, MAX_SAFE_INTEGER) rules in
    match acc.1 with
    | Some best =>
      ∃ l1 l2, rules = l1 ++ best :: l2
        ∧ ScheduleService.matches now best = true
        ∧ acc.2 = priority best
        ∧ priority best < MAX_SAFE_INTEGER
        ∧ (∀ r, r ∈ l1 → ScheduleService.matches now r = true →
                priority best < priority r)
        ∧ (∀ r, r ∈ l2 → ScheduleService.matches now r = true →
                priority best ≤ priority r)
    | None =>
      acc.2 = MAX_SAFE_INTEGER
      ∧ ∀ r, r ∈ rules → ScheduleService.matches now r = true →
             MAX_SAFE_INTEGER ≤ priority r
    end).
  { induction rules as [|x l IH] using rev_ind; cbv zeta.
    - cbn. split; [done|]. intros r Hr. by apply elem_of_nil in Hr.
    - rewrite foldl_app. cbn [foldl]. cbv zeta in IH.
      destruct (foldl (ScheduleService.consider now) (None, MAX_SAFE_INTEGER) l)
        as [cur top] eqn:Hacc.
      unfold ScheduleService.consider. cbn [fst snd] in *.
      fold (ScheduleService.matches now x).
      destruct (ScheduleService.matches now x) eqn:Hm; cbn [andb].
      + destruct (Z.ltb_spec (priority x) top) as [Hlt|Hge]; cbn [fst snd].
        * exists l, []. split; [done|]. split; [done|]. split; [done|].
          destruct cur as [b|].
          -- destruct IH as (l1 & l2 & -> & Hb & -> & Htop & Hl1 & Hl2).
             split; [lia|]. split; [|intros r Hr; by apply elem_of_nil in Hr].
             intros r Hr Hmr. apply elem_of_app in Hr as [Hr|Hr].
             ++ specialize (Hl1 r Hr Hmr). lia.
             ++ apply elem_of_cons in Hr as [->|Hr]; [lia|].
                specialize (Hl2 r Hr Hmr). lia.
          -- destruct IH as [-> Hall].
             split; [lia|]. split; [|intros r Hr; by apply elem_of_nil in Hr].
             intros r Hr Hmr. specialize (Hall r Hr Hmr). lia.
        * destruct cur as [b|].
          -- destruct IH as (l1 & l2 & -> & Hb & -> & Htop & Hl1 & Hl2).
             exists l1, (l2 ++ [x]). rewrite <- app_assoc. split; [done|].
             repeat split; try done.
             intros r Hr Hmr. apply elem_of_app in Hr as [Hr|Hr]; [eauto|].
             apply list_elem_of_singleton in Hr as ->. lia.
          -- destruct IH as [-> Hall]. split; [done|].
             intros r Hr Hmr. apply elem_of_app in Hr as [Hr|Hr]; [eauto|].
             apply list_elem_of_singleton in Hr as ->. lia.
      + destruct cur as [b|].
        * destruct IH as (l1 & l2 & -> & Hb & -> & Htop & Hl1 & Hl2).
          exists l1, (l2 ++ [x]). rewrite <- app_assoc. split; [done|].
          repeat split; try done.
          intros r Hr Hmr. apply elem_of_app in Hr as [Hr|Hr]; [eauto|].
          apply list_elem_of_singleton in Hr as ->. congruence.
        * destruct IH as [-> Hall]. split; [done|].
          intros r Hr Hmr. apply elem_of_app in Hr as [Hr|Hr]; [eauto|].
          apply list_elem_of_singleton in Hr as ->. congruence. }
  cbv zeta in Hinv.
  destruct (foldl (ScheduleService.consider now) (None, MAX_SAFE_INTEGER) rules).1
    as [best|].
  - destruct Hinv as (l1 & l2 & ? & ? & _ & ? & ? & ?). eauto 10.
  - by destruct Hinv.
Qed.

(** The order of the code units is transitive. *)
Lemma string_compare_trans (a b c : string) :
  String.compare a b ≠ Gt → String.compare b c ≠ Gt → String.compare a c ≠ Gt.
Proof.
  revert b c. induction a as [|x a IH]; intros [|y b] [|z c]; cbn; try done.
  unfold Ascii.compare.
  destruct (N.compare_spec (N_of_ascii x) (N_of_ascii y)) as [Hxy|Hxy|Hxy];
    destruct (N.compare_spec (N_of_ascii y) (N_of_ascii z)) as [Hyz|Hyz|Hyz];
    destruct (N.compare_spec (N_of_ascii x) (N_of_ascii z)) as [Hxz|Hxz|Hxz];
    try done; try lia.
  apply IH.
Qed.

Lemma schedule_le_spec (a b : ScheduleItem) :
  PlaybackService.schedule_le a b ↔
  priority a < priority b
  ∨ (priority a = priority b ∧ String.compare (start_time a) (start_time b) ≠ Gt).
Proof.
  unfold PlaybackService.schedule_le, PlaybackService.compareSchedules, localeCompare.
  case_bool_decide as Hp.
  - destruct (Z.compare_spec (priority a - priority b) 0) as [Hc|Hc|Hc];
      split; intros Hle; try done; try lia; destruct Hle as [?|[? _]];
      try done; lia.
  - split; [intros H; right; split; [lia|done]|].
    intros [?|[_ ?]]; [lia|done].
Qed.

#[local] Instance schedule_le_total : Total PlaybackService.schedule_le.
Proof.
  intros a b. rewrite !schedule_le_spec.
  destruct (Z.lt_trichotomy (priority a) (priority b)) as [?|[Heq|?]]; [tauto| |tauto].
  rewrite (String.compare_antisym (start_time b) (start_time a)).
  destruct (String.compare (start_time a) (start_time b)); cbn;
    [left|left|right]; right; split; done.
Qed.

#[local] Instance schedule_le_trans : Transitive PlaybackService.schedule_le.
Proof.
  intros a b c. rewrite !schedule_le_spec.
  intros [?|[? Hab]] [?|[? Hbc]]; try (left; lia).
  right. split; [lia|]. by eapply string_compare_trans.
Qed.

Lemma insert_Permutation {A} (cmp : A → A → comparison) (x : A) (l : list A) :
  insert cmp x l ≡ₚ x :: l.
Proof.
  induction l as [|y l IH]; cbn; [done|].
  destruct (cmp x y); try done. by rewrite IH, Permutation_swap.
Qed.

Lemma sort_Permutation {A} (cmp : A → A → comparison) (l : list A) :
  sort cmp l ≡ₚ l.
Proof.
  induction l as [|x l IH]; cbn; [done|].
  by rewrite insert_Permutation, IH.
Qed.

Lemma insert_Sorted {A} (cmp : A → A → comparison) (x : A) (l : list A) :
  (∀ a b, cmp a b = Gt → cmp b a ≠ Gt) →
  Sorted (λ a b, cmp a b ≠ Gt) l → Sorted (λ a b, cmp a b ≠ Gt) (insert cmp x l).
Proof.
  intros Htotal. induction l as [|y l IH]; intros Hsorted; cbn.
  - by repeat constructor.
  - destruct (cmp x y) eqn:Hxy.
    + constructor; [done|]. constructor. by rewrite Hxy.
    + constructor; [done|]. constructor. by rewrite Hxy.
    + apply Sorted_inv in Hsorted as [Hl Hhd].
      constructor; [by apply IH|].
      destruct l as [|z l]; cbn.
      * constructor. by apply Htotal.
      * apply HdRel_inv in Hhd.
        destruct (cmp x z); constructor; try done; by apply Htotal.
Qed.

Lemma sort_Sorted {A} (cmp : A → A → comparison) (l : list A) :
  (∀ a b, cmp a b = Gt → cmp b a ≠ Gt) →
  Sorted (λ a b, cmp a b ≠ Gt) (sort cmp l).
Proof.
  intros Htotal. induction l as [|x l IH]; cbn; [constructor|].
  by apply insert_Sorted.
Qed.

Lemma find_split {A} (P : A → bool) (l : list A) (x : A) :
  List.find P l = Some x →
  ∃ l1 l2, l = l1 ++ x :: l2 ∧ P x = true ∧ ∀ y, y ∈ l1 → P y = false.
Proof.
  induction l as [|a l IH]; cbn; [done|].
  destruct (P a) eqn:Ha.
  - intros [= ->]. exists [], l. split; [done|]. split; [done|].
    intros y Hy. by apply elem_of_nil in Hy.
  - intros Hx. destruct (IH Hx) as (l1 & l2 & -> & Hpx & Hl1).
    exists (a :: l1), l2. split; [done|]. split; [done|].
    intros y Hy. apply elem_of_cons in Hy as [->|Hy]; eauto.
Qed.

Lemma find_none_iff {A} (P : A → bool) (l : list A) :
  List.find P l = None ↔ ∀ y, y ∈ l → P y = false.
Proof.
  induction l as [|a l IH]; cbn.
  - split; [intros _ y Hy; by apply elem_of_nil in Hy|done].
  - destruct (P a) eqn:Ha.
    + split; [done|]. intros H. specialize (H a (list_elem_of_here _ _)). congruence.
    + rewrite IH. split.
      * intros H y Hy. apply elem_of_cons in Hy as [->|Hy]; eauto.
      * intros H y Hy. apply H. by right.
Qed.

(** [startPlayback] picks, among the active rules, one of the least
    priority and, among those, one of the earliest start time; it finds
    one whenever a rule is active. *)
Lemma activeSchedule_least (now : Date) (rules : list ScheduleItem) :
  match PlaybackService.activeSchedule now rules with
  | Some best =>
    best ∈ rules ∧ PlaybackService.isActive now best = true
    ∧ ∀ r, r ∈ rules → PlaybackService.isActive now r = true →
           priority best < priority r
           ∨ (priority best = priority r
              ∧ str_le (start_time best) (start_time r) = true)
  | None => ∀ r, r ∈ rules → PlaybackService.isActive now r = false
  end.
Proof.
  unfold PlaybackService.activeSchedule, PlaybackService.sortedSchedules.
  pose proof (sort_Permutation PlaybackService.compareSchedules rules) as Hperm.
  assert (Hsorted : StronglySorted PlaybackService.schedule_le
                      (sort PlaybackService.compareSchedules rules)).
  { apply Sorted_StronglySorted; [apply _|]. apply sort_Sorted.
    intros a b Hab. destruct (schedule_le_total a b) as [Hle|Hle]; [|done].
    by destruct Hle. }
  destruct (List.find _ _) as [best|] eqn:Hfind.
  - apply find_split in Hfind as (l1 & l2 & Hl & Hbest & Hl1).
    rewrite Hl in Hperm, Hsorted.
    split; [rewrite <- Hperm; set_solver|]. split; [done|].
    intros r Hr Hact. rewrite <- Hperm in Hr.
    assert (PlaybackService.schedule_le best r) as Hle.
    { apply elem_of_app in Hr as [Hr|Hr]; [apply Hl1 in Hr; congruence|].
      apply elem_of_cons in Hr as [->|Hr].
      - destruct (schedule_le_total best best); done.
      - pose proof (StronglySorted_app_1_r _ l1 (best :: l2) Hsorted) as Htail.
        apply StronglySorted_inv in Htail as [_ Hall].
        rewrite Forall_forall in Hall. by apply Hall. }
    apply schedule_le_spec in Hle as [?|[? Hcmp]]; [by left|right].
    split; [done|]. unfold str_le, String.leb.
    by destruct (String.compare (start_time best) (start_time r)).
  - intros r Hr. rewrite <- Hperm in Hr.
    by eapply find_none_iff in Hfind.
Qed.

End selection.

(** C2. Two rules of priority 1 are both active on Monday at 10:30; the one
    with the later start time, "10:00", stands first in [upcoming].
    [checkSchedule] keeps the first rule it met and resolves "P-late",
    although the rule of "P-early" has the same priority and the earlier
    start time "09:00"; [startPlayback], which sorts by priority and then
    by start time, resolves "P-early" on the same input. *)
Theorem checkSchedule_tie_keeps_array_order :
  let now := Scenario.monday 10 30 in
  let rules := [Scenario.late_rule; Scenario.early_rule] in
  ScheduleService.matches now Scenario.late_rule = true
  ∧ ScheduleService.matches now Scenario.early_rule = true
  ∧ ScreenModel.priority Scenario.late_rule = ScreenModel.priority Scenario.early_rule
  ∧ String.ltb (ScreenModel.start_time Scenario.early_rule)
               (ScreenModel.start_time Scenario.late_rule) = true
  ∧ ScheduleService.highestPrioritySchedule now rules = Some Scenario.late_rule
  ∧ ScheduleService.currentPlaylistId
      (ScheduleService.after
         (ScheduleService.checkSchedule Scenario.fresh_schedule_service now
            (Some Scenario.tied_screen))) = Some "P-late"
  ∧ PlaybackService.activeSchedule now rules = Some Scenario.early_rule
  ∧ PlaybackService.startPlayback_playlistId (Some "screen-1") now
      (Some Scenario.tied_screen) None
    = Some "P-early".
Proof. vm_compute. repeat split; reflexivity. Qed.

(** ** The state of the schedule check *)

(** C7, as stated, fails: with nothing resolved yet, the first check on
    Monday 10:00 answers [true] and the check that follows it, at the same
    instant and on the same screen record, answers [false]. *)
Lemma checkSchedule_successive_results_differ :
  ¬ (∀ (svc : ScheduleService.t) (now : JS.Date) (fetched : option ScreenModel.Screen),
       let first := ScheduleService.checkSchedule svc now fetched in
       let second := ScheduleService.checkSchedule (ScheduleService.after first) now fetched in
       ScheduleService.changed first = ScheduleService.changed second).
Proof.
  intros H.
  specialize (H Scenario.fresh_schedule_service (Scenario.monday 10 0)
                (Some Scenario.office_screen)).
  vm_compute in H. discriminate.
Qed.

(** C7, amended. The rule [checkSchedule] selects depends on the instant
    and the fetched rules only, but its answer reports a change against the
    playlist id the service remembers: the answer is [true] exactly when the
    call replaces the remembered id, and a check that follows another one
    at the same instant and on the same screen record answers [false],
    asks for no update and leaves the service as the first check left it. *)
Theorem checkSchedule_second_call_no_change
    (svc : ScheduleService.t) (now : JS.Date) (fetched : option ScreenModel.Screen) :
  let first := ScheduleService.checkSchedule svc now fetched in
  let second := ScheduleService.checkSchedule (ScheduleService.after first) now fetched in
  ScheduleService.changed second = false
  ∧ ScheduleService.updated second = []
  ∧ ScheduleService.after second = ScheduleService.after first
  ∧ (ScheduleService.changed first = true ↔
     ScheduleService.currentPlaylistId (ScheduleService.after first)
     ≠ ScheduleService.currentPlaylistId svc)
  ∧ (ScheduleService.changed first = false → ScheduleService.after first = svc).
Proof.
  unfold ScheduleService.checkSchedule.
  destruct svc as [dev cur]; cbn [ScheduleService.deviceId ScheduleService.currentPlaylistId].
  destruct dev as [dev|]; [|by cbn].
  destruct (JS.truthy_str dev) eqn:Hdev; cbn [negb]; [|by cbn; rewrite Hdev].
  destruct fetched as [screen|]; [|by cbn; rewrite Hdev].
  destruct (ScheduleService.has_upcoming screen) as [rules|];
    [|by cbn; rewrite Hdev].
  destruct (ScheduleService.highestPrioritySchedule now rules) as [best|].
  - case_bool_decide as Hne; cbn; rewrite Hdev; cbn.
    + rewrite bool_decide_eq_false_2 by (intros Hc; by apply Hc).
      cbn. repeat split; done.
    + rewrite bool_decide_eq_false_2 by (intros Hc; by apply Hc). cbn.
      repeat split; done.
  - destruct (ScreenModel.current_playlist screen) as [cp|];
      [|by cbn; rewrite Hdev].
    destruct (JS.truthy_str cp) eqn:Hcp; cbn [andb]; [|by cbn; rewrite Hdev, ?Hcp].
    case_bool_decide as Hne; cbn; rewrite Hdev, ?Hcp; cbn.
    + rewrite bool_decide_eq_false_2 by (intros Hc; by apply Hc).
      cbn. repeat split; done.
    + rewrite bool_decide_eq_false_2 by (intros Hc; by apply Hc). cbn.
      repeat split; done.
Qed.

(** ** The playback engine *)
Section playback.
Import PlaybackService.

(** Running the queued emissions changes the current item and nothing
    else of the engine. *)
Lemma run_deferred_spec (l : list (option PlaylistItem.t)) (e : t) :
  deferred e = l →
  let e' := foldl (λ e' _, tick e') e l in
  deferred e' = []
  ∧ currentItem_emitted e' = currentItem_emitted e ++ l
  ∧ currentItem_ e' = default (currentItem_ e) (last l)
  ∧ currentIndex e' = currentIndex e
  ∧ isTransitioning_ e' = isTransitioning_ e
  ∧ currentTransitionTimeout e' = currentTransitionTimeout e
  ∧ currentPlaylist e' = currentPlaylist e
  ∧ playbackError_ e' = playbackError_ e
  ∧ playerState e' = playerState e.
Proof.
  revert e. induction l as [|x l IH]; intros e Hl; cbn [foldl].
  - cbn. rewrite app_nil_r. repeat split; done.
  - assert (Ht : tick e = next_currentItem x (set_deferred l e))
      by (unfold tick; by rewrite Hl).
    rewrite Ht. clear Ht.
    specialize (IH (next_currentItem x (set_deferred l e)) eq_refl).
    cbv zeta in IH. destruct IH as (H1 & H2 & H3 & H4 & H5 & H6 & H7 & H8 & H9).
    cbn in H2, H3, H4, H5, H6, H7, H8, H9.
    repeat split; try done.
    + rewrite H2, <- app_assoc. done.
    + rewrite H3, last_cons. by destruct (last l).
Qed.

Lemma settle_spec (e : t) :
  deferred (settle e) = []
  ∧ currentItem_emitted (settle e) = currentItem_emitted e ++ deferred e
  ∧ currentItem_ (settle e) = default (currentItem_ e) (last (deferred e))
  ∧ currentIndex (settle e) = currentIndex e
  ∧ isTransitioning_ (settle e) = isTransitioning_ e
  ∧ currentTransitionTimeout (settle e) = currentTransitionTimeout e
  ∧ currentPlaylist (settle e) = currentPlaylist e
  ∧ playbackError_ (settle e) = playbackError_ e
  ∧ playerState (settle e) = playerState e.
Proof. by apply run_deferred_spec. Qed.

(** What [playCurrentItem] leaves behind on a playlist with items. *)
Lemma playCurrentItem_spec (e : t) (p : Playlist.t) :
  currentPlaylist e = Some p → Playlist.items p ≠ [] →
  let e' := playCurrentItem e in
  currentPlaylist e' = Some p
  ∧ currentIndex e' = currentIndex e
  ∧ isTransitioning_ e' = false
  ∧ currentTransitionTimeout e' = currentTransitionTimeout e
  ∧ playbackError_ e' = playbackError_ e
  ∧ deferred e' = deferred e ++ [item_at (Playlist.items p) (currentIndex e)]
  ∧ currentItem_emitted e' = currentItem_emitted e ++ [None]
  ∧ nextItem_ e' = item_at (Playlist.items p)
                     (advance (currentIndex e) (length (Playlist.items p))).
Proof.
  intros Hp Hne. unfold playCurrentItem, preloadNextItem. rewrite Hp.
  destruct (Playlist.items p) as [|i0 items] eqn:Hitems; [done|].
  destruct (item_at (i0 :: items) (advance (currentIndex e) (length (i0 :: items))))
    as [next|] eqn:Hnext.
  - unfold preloadItem.
    destruct (PlaylistItem.thumbnail (PlaylistItem.content next)) as [th|];
      [destruct (JS.truthy_str th)|]; cbn; repeat split; done.
  - cbn. repeat split; done.
Qed.

(** A position obtained by [advance] on a playlist with items is in
    range. *)
Lemma advance_in_range (i n : nat) :
  n ≠ 0%nat → ∃ j, advance (Idx i) n = Idx j ∧ j = ((i + 1) mod n)%nat ∧ (j < n)%nat.
Proof.
  intros Hn. destruct n as [|n]; [done|].
  exists ((i + 1) mod S n)%nat. split; [done|]. split; [done|].
  apply Nat.mod_upper_bound. done.
Qed.

End playback.

(** C5. For every loaded playlist with at least one item and every current
    index [i], [skipToNext] raises the transitioning flag and arms the
    timer, and once the timer has fired and the queued emission has run the
    current index is [(i + 1) mod n] (whatever the playlist's [loop] setting
    says, which the engine never reads), the transitioning flag is down,
    no timer is pending, and the item at the new index is the last value
    emitted on [currentItem$] and its current value. *)
Theorem skipToNext_advances_modulo
    (e : PlaybackService.t) (p : Playlist.t) (i : nat) :
  PlaybackService.currentPlaylist e = Some p →
  Playlist.items p ≠ [] →
  PlaybackService.currentIndex e = PlaybackService.Idx i →
  let n := length (Playlist.items p) in
  let waiting := PlaybackService.skipToNext e in
  let arrived := PlaybackService.settle (PlaybackService.transitionTimeout waiting) in
  PlaybackService.isTransitioning_ waiting = true
  ∧ is_Some (PlaybackService.currentTransitionTimeout waiting)
  ∧ PlaybackService.currentIndex waiting = PlaybackService.Idx i
  ∧ PlaybackService.currentIndex arrived = PlaybackService.Idx ((i + 1) mod n)
  ∧ PlaybackService.isTransitioning_ arrived = false
  ∧ PlaybackService.currentTransitionTimeout arrived = None
  ∧ PlaybackService.currentPlaylist arrived = Some p
  ∧ (∃ item, Playlist.items p !! ((i + 1) mod n)%nat = Some item
             ∧ PlaybackService.currentItem_ arrived = Some item
             ∧ last (PlaybackService.currentItem_emitted arrived) = Some (Some item)).
Proof.
  intros Hp Hne Hi n waiting arrived.
  assert (Hn : n ≠ 0%nat) by (subst n; destruct (Playlist.items p); done).
  assert (Hw : waiting = PlaybackService.set_currentTransitionTimeout
                 (Some (PlaybackService.getTransitionDuration
                          (PlaybackService.set_isTransitioning true
                             (PlaybackService.clearTransition e))))
                 (PlaybackService.set_isTransitioning true
                    (PlaybackService.clearTransition e))).
  { subst waiting. unfold PlaybackService.skipToNext. rewrite Hp.
    destruct (Playlist.items p); done. }
  assert (Hwp : PlaybackService.currentPlaylist waiting = Some p).
  { rewrite Hw. unfold PlaybackService.clearTransition.
    destruct (PlaybackService.currentTransitionTimeout e); exact Hp. }
  assert (Hwi : PlaybackService.currentIndex waiting = PlaybackService.Idx i).
  { rewrite Hw. unfold PlaybackService.clearTransition.
    destruct (PlaybackService.currentTransitionTimeout e); exact Hi. }
  split; [by rewrite Hw|]. split; [by rewrite Hw|]. split; [exact Hwi|].
  destruct (advance_in_range i n Hn) as (j & Hadv & -> & Hlt).
  set (moved := PlaybackService.set_isTransitioning false
                  (PlaybackService.set_currentIndex
                     (PlaybackService.advance (PlaybackService.currentIndex waiting)
                        (length (Playlist.items p))) waiting)).
  assert (Hfire : PlaybackService.transitionTimeout waiting
                  = PlaybackService.set_currentTransitionTimeout None
                      (PlaybackService.playCurrentItem moved)).
  { unfold PlaybackService.transitionTimeout. rewrite Hwp.
    rewrite Hw at 1. reflexivity. }
  destruct (playCurrentItem_spec moved p Hwp Hne)
    as (Pp & Pi & Pt & _ & _ & Pd & Pe & _).
  replace (PlaybackService.currentIndex moved) with (PlaybackService.Idx ((i + 1) mod n))
    in Pi, Pd by (subst moved; cbn; rewrite Hwi; symmetry; exact Hadv).
  destruct (settle_spec (PlaybackService.transitionTimeout waiting))
    as (_ & Se & Sc & Si & St & Sto & Sp & _).
  fold arrived in Se, Sc, Si, St, Sto, Sp.
  rewrite Hfire in Se, Sc, Si, St, Sto, Sp. cbn in Se, Sc, Si, St, Sto, Sp.
  rewrite Pd in Se, Sc. rewrite last_snoc in Sc. cbn in Sc.
  split; [by rewrite Si, Pi|]. split; [by rewrite St|].
  split; [done|]. split; [by rewrite Sp|].
  destruct (lookup_lt_is_Some_2 (Playlist.items p) ((i + 1) mod n)%nat Hlt) as [it Hit].
  exists it. split; [done|]. split; [by rewrite Sc|].
  rewrite Se, app_assoc, last_snoc. cbn. by rewrite Hit.
Qed.

(** ** The transition delay *)

(** C8, as stated, fails: the first slide of the lobby playlist fades for
    zero seconds, and [skipToNext] waits the 500 ms default, not
    [0 * 1000]. *)
Lemma skipToNext_delay_zero_duration :
  ¬ (∀ (e : PlaybackService.t) (p : Playlist.t) (item : PlaylistItem.t),
       PlaybackService.currentPlaylist e = Some p →
       Playlist.items p ≠ [] →
       PlaybackService.currentItem_ e = Some item →
       PlaybackService.currentTransitionTimeout (PlaybackService.skipToNext e)
       = Some (match PlaylistItem.transition (PlaylistItem.settings item) with
               | PlaylistItem.none => 0
               | _ => PlaylistItem.transitionDuration (PlaylistItem.settings item) * 1000
               end)%float).
Proof.
  intros H.
  specialize (H Scenario.playing_lobby Scenario.lobby Scenario.instant_fade
                eq_refl ltac:(done) eq_refl).
  apply (f_equal (λ o, match o with
                       | Some x => PrimFloat.eqb x 0%float
                       | None => false
                       end)) in H.
  vm_compute in H. discriminate.
Qed.

(** C8, amended. For every current item, the delay [skipToNext] arms the
    timer with is 0 when the item's transition type is "none"; otherwise it
    is [transitionDuration * 1000] milliseconds when that product is a
    number other than zero, and the 500 ms default when the product is
    zero or not a number. *)
Theorem skipToNext_delay
    (e : PlaybackService.t) (p : Playlist.t) (item : PlaylistItem.t) :
  PlaybackService.currentPlaylist e = Some p →
  Playlist.items p ≠ [] →
  PlaybackService.currentItem_ e = Some item →
  let ms := (PlaylistItem.transitionDuration (PlaylistItem.settings item) * 1000)%float in
  PlaybackService.currentTransitionTimeout (PlaybackService.skipToNext e)
  = Some (match PlaylistItem.transition (PlaylistItem.settings item) with
          | PlaylistItem.none => 0%float
          | _ => if JS.truthy_num ms then ms else 500%float
          end).
Proof.
  intros Hp Hne Hitem ms. unfold PlaybackService.skipToNext. rewrite Hp.
  destruct (Playlist.items p) as [|i0 items]; [done|].
  cbn [PlaybackService.currentTransitionTimeout
       PlaybackService.set_currentTransitionTimeout].
  f_equal. unfold PlaybackService.getTransitionDuration, PlaybackService.clearTransition.
  destruct (PlaybackService.currentTransitionTimeout e); cbn; rewrite Hitem;
    by destruct (PlaylistItem.transition (PlaylistItem.settings item)).
Qed.

(** ** The index and the loaded playlist *)
Section bounds.
Import PlaybackService.

Lemma playCurrentItem_keeps (e : t) :
  currentPlaylist (playCurrentItem e) = currentPlaylist e
  ∧ currentIndex (playCurrentItem e) = currentIndex e.
Proof.
  unfold playCurrentItem, preloadNextItem.
  destruct (currentPlaylist e) as [p|] eqn:Hp; [|done].
  destruct (Playlist.items p) as [|i0 items]; [done|].
  destruct (item_at _ _) as [next|]; [|by cbn].
  unfold preloadItem.
  destruct (PlaylistItem.thumbnail (PlaylistItem.content next)) as [th|];
    [destruct (JS.truthy_str th)|]; by cbn.
Qed.

Lemma preloadAllContent_keeps (p : Playlist.t) (e : t) :
  currentPlaylist (preloadAllContent p e) = currentPlaylist e
  ∧ currentIndex (preloadAllContent p e) = currentIndex e.
Proof.
  unfold preloadAllContent. revert e.
  induction (Playlist.items p) as [|it items IH]; intros e; [done|].
  cbn [foldl]. destruct (IH
    (match PlaylistItem.thumbnail (PlaylistItem.content it) with
     | Some th =>
       if JS.truthy_str th
       then preloadContent th
              (if JS.truthy_str (PlaylistItem.url (PlaylistItem.content it))
               then preloadContent (PlaylistItem.url (PlaylistItem.content it)) e
               else e)
       else if JS.truthy_str (PlaylistItem.url (PlaylistItem.content it))
            then preloadContent (PlaylistItem.url (PlaylistItem.content it)) e
            else e
     | None => if JS.truthy_str (PlaylistItem.url (PlaylistItem.content it))
               then preloadContent (PlaylistItem.url (PlaylistItem.content it)) e
               else e
     end)) as [-> ->].
  destruct (PlaylistItem.thumbnail (PlaylistItem.content it)) as [th|];
    [destruct (JS.truthy_str th)|];
    destruct (JS.truthy_str (PlaylistItem.url (PlaylistItem.content it))); done.
Qed.

(** A playlist with items starts at a valid position. *)
Lemma processPlaylist_in_bounds (p : Playlist.t) (fb : option Playlist.t) (e : t) :
  Playlist.items p ≠ [] → index_in_bounds (processPlaylist p fb e).
Proof.
  intros Hne. unfold processPlaylist, index_in_bounds.
  destruct (Playlist.items p) as [|i0 items] eqn:Hitems; [done|].
  destruct (playCurrentItem_keeps
    (updatePlayerState
       {| isPlaying' := Some true;
          currentPlaylistId' := Some (Some (Playlist.id p));
          currentPlaylistName' := Some (Playlist.name p);
          currentItemIndex' := Some (Idx 0);
          totalItems' := Some (length (i0 :: items)) |}
       (preloadAllContent p
          (set_playbackError None
             (set_currentIndex (Idx 0) (set_currentPlaylist (Some p) e))))))
    as [-> ->].
  cbn. destruct (preloadAllContent_keeps p
    (set_playbackError None
       (set_currentIndex (Idx 0) (set_currentPlaylist (Some p) e)))) as [-> ->].
  cbn. exists 0%nat. rewrite Hitems. cbn. split; [done|lia].
Qed.

(** The timer callback keeps the position valid. *)
Lemma transitionTimeout_in_bounds (e : t) :
  index_in_bounds e → index_in_bounds (transitionTimeout e).
Proof.
  unfold transitionTimeout, index_in_bounds.
  destruct (currentTransitionTimeout e) as [d|]; [|intros Hinv; exact Hinv].
  destruct (currentPlaylist e) as [p|] eqn:Hp; [|by rewrite Hp].
  intros (i & Hi & Hlt). cbn.
  destruct (playCurrentItem_keeps
    (set_isTransitioning false
       (set_currentIndex (advance (currentIndex e) (length (Playlist.items p))) e)))
    as [-> ->].
  cbn. rewrite Hp, Hi.
  destruct (advance_in_range i (length (Playlist.items p))) as (j & -> & _ & Hj); [lia|].
  eauto.
Qed.

(** Restarting keeps the position valid. *)
Lemma restartPlayback_in_bounds (e : t) :
  index_in_bounds e → index_in_bounds (restartPlayback e).
Proof.
  unfold restartPlayback, index_in_bounds.
  destruct (playCurrentItem_keeps (set_currentIndex (Idx 0) (clearTransition e)))
    as [-> ->].
  unfold clearTransition.
  destruct (currentTransitionTimeout e); cbn;
    (destruct (currentPlaylist e) as [p|]; [|done]);
    intros (i & _ & Hlt); exists 0%nat; (split; [done|lia]).
Qed.

(** A fallback playlist with items starts at a valid position. *)
Lemma loadFallbackContent_in_bounds (fb : option Playlist.t) (e : t) :
  (∀ q, fb = Some q → Playlist.items q ≠ []) →
  index_in_bounds e → index_in_bounds (loadFallbackContent fb e).
Proof.
  intros Hfb Hinv. unfold loadFallbackContent, index_in_bounds.
  destruct fb as [q|]; [|exact Hinv].
  destruct (playCurrentItem_keeps
    (updatePlayerState
       {| isPlaying' := Some true;
          currentPlaylistId' := Some (Some (Playlist.id q));
          currentPlaylistName' := Some (Playlist.name q +:+ " (Fallback)");
          currentItemIndex' := Some (Idx 0);
          totalItems' := Some (length (Playlist.items q)) |}
       (set_playbackError None
          (set_currentIndex (Idx 0) (set_currentPlaylist (Some q) e)))))
    as [-> ->].
  cbn. exists 0%nat. split; [done|].
  specialize (Hfb q eq_refl). destruct (Playlist.items q); [done|cbn; lia].
Qed.

End bounds.

(** C10. The item query of playlist "no-items" returned no rows; the
    playlist is cached, no fallback file is bundled, so
    [getFallbackPlaylist] hands the same playlist back and
    [loadFallbackContent], reached from [processPlaylist], loads it without
    the test for items that [processPlaylist] makes: a playlist is loaded,
    the index is 0 and the playlist has 0 items, the error is cleared and
    the state says playing. *)
Theorem loadFallbackContent_empty_playlist_out_of_bounds :
  let weather := Scenario.fair_weather 1000 "blob:1" (Scenario.blob_of 1) in
  let cache := ContentSyncService.cachePlaylist weather Scenario.no_items
                 Scenario.open_cache in
  let fallback := ContentSyncService.getFallbackPlaylist weather cache in
  let e := PlaybackService.processPlaylist Scenario.no_items fallback Scenario.idle in
  PlaybackService.index_in_bounds Scenario.idle
  ∧ fallback = Some Scenario.no_items
  ∧ PlaybackService.currentPlaylist e = Some Scenario.no_items
  ∧ PlaybackService.currentIndex e = PlaybackService.Idx 0
  ∧ length (Playlist.items Scenario.no_items) = 0%nat
  ∧ ¬ PlaybackService.index_in_bounds e
  ∧ PlaybackService.playbackError_ e = None
  ∧ PlaybackService.isPlaying (PlaybackService.playerState e) = true
  ∧ PlaybackService.totalItems (PlaybackService.playerState e) = 0%nat.
Proof.
  cbv zeta.
  assert (Hfb : ContentSyncService.getFallbackPlaylist
                  (Scenario.fair_weather 1000 "blob:1" (Scenario.blob_of 1))
                  (ContentSyncService.cachePlaylist
                     (Scenario.fair_weather 1000 "blob:1" (Scenario.blob_of 1))
                     Scenario.no_items Scenario.open_cache)
                = Some Scenario.no_items) by (vm_compute; reflexivity).
  rewrite Hfb.
  split; [exact I|]. split; [reflexivity|]. split; [reflexivity|].
  split; [reflexivity|]. split; [reflexivity|].
  split; [|repeat split; reflexivity].
  unfold PlaybackService.index_in_bounds. cbn.
  intros (i & _ & Hlt). lia.
Qed.

(** ** The playlist cache *)
Section playlist_cache.
Import JS ContentSyncService.

Lemma truthy_str_true (s : string) : truthy_str s = true ↔ s ≠ "".
Proof.
  unfold truthy_str. rewrite negb_true_iff. apply String.eqb_neq.
Qed.

Lemma index_leb_total (k1 k2 : Z * string) :
  index_leb k1 k2 = true ∨ index_leb k2 k1 = true.
Proof.
  unfold index_leb, str_le.
  destruct (Z.lt_trichotomy k1.1 k2.1) as [Hlt|[Heq|Hgt]].
  - left. apply orb_true_iff. left. by apply Z.ltb_lt.
  - destruct (String.leb_total k1.2 k2.2) as [Hle|Hle]; [left|right];
      apply orb_true_iff; right; apply andb_true_iff; (split; [|done]);
      apply Z.eqb_eq; lia.
  - right. apply orb_true_iff. left. by apply Z.ltb_lt.
Qed.

Lemma index_leb_fst (k1 k2 : Z * string) : index_leb k1 k2 = true → k1.1 ≤ k2.1.
Proof.
  unfold index_leb. rewrite orb_true_iff, andb_true_iff, Z.ltb_lt, Z.eqb_eq.
  intros [?|[? _]]; lia.
Qed.

Lemma index_leb_trans (k1 k2 k3 : Z * string) :
  index_leb k1 k2 = true → index_leb k2 k3 = true → index_leb k1 k3 = true.
Proof.
  unfold index_leb, str_le, String.leb.
  rewrite !orb_true_iff, !andb_true_iff, !Z.ltb_lt, !Z.eqb_eq.
  intros [H12|[H12 S12]] [H23|[H23 S23]]; try (left; lia).
  right. split; [lia|].
  pose proof (string_compare_trans k1.2 k2.2 k3.2) as Htr.
  destruct (String.compare k1.2 k2.2); try done;
    destruct (String.compare k2.2 k3.2); try done;
    destruct (String.compare k1.2 k3.2); try done; exfalso; by apply Htr.
Qed.

#[global] Instance playlist_le_total : Total playlist_le.
Proof.
  intros a b. unfold playlist_le.
  destruct (index_leb_total (cachedAt a, Playlist.id (playlist a))
                            (cachedAt b, Playlist.id (playlist b))) as [H|H];
    rewrite H; [left|right]; exact I.
Qed.

#[global] Instance playlist_le_trans : Transitive playlist_le.
Proof.
  intros a b c. unfold playlist_le. rewrite !Is_true_true. apply index_leb_trans.
Qed.

#[global] Instance content_le_total : Total content_le.
Proof.
  intros a b. unfold content_le.
  destruct (index_leb_total (timestamp a, url a) (timestamp b, url b)) as [H|H];
    rewrite H; [left|right]; exact I.
Qed.

#[global] Instance content_le_trans : Transitive content_le.
Proof.
  intros a b c. unfold content_le. rewrite !Is_true_true. apply index_leb_trans.
Qed.

(** The records a cursor over the playlist index visits are the records
    of the store. *)
Lemma playlistCursorPrev_elem (s : t) (c : CachedPlaylist) :
  c ∈ playlistCursorPrev s ↔ ∃ k, playlistStore s !! k = Some c.
Proof.
  unfold playlistCursorPrev.
  rewrite elem_of_reverse, merge_sort_Permutation, list_elem_of_fmap. split.
  - intros ([k c'] & -> & Hin). exists k. by apply elem_of_map_to_list.
  - intros (k & Hk). exists (k, c). split; [done|]. by apply elem_of_map_to_list.
Qed.

(** The first record of the backwards cursor is a newest one. *)
Lemma playlistCursorPrev_head (s : t) :
  match head (playlistCursorPrev s) with
  | Some c =>
    (∃ k, playlistStore s !! k = Some c)
    ∧ ∀ k c', playlistStore s !! k = Some c' → cachedAt c' ≤ cachedAt c
  | None => playlistStore s = ∅
  end.
Proof.
  destruct (head (playlistCursorPrev s)) as [c|] eqn:Hhead.
  - assert (Hc : c ∈ playlistCursorPrev s) by (by apply head_Some_elem_of).
    split; [by apply playlistCursorPrev_elem|].
    intros k c' Hk.
    assert (Hc' : c' ∈ playlistCursorPrev s) by (apply playlistCursorPrev_elem; eauto).
    unfold playlistCursorPrev in Hhead, Hc'.
    rewrite head_reverse in Hhead. apply last_Some in Hhead as [l' Hl'].
    pose proof (StronglySorted_merge_sort playlist_le
                  (map_to_list (playlistStore s)).*2) as Hsorted.
    rewrite Hl' in Hsorted, Hc'. rewrite elem_of_reverse in Hc'.
    apply elem_of_app in Hc' as [Hin|Hin].
    + pose proof (StronglySorted_app_1_elem_of _ _ _ c' c Hsorted Hin
                    ltac:(by apply list_elem_of_here)) as Hle.
      unfold playlist_le in Hle. apply Is_true_true in Hle.
      by apply index_leb_fst in Hle.
    + apply list_elem_of_singleton in Hin as ->. lia.
  - apply head_None in Hhead. unfold playlistCursorPrev in Hhead.
    apply (f_equal reverse) in Hhead. rewrite reverse_involutive in Hhead.
    cbn in Hhead.
    pose proof (merge_sort_Permutation playlist_le
                  (map_to_list (playlistStore s)).*2) as Hperm.
    rewrite Hhead in Hperm. symmetry in Hperm.
    apply Permutation_nil_r in Hperm. apply fmap_nil_inv in Hperm.
    by apply map_to_list_empty_iff.
Qed.

End playlist_cache.

(** C9, as stated, fails: a playlist document whose id is the empty string
    is stored by [cachePlaylist], yet [getCachedPlaylist] answers [null]
    for the empty id without looking into the store. *)
Lemma cachePlaylist_empty_id_not_returned :
  ¬ (∀ (e : ContentSyncService.env) (p : Playlist.t) (s : ContentSyncService.t),
       ContentSyncService.playlists_readable e s →
       ∃ c, ContentSyncService.getCachedPlaylist e (Playlist.id p)
              (ContentSyncService.cachePlaylist e p s) = Some c
            ∧ ContentSyncService.asPlaylist c = p).
Proof.
  intros H.
  destruct (H (Scenario.fair_weather 1000 "blob:1" (Scenario.blob_of 1))
              Scenario.anonymous Scenario.open_cache) as (c & Hc & _).
  - repeat split.
  - vm_compute in Hc. discriminate.
Qed.

(** C9, amended. For every playlist with a non-empty id, while the playlist
    store can be read and written, caching the playlist and then asking for
    its id yields a record that holds the playlist unchanged, the order of
    its items included, together with the cache timestamp; for the empty id
    [getCachedPlaylist] always answers [null]. *)
Theorem cachePlaylist_getCachedPlaylist_roundtrip
    (e : ContentSyncService.env) (p : Playlist.t) (s : ContentSyncService.t) :
  ContentSyncService.playlists_readable e s →
  Playlist.id p ≠ "" →
  (∃ c, ContentSyncService.getCachedPlaylist e (Playlist.id p)
          (ContentSyncService.cachePlaylist e p s) = Some c
        ∧ ContentSyncService.asPlaylist c = p
        ∧ Playlist.items (ContentSyncService.asPlaylist c) = Playlist.items p
        ∧ ContentSyncService.cachedAt c = ContentSyncService.now e)
  ∧ (∀ s', ContentSyncService.getCachedPlaylist e "" s' = None).
Proof.
  intros (Hdb & Hinit & Hreq) Hid. split; [|done].
  exists {| ContentSyncService.playlist := p;
            ContentSyncService.cachedAt := ContentSyncService.now e |}.
  split; [|done].
  unfold ContentSyncService.cachePlaylist. rewrite Hdb, Hinit, Hreq. cbn [negb].
  unfold ContentSyncService.getCachedPlaylist.
  apply truthy_str_true in Hid. rewrite Hid, Hreq. cbn [negb].
  change (ContentSyncService.ensureInitialized (ContentSyncService.log _ _))
    with (ContentSyncService.ensureInitialized s).
  rewrite Hinit. cbn. rewrite Hdb. cbn. apply lookup_insert_eq.
Qed.

(** ** The fallback chain *)

(** C6, as stated, fails: the lobby playlist is cached and no fallback file
    is bundled, but the cursor request on the playlist store ends in
    [onerror]; [getFallbackPlaylist] then answers [null] although a
    playlist is cached. *)
Lemma getFallbackPlaylist_unreadable_store :
  ¬ (∀ (e : ContentSyncService.env) (s : ContentSyncService.t),
       ContentSyncService.bundled e = None →
       ContentSyncService.playlistStore s ≠ ∅ →
       is_Some (ContentSyncService.getFallbackPlaylist e s)).
Proof.
  intros H.
  set (calm := Scenario.fair_weather 1000 "blob:1" (Scenario.blob_of 1)).
  set (storm := {| ContentSyncService.read := ContentSyncService.Succeeds;
                   ContentSyncService.update := ContentSyncService.Succeeds;
                   ContentSyncService.store := ContentSyncService.Succeeds;
                   ContentSyncService.trim := ContentSyncService.Succeeds;
                   ContentSyncService.playlists := ContentSyncService.RequestErrors;
                   ContentSyncService.createObjectURL := Some "blob:1";
                   ContentSyncService.http_get := λ _, None;
                   ContentSyncService.bundled := None;
                   ContentSyncService.now := 2000 |}).
  destruct (H storm (ContentSyncService.cachePlaylist calm Scenario.lobby
                       Scenario.open_cache)) as [p Hp].
  - reflexivity.
  - intros Hempty.
    apply (f_equal (λ m : gmap string ContentSyncService.CachedPlaylist,
                      is_Some (m !! "lobby"))) in Hempty.
    assert (Hs : is_Some (ContentSyncService.playlistStore
                            (ContentSyncService.cachePlaylist calm Scenario.lobby
                               Scenario.open_cache) !! "lobby"))
      by (vm_compute; eauto).
    rewrite Hempty in Hs. rewrite lookup_empty in Hs. by destruct Hs.
  - vm_compute in Hp. discriminate.
Qed.

(** C6, amended. [getFallbackPlaylist] answers with the bundled fallback
    document whenever that is available.  When it is not, and the playlist
    store can be read and holds at least one playlist, the answer is a
    cached playlist of the greatest cache timestamp, whichever playlist was
    asked for before.  The answer is [null] exactly when the bundled
    document is unavailable and the playlist store is empty or cannot be
    read; [loadFallbackContent] then sets the playback error and arms no
    timer, queues nothing and loads nothing. *)
Theorem getFallbackPlaylist_chain
    (e : ContentSyncService.env) (s : ContentSyncService.t) (pb : PlaybackService.t) :
  (∀ p, ContentSyncService.bundled e = Some p →
        ContentSyncService.getFallbackPlaylist e s = Some p)
  ∧ (ContentSyncService.bundled e = None →
     ContentSyncService.playlists_readable e s →
     ContentSyncService.playlistStore s ≠ ∅ →
     ∃ c, ContentSyncService.getFallbackPlaylist e s
          = Some (ContentSyncService.asPlaylist c)
          ∧ (∃ k, ContentSyncService.playlistStore s !! k = Some c)
          ∧ ∀ k c', ContentSyncService.playlistStore s !! k = Some c' →
                    ContentSyncService.cachedAt c' ≤ ContentSyncService.cachedAt c)
  ∧ (ContentSyncService.getFallbackPlaylist e s = None ↔
     ContentSyncService.bundled e = None
     ∧ (¬ ContentSyncService.playlists_readable e s
        ∨ ContentSyncService.playlistStore s = ∅))
  ∧ (let pb' := PlaybackService.loadFallbackContent None pb in
     PlaybackService.playbackError_ pb'
     = Some "No content available. Please check your connection or device configuration."
     ∧ PlaybackService.currentTransitionTimeout pb'
       = PlaybackService.currentTransitionTimeout pb
     ∧ PlaybackService.deferred pb' = PlaybackService.deferred pb
     ∧ PlaybackService.currentPlaylist pb' = PlaybackService.currentPlaylist pb
     ∧ PlaybackService.currentIndex pb' = PlaybackService.currentIndex pb).
Proof.
  assert (Hcached : ContentSyncService.bundled e = None →
     ContentSyncService.playlists_readable e s →
     ContentSyncService.getFallbackPlaylist e s
     = ContentSyncService.asPlaylist <$> head (ContentSyncService.playlistCursorPrev s)).
  { intros Hb (Hdb & Hinit & Hreq). unfold ContentSyncService.getFallbackPlaylist.
    by rewrite Hb, Hdb, Hinit, Hreq. }
  split; [|split; [|split]].
  - intros p Hb. unfold ContentSyncService.getFallbackPlaylist. by rewrite Hb.
  - intros Hb Hread Hne. rewrite (Hcached Hb Hread).
    pose proof (playlistCursorPrev_head s) as Hhead.
    destruct (head (ContentSyncService.playlistCursorPrev s)) as [c|]; [|done].
    exists c. destruct Hhead as [Hk Hmax]. done.
  - split.
    + intros Hnone.
      destruct (ContentSyncService.bundled e) as [p|] eqn:Hb.
      { unfold ContentSyncService.getFallbackPlaylist in Hnone. by rewrite Hb in Hnone. }
      split; [done|].
      destruct (ContentSyncService.db s) eqn:Hdb;
        [|left; intros (Hd & _); congruence].
      destruct (ContentSyncService.ensureInitialized s) as [[|]|] eqn:Hinit;
        [|left; intros (_ & Hi & _); congruence..].
      destruct (ContentSyncService.playlists e) eqn:Hreq;
        [|left; intros (_ & _ & Hr); congruence..].
      right. rewrite Hcached in Hnone by done.
      pose proof (playlistCursorPrev_head s) as Hhead.
      by destruct (head (ContentSyncService.playlistCursorPrev s)).
    + intros [Hb [Hnot|Hempty]].
      * unfold ContentSyncService.getFallbackPlaylist. rewrite Hb.
        destruct (ContentSyncService.db s) eqn:Hdb; [|done]. cbn [negb].
        destruct (ContentSyncService.ensureInitialized s) as [[|]|] eqn:Hinit; try done.
        destruct (ContentSyncService.playlists e) eqn:Hreq; try done.
        exfalso. apply Hnot. done.
      * unfold ContentSyncService.getFallbackPlaylist. rewrite Hb.
        destruct (ContentSyncService.db s) eqn:Hdb; [|done]. cbn [negb].
        destruct (ContentSyncService.ensureInitialized s) as [[|]|] eqn:Hinit; try done.
        destruct (ContentSyncService.playlists e) eqn:Hreq; try done.
        unfold ContentSyncService.playlistCursorPrev. rewrite Hempty.
        by rewrite map_to_list_empty.
  - cbn. done.
Qed.

(** ** Resolving an address *)
Section resolve.
Import JS ContentSyncService.

(** [retry(2)] gives up exactly when three requests in a row fail. *)
Lemma retry_2_None {A} (source : nat → option A) :
  retry 2 0 source = None ↔
  source 0%nat = None ∧ source 1%nat = None ∧ source 2%nat = None.
Proof.
  cbn. destruct (source 0%nat), (source 1%nat), (source 2%nat);
    split; first [done | intros (? & ? & ?); done].
Qed.

(** A download ends with the new handle, or with the address itself. *)
Lemma download_emits (e : env) (originalUrl : string) (s : t) :
  truthy_str originalUrl = true →
  match retry 2 0 (http_get e), createObjectURL e with
  | Some _, Some handle => (download e originalUrl s).1 = [Next handle; Complete]
  | _, _ => (download e originalUrl s).1 = [Next originalUrl; Complete]
  end.
Proof.
  intros Ht. unfold download, downloadContent. rewrite Ht. cbn [negb].
  destruct (retry 2 0 (http_get e)); [|done].
  by destruct (createObjectURL e).
Qed.

End resolve.

(** C3. For every address string, [getLocalContentUrl] notifies its
    subscriber of exactly one value and then completes, and never of an
    error.  The empty address is emitted as it is.  The value is the
    original address whenever the database is unavailable and, when no live
    handle is tracked for the address, whenever the store cannot be read,
    [URL.createObjectURL] throws, or nothing with bytes is stored and the
    download fails three times in a row; any other value is the tracked
    handle or the handle just created. *)
Theorem getLocalContentUrl_never_fails
    (e : ContentSyncService.env) (originalUrl : string) (s : ContentSyncService.t) :
  let out := (ContentSyncService.getLocalContentUrl e originalUrl s).1 in
  let original := [JS.Next originalUrl; JS.Complete] in
  (∃ v, out = [JS.Next v; JS.Complete]
        ∧ (v = originalUrl
           ∨ ContentSyncService.blobCache s !! originalUrl = Some v
           ∨ ContentSyncService.createObjectURL e = Some v))
  ∧ (originalUrl = "" → out = original)
  ∧ (ContentSyncService.ensureInitialized s ≠ JS.Resolved true
     ∨ ContentSyncService.db s = false → out = original)
  ∧ (ContentSyncService.blobCache s !! originalUrl = None →
     ContentSyncService.read e ≠ ContentSyncService.Succeeds
     ∨ ContentSyncService.createObjectURL e = None
     ∨ ((∀ c, ContentSyncService.contentStore s !! originalUrl = Some c →
              ContentSyncService.blob c = None)
        ∧ (∀ n, (n < 3)%nat → ContentSyncService.http_get e n = None)) →
     out = original).
Proof.
  cbv zeta. unfold ContentSyncService.getLocalContentUrl, ContentSyncService.fallBack.
  destruct (JS.truthy_str originalUrl) eqn:Ht; cbn [negb].
  2:{ assert (originalUrl = "") as ->.
      { unfold JS.truthy_str in Ht. apply negb_false_iff in Ht.
        by apply String.eqb_eq in Ht. }
      cbn. repeat split; eauto. }
  assert (Hne : originalUrl ≠ "") by (by apply truthy_str_true).
  pose proof (download_emits e originalUrl s Ht) as Hdl.
  assert (Hretry : (∀ n, (n < 3)%nat → ContentSyncService.http_get e n = None) →
                   ContentSyncService.retry 2 0 (ContentSyncService.http_get e) = None).
  { intros Hall. apply retry_2_None. repeat split; apply Hall; lia. }
  destruct (ContentSyncService.ensureInitialized s) as [[|]|]; cbn [negb orb fst];
    [|repeat split; eauto; done..].
  destruct (ContentSyncService.db s); cbn [negb orb fst];
    [|repeat split; eauto; done].
  destruct (ContentSyncService.blobCache s !! originalUrl) as [handle|] eqn:Hblob;
    cbn [fst].
  { repeat split; eauto; try done. intros [?|?]; done. }
  destruct (ContentSyncService.read e) eqn:Hread; cbn [fst];
    [|repeat split; eauto; done..].
  assert (Hdl' : ∃ v, (ContentSyncService.download e originalUrl s).1
                      = [JS.Next v; JS.Complete]
                      ∧ (v = originalUrl ∨ ContentSyncService.createObjectURL e = Some v)
                      ∧ (ContentSyncService.createObjectURL e = None → v = originalUrl)
                      ∧ (ContentSyncService.retry 2 0 (ContentSyncService.http_get e) = None
                         → v = originalUrl)).
  { destruct (ContentSyncService.retry 2 0 (ContentSyncService.http_get e));
      destruct (ContentSyncService.createObjectURL e) as [h|];
      [exists h|exists originalUrl..]; (split; [exact Hdl|]);
      repeat split; intros; first [done | left; done | right; done]. }
  destruct Hdl' as (v & Hv & Hcase & Hc & Hr).
  destruct (ContentSyncService.contentStore s !! originalUrl) as [c|] eqn:Hstore.
  - destruct (ContentSyncService.blob c) as [b|] eqn:Hb.
    + destruct (ContentSyncService.createObjectURL e) as [h|] eqn:Hcreate; cbn [fst].
      * repeat split; eauto; try done.
        -- intros [?|?]; done.
        -- intros _ [?|[?|[Hno _]]]; try done. specialize (Hno c eq_refl). congruence.
      * repeat split; eauto; done.
    + rewrite Hv. repeat split.
      * exists v. split; [done|]. destruct Hcase; eauto.
      * done.
      * intros [?|?]; done.
      * intros _ [?|[?|[_ Hall]]]; [done|by rewrite Hc|by rewrite Hr; auto].
  - rewrite Hv. repeat split.
    * exists v. split; [done|]. destruct Hcase; eauto.
    * done.
    * intros [?|?]; done.
    * intros _ [?|[?|[_ Hall]]]; [done|by rewrite Hc|by rewrite Hr; auto].
Qed.

(** ** Eviction *)
Section eviction.
Import JS ContentSyncService.

Lemma totalSize_cons (c : CachedContent) (l : list CachedContent) :
  totalSize (c :: l) = size c + totalSize l.
Proof.
  unfold totalSize. cbn [foldl].
  assert (H : ∀ l a, foldl (λ total item, total + size item) a l
                     = a + foldl (λ total item, total + size item) 0 l).
  { clear. induction l as [|x l IH]; intros a; cbn [foldl]; [lia|].
    rewrite (IH (a + size x)), (IH (0 + size x)). lia. }
  rewrite H. lia.
Qed.

Lemma evict_spec (c : CachedContent) (s : t) :
  effects (evict c s) = effects s ++ evict_effects c
  ∧ contentStore (evict c s) = delete (url c) (contentStore s)
  ∧ blobCache (evict c s) = delete (url c) (blobCache s)
  ∧ cacheSizeBytes (evict c s) = cacheSizeBytes s.
Proof.
  unfold evict, evict_effects.
  destruct (isBlobUrl (localUrl c)); cbn; rewrite <- ?app_assoc; done.
Qed.

(** The cursor walk removes a prefix of the records it is given: it goes
    on while the tracked size less the removed bytes exceeds the target
    and stops at the first record for which it does not. *)
Lemma trimCursor_spec (cursor : list CachedContent) (d : Z) (s : t) :
  ∃ removed kept,
    cursor = removed ++ kept
    ∧ effects (trimCursor cursor d s) = effects s ++ flat_map evict_effects removed
    ∧ contentStore (trimCursor cursor d s)
      = foldl (λ m c, delete (url c) m) (contentStore s) removed
    ∧ blobCache (trimCursor cursor d s)
      = foldl (λ m c, delete (url c) m) (blobCache s) removed
    ∧ cacheSizeBytes (trimCursor cursor d s)
      = cacheSizeBytes s - d - totalSize removed
    ∧ (kept ≠ [] → cacheSizeBytes s - d - totalSize removed ≤ targetSize)
    ∧ (∀ pre x post, removed = pre ++ x :: post →
                     cacheSizeBytes s - d - totalSize pre > targetSize).
Proof.
  revert d s. induction cursor as [|c rest IH]; intros d s; cbn [trimCursor].
  - exists [], []. cbn. rewrite app_nil_r. repeat split; try done; try lia.
    intros [|??] ?? Heq; discriminate.
  - destruct (Z.gtb_spec (cacheSizeBytes s - d) targetSize) as [Hgt|Hle].
    + destruct (IH (d + size c) (evict c s))
        as (removed & kept & -> & Heff & Hstore & Hblob & Hsize & Hstop & Hneed).
      destruct (evict_spec c s) as (Ee & Es & Eb & Ec).
      exists (c :: removed), kept. cbn [flat_map foldl].
      rewrite totalSize_cons.
      repeat split.
      * rewrite Heff, Ee, <- app_assoc. done.
      * by rewrite Hstore, Es.
      * by rewrite Hblob, Eb.
      * rewrite Hsize, Ec. lia.
      * intros Hk. specialize (Hstop Hk). rewrite Ec in Hstop. lia.
      * intros [|p pre] x post Heq.
        -- cbn. lia.
        -- injection Heq as -> Heq. rewrite totalSize_cons.
           specialize (Hneed pre x post Heq). rewrite Ec in Hneed. lia.
    + exists [], (c :: rest). cbn. rewrite app_nil_r.
      repeat split; try done; try lia.
      intros [|??] ?? Heq; discriminate.
Qed.

Lemma foldl_delete_lookup {V} (f : CachedContent → string) (l : list CachedContent)
    (m : gmap string V) (k : string) :
  foldl (λ m c, delete (f c) m) m l !! k
  = if decide (k ∈ f <$> l) then None else m !! k.
Proof.
  revert m. induction l as [|c l IH]; intros m; cbn [foldl].
  - rewrite fmap_nil. case_decide as H; [by apply elem_of_nil in H|done].
  - rewrite IH, fmap_cons. destruct (decide (k = f c)) as [->|Hne].
    + rewrite lookup_delete_eq.
      destruct (decide (f c ∈ f <$> l)); destruct (decide (f c ∈ f c :: (f <$> l)))
        as [|Hn]; try done; exfalso; apply Hn; by left.
    + rewrite lookup_delete_ne by done.
      destruct (decide (k ∈ f <$> l)) as [H1|H1];
        destruct (decide (k ∈ f c :: (f <$> l))) as [H2|H2]; try done.
      * exfalso. apply H2. by right.
      * apply elem_of_cons in H2 as [?|?]; done.
Qed.

(** The records a cursor over the content index visits are the records of
    the store, each once, by ascending timestamp. *)
Lemma contentCursor_elem (s : t) (c : CachedContent) :
  c ∈ contentCursor s ↔ ∃ k, contentStore s !! k = Some c.
Proof.
  unfold contentCursor. rewrite merge_sort_Permutation, list_elem_of_fmap. split.
  - intros ([k c'] & -> & Hin). exists k. by apply elem_of_map_to_list.
  - intros (k & Hk). exists (k, c). split; [done|]. by apply elem_of_map_to_list.
Qed.

Lemma contentCursor_NoDup (s : t) : keyed_by_url s → NoDup (contentCursor s).
Proof.
  intros Hkey. unfold contentCursor. rewrite merge_sort_Permutation.
  apply NoDup_fmap_2_strong; [|apply NoDup_map_to_list].
  intros [k1 c1] [k2 c2] H1 H2 Heq. cbn in Heq. subst c2.
  apply elem_of_map_to_list in H1, H2.
  by rewrite <- (Hkey _ _ H1), <- (Hkey _ _ H2).
Qed.

Lemma contentCursor_oldest_first (s : t) (older newer : list CachedContent) :
  contentCursor s = older ++ newer →
  ∀ r k, r ∈ older → k ∈ newer → timestamp r ≤ timestamp k.
Proof.
  intros Hsplit r k Hr Hk.
  pose proof (StronglySorted_merge_sort content_le (map_to_list (contentStore s)).*2)
    as Hsorted.
  fold (contentCursor s) in Hsorted. rewrite Hsplit in Hsorted.
  pose proof (StronglySorted_app_1_elem_of _ _ _ r k Hsorted Hr Hk) as Hle.
  unfold content_le in Hle. apply Is_true_true in Hle.
  by apply index_leb_fst in Hle.
Qed.

Lemma storeContent_put_keyed (e : env) (address handle : string) (b : Blob) (s : t) :
  keyed_by_url s → keyed_by_url (storeContent_put e address handle b s).
Proof.
  intros Hkey k c. unfold storeContent_put. cbn.
  destruct (decide (address = k)) as [->|Hne].
  - rewrite lookup_insert_eq. by intros [= <-].
  - rewrite lookup_insert_ne by done. apply Hkey.
Qed.

End eviction.

(** C4. Whenever a store that succeeds lifts the running size above
    [MAX_CACHE_SIZE] (and the eviction can read the index), the eviction
    removes a prefix of the records in oldest-first order of their
    timestamps, so no removed record is newer than a record that stays; it
    goes on exactly while the tracked size that remains exceeds 70% of the
    budget, hence stops at the first record at which the remainder is at
    most that target, or when no record is left; the store afterwards holds
    exactly the records not removed, the running size is reduced by the
    bytes removed, and each removal revokes the record's blob handle and
    forgets the tracked handle in the same callback that deletes the
    record. *)
Theorem storeContent_evicts_oldest
    (e : ContentSyncService.env) (address handle : string)
    (b : ContentSyncService.Blob) (s : ContentSyncService.t) :
  ContentSyncService.db s = true →
  ContentSyncService.keyed_by_url s →
  ContentSyncService.store e = ContentSyncService.Succeeds →
  ContentSyncService.trim e = ContentSyncService.Succeeds →
  ContentSyncService.cacheSizeBytes s + ContentSyncService.blob_size b
    > ContentSyncService.MAX_CACHE_SIZE →
  let stored := ContentSyncService.storeContent_put e address handle b s in
  let tracked := ContentSyncService.cacheSizeBytes s + ContentSyncService.blob_size b in
  let s' := ContentSyncService.storeContent e address handle b s in
  ∃ removed kept,
    ContentSyncService.contentCursor stored = removed ++ kept
    ∧ (∀ r k, r ∈ removed → k ∈ kept →
              ContentSyncService.timestamp r ≤ ContentSyncService.timestamp k)
    ∧ (∀ c, (∃ k, ContentSyncService.contentStore s' !! k = Some c) ↔ c ∈ kept)
    ∧ ContentSyncService.cacheSizeBytes s'
      = tracked - ContentSyncService.totalSize removed
    ∧ (kept ≠ [] → ContentSyncService.cacheSizeBytes s' ≤ ContentSyncService.targetSize)
    ∧ (∀ pre x post, removed = pre ++ x :: post →
         tracked - ContentSyncService.totalSize pre > ContentSyncService.targetSize)
    ∧ ContentSyncService.effects s'
      = ContentSyncService.effects stored
        ++ flat_map ContentSyncService.evict_effects removed
    ∧ (∀ r, r ∈ removed →
         ContentSyncService.blobCache s' !! ContentSyncService.url r = None
         ∧ (ContentSyncService.isBlobUrl (ContentSyncService.localUrl r) = true →
            ContentSyncService.RevokeObjectURL (ContentSyncService.localUrl r)
            ∈ ContentSyncService.evict_effects r)).
Proof.
  intros Hdb Hkey Hstore Htrim Hover stored tracked s'.
  set (sized := ContentSyncService.set_cacheSizeBytes tracked stored).
  assert (Hs' : s' = ContentSyncService.trimCursor
                       (ContentSyncService.contentCursor stored) 0 sized).
  { subst s'. unfold ContentSyncService.storeContent,
      ContentSyncService.storeContent_oncomplete.
    rewrite Hdb, Hstore. cbn [negb]. fold stored.
    change (ContentSyncService.cacheSizeBytes stored)
      with (ContentSyncService.cacheSizeBytes s).
    fold tracked. fold sized.
    change (ContentSyncService.cacheSizeBytes sized) with tracked.
    destruct (Z.gtb_spec tracked ContentSyncService.MAX_CACHE_SIZE) as [_|Hle];
      [|subst tracked; lia].
    unfold ContentSyncService.trimCache.
    change (ContentSyncService.db sized) with (ContentSyncService.db s).
    rewrite Hdb, Htrim. reflexivity. }
  destruct (trimCursor_spec (ContentSyncService.contentCursor stored) 0 sized)
    as (removed & kept & Hsplit & Heff & Hst & Hblob & Hsize & Hstop & Hneed).
  rewrite <- Hs' in Heff, Hst, Hblob, Hsize.
  change (ContentSyncService.cacheSizeBytes sized) with tracked in *.
  exists removed, kept.
  pose proof (contentCursor_NoDup stored
                (storeContent_put_keyed e address handle b s Hkey)) as Hnodup.
  rewrite Hsplit in Hnodup. apply NoDup_app in Hnodup as (_ & Hdisj & _).
  assert (Hkeyed : ContentSyncService.keyed_by_url stored)
    by (by apply storeContent_put_keyed).
  split; [done|]. split; [by apply (contentCursor_oldest_first stored)|].
  split.
  { intros c. rewrite Hst. split.
    - intros (k & Hk). rewrite foldl_delete_lookup in Hk.
      case_decide as Hin; [done|].
      change (ContentSyncService.contentStore sized)
        with (ContentSyncService.contentStore stored) in Hk.
      assert (Hc : c ∈ ContentSyncService.contentCursor stored)
        by (apply contentCursor_elem; eauto).
      rewrite Hsplit in Hc. apply elem_of_app in Hc as [Hc|Hc]; [|done].
      exfalso. apply Hin. apply list_elem_of_fmap. exists c.
      split; [|done]. symmetry. by apply Hkeyed.
    - intros Hc.
      assert (Hin : c ∈ ContentSyncService.contentCursor stored)
        by (rewrite Hsplit; apply elem_of_app; by right).
      apply contentCursor_elem in Hin as (k & Hk).
      exists k. rewrite foldl_delete_lookup.
      change (ContentSyncService.contentStore sized)
        with (ContentSyncService.contentStore stored).
      rewrite decide_False; [done|].
      intros Hmem. apply list_elem_of_fmap in Hmem as (r & Hr & Hrin).
      assert (Hrc : r ∈ ContentSyncService.contentCursor stored)
        by (rewrite Hsplit; apply elem_of_app; by left).
      apply contentCursor_elem in Hrc as (k' & Hk').
      pose proof (Hkeyed _ _ Hk') as Hu. rewrite <- Hr in Hu. subst k'.
      rewrite Hk in Hk'. injection Hk' as ->.
      by apply (Hdisj r). }
  split; [rewrite Hsize; lia|].
  split; [intros Hk; rewrite Hsize; specialize (Hstop Hk); lia|].
  split; [intros pre x post Heq; specialize (Hneed pre x post Heq); lia|].
  split; [done|].
  intros r Hr. split.
  - rewrite Hblob, foldl_delete_lookup. rewrite decide_True; [done|].
    apply list_elem_of_fmap. eauto.
  - intros Hb. unfold ContentSyncService.evict_effects. rewrite Hb.
    set_solver.
Qed.

(** ** The theorems at concrete inputs *)

(** On Monday at 09:00 sharp the office-hours rule, 09:00 to 17:00 on
    Mondays, matches. *)
Lemma checkSchedule_matches_inclusive_witness :
  ScheduleService.isActiveDay (Scenario.monday 9 0) Scenario.office_hours
  && ScheduleService.isActiveTime (Scenario.monday 9 0) Scenario.office_hours = true.
Proof.
  destruct (checkSchedule_matches_inclusive (Scenario.monday 9 0)
              Scenario.office_hours 9 0 17 0) as (_ & Hstart & _).
  - cbn; lia.
  - cbn; lia.
  - reflexivity.
  - lia.
  - lia.
  - reflexivity.
  - lia.
  - lia.
  - apply Hstart.
    + cbn. apply list_elem_of_here.
    + reflexivity.
    + unfold JS.minuteOfDay. lia.
Defined.

(** From the first slide of the three-slide lobby playlist, a skip arrives
    at the second. *)
Lemma skipToNext_advances_modulo_witness :
  PlaybackService.currentIndex
    (PlaybackService.settle
       (PlaybackService.transitionTimeout
          (PlaybackService.skipToNext Scenario.playing_lobby)))
  = PlaybackService.Idx 1.
Proof.
  destruct (skipToNext_advances_modulo Scenario.playing_lobby Scenario.lobby 0)
    as (_ & _ & _ & Hindex & _).
  - reflexivity.
  - discriminate.
  - reflexivity.
  - exact Hindex.
Defined.

(** The first slide of the lobby playlist fades for zero seconds: the skip
    waits 500 ms. *)
Lemma skipToNext_delay_witness :
  PlaybackService.currentTransitionTimeout
    (PlaybackService.skipToNext Scenario.playing_lobby) = Some 500%float.
Proof.
  pose proof (skipToNext_delay Scenario.playing_lobby Scenario.lobby
                Scenario.instant_fade eq_refl ltac:(discriminate) eq_refl) as Hdelay.
  exact Hdelay.
Defined.

(** The lobby playlist, cached at time 1000, is read back as it was. *)
Lemma cachePlaylist_getCachedPlaylist_roundtrip_witness :
  let weather := Scenario.fair_weather 1000 "blob:1" (Scenario.blob_of 1) in
  ∃ c, ContentSyncService.getCachedPlaylist weather "lobby"
         (ContentSyncService.cachePlaylist weather Scenario.lobby Scenario.open_cache)
       = Some c
       ∧ ContentSyncService.asPlaylist c = Scenario.lobby.
Proof.
  cbv zeta.
  destruct (cachePlaylist_getCachedPlaylist_roundtrip
              (Scenario.fair_weather 1000 "blob:1" (Scenario.blob_of 1))
              Scenario.lobby Scenario.open_cache)
    as [(c & Hc & Hp & _) _].
  - repeat split.
  - discriminate.
  - exists c. split; [exact Hc|exact Hp].
Defined.

(** Storing 150 MB next to two videos of 200 MB each lifts the running
    size to 550 MB; the video stored first is evicted and 350 MB remain. *)
Lemma storeContent_evicts_oldest_witness :
  let weather := Scenario.fair_weather 30 "blob:new" (Scenario.blob_of 150000000) in
  let s' := ContentSyncService.storeContent weather "https://cdn.example/new.mp4"
              "blob:new" (Scenario.blob_of 150000000) Scenario.crowded_cache in
  ∃ removed kept,
    ContentSyncService.contentCursor
      (ContentSyncService.storeContent_put weather "https://cdn.example/new.mp4"
         "blob:new" (Scenario.blob_of 150000000) Scenario.crowded_cache)
    = removed ++ kept
    ∧ ContentSyncService.cacheSizeBytes s'
      = 550000000 - ContentSyncService.totalSize removed
    ∧ (kept ≠ [] →
       ContentSyncService.cacheSizeBytes s' ≤ ContentSyncService.targetSize).
Proof.
  cbv zeta.
  destruct (storeContent_evicts_oldest
              (Scenario.fair_weather 30 "blob:new" (Scenario.blob_of 150000000))
              "https://cdn.example/new.mp4" "blob:new"
              (Scenario.blob_of 150000000) Scenario.crowded_cache)
    as (removed & kept & Hsplit & _ & _ & Hsize & Hstop & _).
  - reflexivity.
  - apply (bool_decide_unpack
             (map_Forall (λ k c, ContentSyncService.url c = k)
                (ContentSyncService.contentStore Scenario.crowded_cache))).
    vm_compute. exact I.
  - reflexivity.
  - reflexivity.
  - vm_compute. reflexivity.
  - exists removed, kept. split; [exact Hsplit|]. split; [exact Hsize|exact Hstop].
Defined.

(** What the eviction of the crowded cache comes to. *)
Example crowded_cache_eviction_run :
  let weather := Scenario.fair_weather 30 "blob:new" (Scenario.blob_of 150000000) in
  let s' := ContentSyncService.storeContent weather "https://cdn.example/new.mp4"
              "blob:new" (Scenario.blob_of 150000000) Scenario.crowded_cache in
  ContentSyncService.cacheSizeBytes s' = 350000000
  ∧ ContentSyncService.url <$> ContentSyncService.contentCursor s'
    = ["https://cdn.example/mid.mp4"; "https://cdn.example/new.mp4"]
  ∧ ContentSyncService.effects s'
    = [ContentSyncService.StorePut "https://cdn.example/new.mp4";
       ContentSyncService.StoreDelete "https://cdn.example/old.mp4";
       ContentSyncService.RevokeObjectURL "blob:old";
       ContentSyncService.BlobCacheDelete "https://cdn.example/old.mp4"].
Proof. vm_compute. repeat split; reflexivity. Qed.

(** ** Runs of the model *)

(** The resolver example of the specification: office hours (priority 1,
    Mondays) over an all-day rule (priority 5). *)
Example resolver_monday_1000 :
  ScheduleService.highestPrioritySchedule (Scenario.monday 10 0)
    [Scenario.office_hours; Scenario.all_day] = Some Scenario.office_hours
  ∧ PlaybackService.activeSchedule (Scenario.monday 10 0)
      [Scenario.office_hours; Scenario.all_day] = Some Scenario.office_hours.
Proof. vm_compute. split; reflexivity. Qed.

Example resolver_tuesday_1000 :
  ScheduleService.highestPrioritySchedule (Scenario.tuesday 10 0)
    [Scenario.office_hours; Scenario.all_day] = Some Scenario.all_day
  ∧ PlaybackService.activeSchedule (Scenario.tuesday 10 0)
      [Scenario.office_hours; Scenario.all_day] = Some Scenario.all_day.
Proof. vm_compute. split; reflexivity. Qed.

Example resolver_monday_0859 :
  ScheduleService.highestPrioritySchedule (Scenario.monday 8 59)
    [Scenario.office_hours; Scenario.all_day] = Some Scenario.all_day
  ∧ PlaybackService.activeSchedule (Scenario.monday 8 59)
      [Scenario.office_hours; Scenario.all_day] = Some Scenario.all_day.
Proof. vm_compute. split; reflexivity. Qed.

(** The rule is active at the last minute of its range and no longer one
    minute later. *)
Example office_hours_end_minute :
  ScheduleService.matches (Scenario.monday 17 0) Scenario.office_hours = true
  ∧ ScheduleService.matches (Scenario.monday 17 1) Scenario.office_hours = false.
Proof. vm_compute. split; reflexivity. Qed.

(** A rule whose priority is not below [Number.MAX_SAFE_INTEGER] matches
    but is never taken by [checkSchedule]. *)
Example checkSchedule_priority_ceiling :
  let rule := {| ScreenModel.playlist_id := "P9"; ScreenModel.start_time := "00:00";
                 ScreenModel.end_time := "23:59";
                 ScreenModel.priority := JS.MAX_SAFE_INTEGER;
                 ScreenModel.days_of_week := None |} in
  ScheduleService.matches (Scenario.monday 10 0) rule = true
  ∧ ScheduleService.highestPrioritySchedule (Scenario.monday 10 0) [rule] = None.
Proof. vm_compute. split; reflexivity. Qed.

(** [MAX_CACHE_SIZE * 0.7] is the integer [targetSize], in binary64 too. *)
Example targetSize_exact :
  ContentSyncService.targetSize = 367001600
  ∧ PrimFloat.eqb (524288000 * 0.7)%float 367001600%float = true.
Proof. vm_compute. split; reflexivity. Qed.

(** From the last slide of the lobby playlist a skip wraps to the first. *)
Example skipToNext_wraps :
  let twice := PlaybackService.settle (PlaybackService.transitionTimeout
                 (PlaybackService.skipToNext
                    (PlaybackService.settle (PlaybackService.transitionTimeout
                       (PlaybackService.skipToNext Scenario.playing_lobby))))) in
  let thrice := PlaybackService.settle (PlaybackService.transitionTimeout
                  (PlaybackService.skipToNext twice)) in
  PlaybackService.currentIndex twice = PlaybackService.Idx 2
  ∧ PlaybackService.currentIndex thrice = PlaybackService.Idx 0
  ∧ PlaybackService.currentItem_ thrice = Some Scenario.instant_fade.
Proof. vm_compute. repeat split; reflexivity. Qed.

(** An address that is not cached is downloaded and answered with the new
    handle; when the three requests fail it is answered with itself; a
    [null] argument is answered with the empty string. *)
Example getLocalContentUrl_runs :
  let calm := Scenario.fair_weather 30 "blob:7" (Scenario.blob_of 1000) in
  let offline :=
    {| ContentSyncService.read := ContentSyncService.Succeeds;
       ContentSyncService.update := ContentSyncService.Succeeds;
       ContentSyncService.store := ContentSyncService.Succeeds;
       ContentSyncService.trim := ContentSyncService.Succeeds;
       ContentSyncService.playlists := ContentSyncService.Succeeds;
       ContentSyncService.createObjectURL := Some "blob:7";
       ContentSyncService.http_get := λ _, None;
       ContentSyncService.bundled := None;
       ContentSyncService.now := 30 |} in
  (ContentSyncService.getLocalContentUrl calm "https://cdn.example/a.png"
     Scenario.open_cache).1 = [JS.Next "blob:7"; JS.Complete]
  ∧ (ContentSyncService.getLocalContentUrl offline "https://cdn.example/a.png"
       Scenario.open_cache).1 = [JS.Next "https://cdn.example/a.png"; JS.Complete]
  ∧ (ContentSyncService.getLocalContentUrl calm "https://cdn.example/old.mp4"
       Scenario.crowded_cache).1 = [JS.Next "blob:old"; JS.Complete]
  ∧ (ContentSyncService.getLocalContentUrl_any calm None Scenario.open_cache).1
    = [JS.Next ""; JS.Complete].
Proof. vm_compute. repeat split; reflexivity. Qed.

(** With two playlists cached and no bundled file, the fallback is the one
    cached last, whichever was cached first. *)
Example getFallbackPlaylist_newest :
  let at_ clock := Scenario.fair_weather clock "blob:1" (Scenario.blob_of 1) in
  let cache := ContentSyncService.cachePlaylist (at_ 2000) Scenario.no_items
                 (ContentSyncService.cachePlaylist (at_ 1000) Scenario.lobby
                    Scenario.open_cache) in
  let cache' := ContentSyncService.cachePlaylist (at_ 2000) Scenario.lobby
                  (ContentSyncService.cachePlaylist (at_ 1000) Scenario.no_items
                     Scenario.open_cache) in
  ContentSyncService.getFallbackPlaylist (at_ 3000) cache = Some Scenario.no_items
  ∧ ContentSyncService.getFallbackPlaylist (at_ 3000) cache' = Some Scenario.lobby.
Proof. vm_compute. split; reflexivity. Qed.

(** Two active rules that agree in priority and start time: the sort of
    [startPlayback] keeps them in array order, so the first one is found. *)
Example startPlayback_full_tie :
  let morning id until :=
    {| ScreenModel.playlist_id := id; ScreenModel.start_time := "09:00";
       ScreenModel.end_time := until; ScreenModel.priority := 1;
       ScreenModel.days_of_week := None |} in
  ScreenModel.playlist_id <$>
    PlaybackService.activeSchedule (Scenario.monday 10 0)
      [morning "X" "12:00"; morning "Y" "13:00"; morning "Z" "11:00"] = Some "X"
  ∧ ScreenModel.playlist_id <$>
      PlaybackService.activeSchedule (Scenario.monday 10 0)
        [morning "Z" "11:00"; morning "Y" "13:00"; morning "X" "12:00"] = Some "Z".
Proof. vm_compute. split; reflexivity. Qed.


(* ================================================================== *)
(** * Part III: the rest of the services *)
(* ================================================================== *)

(** ** The two resolvers side by side *)
Section resolvers.
Import JS ScreenModel.




End resolvers.

(** X1. When the matching rules have pairwise different priorities, all
    below [Number.MAX_SAFE_INTEGER], the sort-and-find of [startPlayback]
    and the loop of [checkSchedule] select the same rule, and none for the
    same inputs. *)
Theorem resolvers_agree_without_ties
    (now : JS.Date) (rules : list ScreenModel.ScheduleItem) :
  (∀ r, r ∈ rules → ScheduleService.matches now r = true →
        ScreenModel.priority r < JS.MAX_SAFE_INTEGER) →
  (∀ r r', r ∈ rules → r' ∈ rules →
           ScheduleService.matches now r = true →
           ScheduleService.matches now r' = true →
           ScreenModel.priority r = ScreenModel.priority r' → r = r') →
  PlaybackService.activeSchedule now rules
  = ScheduleService.highestPrioritySchedule now rules.
Proof.
  intros Hceil Hdistinct.
  pose proof (highestPrioritySchedule_first now rules) as Hcheck.
  pose proof (activeSchedule_least now rules) as Hstart.
  destruct (ScheduleService.highestPrioritySchedule now rules) as [b1|];
    destruct (PlaybackService.activeSchedule now rules) as [b2|]; try done.
  - destruct Hcheck as (l1 & l2 & Hsplit & Hm1 & _ & Hbefore & Hafter).
    destruct Hstart as (Hin2 & Hact2 & Hleast).
    rewrite startPlayback_isActive_matches in Hact2.
    assert (Hin1 : b1 ∈ rules)
      by (rewrite Hsplit; apply elem_of_app; right; apply list_elem_of_here).
    f_equal. apply Hdistinct; try done.
    specialize (Hleast b1 Hin1). rewrite startPlayback_isActive_matches in Hleast.
    specialize (Hleast Hm1).
    rewrite Hsplit in Hin2. apply elem_of_app in Hin2 as [Hin2|Hin2].
    + specialize (Hbefore b2 Hin2 Hact2). lia.
    + apply elem_of_cons in Hin2 as [->|Hin2]; [done|].
      specialize (Hafter b2 Hin2 Hact2). lia.
  - destruct Hcheck as (l1 & l2 & Hsplit & Hm1 & _).
    assert (Hin1 : b1 ∈ rules)
      by (rewrite Hsplit; apply elem_of_app; right; apply list_elem_of_here).
    specialize (Hstart b1 Hin1). rewrite startPlayback_isActive_matches in Hstart. congruence.
  - destruct Hstart as (Hin2 & Hact2 & _). rewrite startPlayback_isActive_matches in Hact2.
    specialize (Hcheck b2 Hin2 Hact2). specialize (Hceil b2 Hin2 Hact2). lia.
Qed.

(** On Monday at 10:00 office hours (priority 1) and the all-day rule
    (priority 5) both match; the two resolvers agree. *)
Lemma resolvers_agree_without_ties_witness :
  PlaybackService.activeSchedule (Scenario.monday 10 0)
    [Scenario.office_hours; Scenario.all_day]
  = ScheduleService.highestPrioritySchedule (Scenario.monday 10 0)
      [Scenario.office_hours; Scenario.all_day].
Proof.
  apply resolvers_agree_without_ties.
  - intros r Hr _.
    apply elem_of_cons in Hr as [->|Hr]; [vm_compute; reflexivity|].
    apply list_elem_of_singleton in Hr as ->. vm_compute. reflexivity.
  - intros r r' Hr Hr' _ _ Hp.
    apply elem_of_cons in Hr as [->|Hr];
      [|apply list_elem_of_singleton in Hr as ->];
      (apply elem_of_cons in Hr' as [->|Hr'];
       [|apply list_elem_of_singleton in Hr' as ->]);
      first [reflexivity | vm_compute in Hp; discriminate].
Defined.



(** ** What a schedule check leaves behind *)

(** X3. A check that finds rules on the screen record remembers the
    playlist of a matching rule of least priority when one matches with a
    priority below [Number.MAX_SAFE_INTEGER], and asks the server to record
    that playlist exactly when it reports a change; when no rule matches it
    asks nothing of the server and remembers the screen's own playlist,
    provided that is set. *)
Theorem checkSchedule_remembers
    (svc : ScheduleService.t) (dev : string) (now : JS.Date)
    (screen : ScreenModel.Screen) (rules : list ScreenModel.ScheduleItem) :
  ScheduleService.deviceId svc = Some dev → dev ≠ "" →
  ScheduleService.has_upcoming screen = Some rules →
  let result := ScheduleService.checkSchedule svc now (Some screen) in
  ((∃ r, r ∈ rules ∧ ScheduleService.matches now r = true
         ∧ ScreenModel.priority r < JS.MAX_SAFE_INTEGER) →
   ∃ best, best ∈ rules ∧ ScheduleService.matches now best = true
     ∧ (∀ r, r ∈ rules → ScheduleService.matches now r = true →
             ScreenModel.priority best ≤ ScreenModel.priority r)
     ∧ ScheduleService.currentPlaylistId (ScheduleService.after result)
       = Some (ScreenModel.playlist_id best)
     ∧ ScheduleService.updated result
       = (if ScheduleService.changed result
          then [ScreenModel.playlist_id best] else []))
  ∧ ((∀ r, r ∈ rules → ScheduleService.matches now r = false) →
     ScheduleService.updated result = []
     ∧ ∀ cp, ScreenModel.current_playlist screen = Some cp → cp ≠ "" →
             ScheduleService.currentPlaylistId (ScheduleService.after result)
             = Some cp).
Proof.
  intros Hdev Hne Hrules result. subst result.
  unfold ScheduleService.checkSchedule. rewrite Hdev, Hrules.
  apply truthy_str_true in Hne. rewrite Hne. cbn [negb].
  pose proof (highestPrioritySchedule_first now rules) as Hfirst.
  pose proof (highestPrioritySchedule_least now rules) as Hleast.
  destruct (ScheduleService.highestPrioritySchedule now rules) as [best|].
  - destruct (Hleast best eq_refl) as (Hin & Hm & Hmin). split.
    + intros _. exists best. repeat split; try done.
      * case_bool_decide as Hc; cbn; [done|].
        destruct (decide (Some (ScreenModel.playlist_id best)
                          = ScheduleService.currentPlaylistId svc)) as [Heq|Hneq];
          [by rewrite Heq|by destruct Hc].
      * by case_bool_decide.
    + intros Hnone. rewrite (Hnone best Hin) in Hm. discriminate.
  - split.
    + intros (r & Hin & Hm & Hlt). specialize (Hfirst r Hin Hm). lia.
    + intros _. split.
      * destruct (ScreenModel.current_playlist screen) as [cp|]; [|done].
        by destruct (JS.truthy_str cp && _).
      * intros cp -> Hcp. apply truthy_str_true in Hcp. rewrite Hcp. cbn [andb].
        case_bool_decide as Hc; cbn; [done|].
        destruct (decide (ScheduleService.currentPlaylistId svc = Some cp))
          as [Heq|Hneq]; [done|by destruct Hc].
Qed.

(** On Monday at 10:00 office hours match: the fresh service remembers
    "P1". *)
Lemma checkSchedule_remembers_witness :
  ∃ best, best ∈ [Scenario.office_hours]
    ∧ ScheduleService.currentPlaylistId
        (ScheduleService.after
           (ScheduleService.checkSchedule Scenario.fresh_schedule_service
              (Scenario.monday 10 0) (Some Scenario.office_screen)))
      = Some (ScreenModel.playlist_id best).
Proof.
  destruct (checkSchedule_remembers Scenario.fresh_schedule_service "screen-1"
              (Scenario.monday 10 0) Scenario.office_screen [Scenario.office_hours]
              eq_refl ltac:(discriminate) eq_refl) as [Hsome _].
  destruct Hsome as (best & Hin & _ & _ & Hid & _).
  - exists Scenario.office_hours. split; [apply list_elem_of_here|].
    split; vm_compute; reflexivity.
  - exists best. split; [exact Hin|exact Hid].
Defined.

(** X4. Once the server has applied the update that a schedule-driven
    change asks for, the screen's own playlist is the scheduled one: a
    later check at which no rule matches reports no change and the
    service stays on the playlist of the rule that has ended. *)
Theorem checkSchedule_never_reverts
    (svc : ScheduleService.t) (now later : JS.Date)
    (screen : ScreenModel.Screen) (rules : list ScreenModel.ScheduleItem) :
  ScheduleService.has_upcoming screen = Some rules →
  ScheduleService.changed
    (ScheduleService.checkSchedule svc now (Some screen)) = true →
  is_Some (ScheduleService.highestPrioritySchedule now rules) →
  (∀ r, r ∈ rules → ScheduleService.matches later r = false) →
  let first := ScheduleService.checkSchedule svc now (Some screen) in
  let row := foldl (λ row id,
                      ScheduleService.updateCurrentPlaylist
                        (ScheduleService.after first) id row)
                   screen (ScheduleService.updated first) in
  ScreenModel.current_playlist row
  = ScheduleService.currentPlaylistId (ScheduleService.after first)
  ∧ ScheduleService.checkSchedule (ScheduleService.after first) later (Some row)
    = ScheduleService.unchanged (ScheduleService.after first).
Proof.
  intros Hrules Hchanged [best Hbest] Hnone first row. subst row first.
  assert (∃ dev, JS.truthy_str dev = true
                 ∧ ScheduleService.checkSchedule svc now (Some screen)
                   = {| ScheduleService.changed := true;
                        ScheduleService.after :=
                          {| ScheduleService.deviceId := Some dev;
                             ScheduleService.currentPlaylistId :=
                               Some (ScreenModel.playlist_id best) |};
                        ScheduleService.updated := [ScreenModel.playlist_id best] |})
    as (dev & Htruthy & Hfirst).
  { revert Hchanged. unfold ScheduleService.checkSchedule.
    destruct (ScheduleService.deviceId svc) as [dev|]; [|done].
    destruct (JS.truthy_str dev) eqn:Htruthy; [|done]. cbn [negb].
    rewrite Hrules, Hbest. case_bool_decide; [|done]. intros _. by exists dev. }
  rewrite Hfirst.
  cbn [ScheduleService.updated ScheduleService.after foldl].
  unfold ScheduleService.updateCurrentPlaylist.
  cbn [ScheduleService.deviceId]. rewrite Htruthy.
  cbn [ScreenModel.current_playlist]. split; [done|].
  unfold ScheduleService.checkSchedule. cbn [ScheduleService.deviceId].
  rewrite Htruthy. cbn [negb].
  assert (Hup : ScheduleService.has_upcoming
                  {| ScreenModel.screen_id := ScreenModel.screen_id screen;
                     ScreenModel.current_playlist := Some (ScreenModel.playlist_id best);
                     ScreenModel.schedule := ScreenModel.schedule screen |}
                = Some rules) by exact Hrules.
  rewrite Hup.
  pose proof (highestPrioritySchedule_least later rules) as Hleast.
  destruct (ScheduleService.highestPrioritySchedule later rules) as [b|].
  - destruct (Hleast b eq_refl) as (Hin & Hm & _).
    rewrite (Hnone b Hin) in Hm. discriminate.
  - cbn [ScreenModel.current_playlist ScheduleService.currentPlaylistId].
    destruct (JS.truthy_str (ScreenModel.playlist_id best)); [|done].
    cbn [andb]. case_bool_decide as Hc'; [by destruct Hc'|done].
Qed.

(** Office hours start the playlist "P1" on Monday at 10:00; at 18:00 the
    rule has ended and the check reports no change. *)
Lemma checkSchedule_never_reverts_witness :
  let first := ScheduleService.checkSchedule Scenario.fresh_schedule_service
                 (Scenario.monday 10 0) (Some Scenario.office_screen) in
  ScheduleService.checkSchedule (ScheduleService.after first) (Scenario.monday 18 0)
    (Some (ScheduleService.updateCurrentPlaylist (ScheduleService.after first) "P1"
             Scenario.office_screen))
  = ScheduleService.unchanged (ScheduleService.after first).
Proof.
  refine (proj2 (checkSchedule_never_reverts Scenario.fresh_schedule_service
                   (Scenario.monday 10 0) (Scenario.monday 18 0)
                   Scenario.office_screen [Scenario.office_hours]
                   eq_refl eq_refl _ _)).
  - exists Scenario.office_hours. vm_compute. reflexivity.
  - intros r Hr. apply list_elem_of_singleton in Hr as ->. vm_compute. reflexivity.
Defined.

(** ** Where the playlist of [startPlayback] comes from *)

(** X5. Whatever id [startPlayback] hands to [loadPlaylist] is not empty
    and is the playlist of an active rule of least priority among the
    active rules, or, only when no rule of the screen is active, the
    screen's own playlist, or, only when that is not set either, the
    playlist of the area row. *)
Theorem startPlayback_playlistId_sources
    (deviceId : option string) (now : JS.Date)
    (screen : option ScreenModel.Screen) (area : option ScreenModel.Area)
    (id : string) :
  PlaybackService.startPlayback_playlistId deviceId now screen area = Some id →
  id ≠ ""
  ∧ ∃ scr, screen = Some scr
      ∧ ((∃ rules best,
            ScheduleService.has_upcoming scr = Some rules
            ∧ best ∈ rules ∧ PlaybackService.isActive now best = true
            ∧ (∀ r, r ∈ rules → PlaybackService.isActive now r = true →
                    ScreenModel.priority best ≤ ScreenModel.priority r)
            ∧ id = ScreenModel.playlist_id best)
         ∨ ((∀ rules r, ScheduleService.has_upcoming scr = Some rules →
                        r ∈ rules → PlaybackService.isActive now r = false)
            ∧ (ScreenModel.current_playlist scr = Some id
               ∨ (PlaybackService.truthy_opt (ScreenModel.current_playlist scr) = None
                  ∧ ∃ a, area = Some a
                         ∧ ScreenModel.area_current_playlist a = Some id)))).
Proof.
  assert (Htruthy : ∀ o v, PlaybackService.truthy_opt o = Some v → o = Some v ∧ v ≠ "").
  { intros [w|] v; cbn; [|done]. destruct (JS.truthy_str w) eqn:Hw; [|done].
    intros [= <-]. split; [done|]. by apply truthy_str_true. }
  unfold PlaybackService.startPlayback_playlistId.
  destruct (PlaybackService.truthy_opt deviceId) as [dev|]; [|done].
  destruct screen as [scr|]; [|done].
  destruct (ScheduleService.has_upcoming scr) as [rules|] eqn:Hrules.
  - pose proof (activeSchedule_least now rules) as Hleast.
    destruct (PlaybackService.activeSchedule now rules) as [best|].
    + intros Hid. apply Htruthy in Hid as [[= <-] Hne]. split; [done|].
      exists scr. split; [done|]. left. exists rules, best.
      destruct Hleast as (Hin & Hact & Hmin). repeat split; try done.
      intros r Hr Hractive. destruct (Hmin r Hr Hractive) as [?|[? _]]; lia.
    + intros Hid.
      destruct (PlaybackService.truthy_opt (ScreenModel.current_playlist scr))
        as [cp|] eqn:Hcp.
      * injection Hid as <-. apply Htruthy in Hcp as [Hcp Hne]. split; [done|].
        exists scr. split; [done|]. right. split; [|by left].
        intros rules' r Hrules'. rewrite Hrules in Hrules'. injection Hrules' as <-.
        apply Hleast.
      * destruct area as [a|]; [|done]. apply Htruthy in Hid as [Hid Hne].
        split; [done|]. exists scr. split; [done|]. right. split.
        -- intros rules' r Hrules'. rewrite Hrules in Hrules'. injection Hrules' as <-.
        apply Hleast.
        -- right. split; [done|]. by exists a.
  - intros Hid.
    destruct (PlaybackService.truthy_opt (ScreenModel.current_playlist scr))
      as [cp|] eqn:Hcp.
    + injection Hid as <-. apply Htruthy in Hcp as [Hcp Hne]. split; [done|].
      exists scr. split; [done|]. right. split; [by intros ?? Hc; rewrite Hrules in Hc|by left].
    + destruct area as [a|]; [|done]. apply Htruthy in Hid as [Hid Hne].
      split; [done|]. exists scr. split; [done|]. right.
      split; [by intros ?? Hc; rewrite Hrules in Hc|].
      right. split; [done|]. by exists a.
Qed.

(** With the two tied rules on the screen, the id handed on, "P-early",
    is the playlist of one of them. *)
Lemma startPlayback_playlistId_sources_witness :
  ∃ rules best,
    ScheduleService.has_upcoming Scenario.tied_screen = Some rules
    ∧ best ∈ rules ∧ "P-early" = ScreenModel.playlist_id best.
Proof.
  destruct (startPlayback_playlistId_sources (Some "screen-1")
              (Scenario.monday 10 30) (Some Scenario.tied_screen) None
              "P-early" eq_refl)
    as (_ & scr & Hscr & [(rules & best & Hrules & Hin & _ & _ & Hid)|(Hnone & _)]).
  - injection Hscr as <-. by exists rules, best.
  - injection Hscr as <-.
    specialize (Hnone [Scenario.late_rule; Scenario.early_rule] Scenario.early_rule
                  eq_refl ltac:(right; left)).
    vm_compute in Hnone. discriminate.
Defined.

(** ** The running size of the content cache *)
Section accounting.
Import JS ContentSyncService.

Lemma totalSize_app (l1 l2 : list CachedContent) :
  totalSize (l1 ++ l2) = totalSize l1 + totalSize l2.
Proof.
  induction l1 as [|c l1 IH]; [done|].
  rewrite <- app_comm_cons, !totalSize_cons, IH. lia.
Qed.

Lemma totalSize_Permutation (l l' : list CachedContent) :
  l ≡ₚ l' → totalSize l = totalSize l'.
Proof. induction 1; rewrite ?totalSize_cons; try lia; congruence. Qed.

Lemma totalSize_nonneg (l : list CachedContent) :
  (∀ c, c ∈ l → 0 ≤ size c) → 0 ≤ totalSize l.
Proof.
  induction l as [|c l IH]; intros Hpos; [done|]. rewrite totalSize_cons.
  assert (0 ≤ size c) by (apply Hpos; left).
  assert (0 ≤ totalSize l); [|lia].
  apply IH. intros c0 Hc0. apply Hpos. by right.
Qed.

Lemma totalSize_elem_le (l : list CachedContent) (x : CachedContent) :
  (∀ c, c ∈ l → 0 ≤ size c) → x ∈ l → size x ≤ totalSize l.
Proof.
  intros Hpos Hx. apply list_elem_of_split in Hx as (l1 & l2 & ->).
  rewrite totalSize_app, totalSize_cons.
  assert (0 ≤ totalSize l1)
    by (apply totalSize_nonneg; intros c Hc; apply Hpos, elem_of_app; by left).
  assert (0 ≤ totalSize l2); [|lia].
  apply totalSize_nonneg. intros c Hc. apply Hpos, elem_of_app. right. by right.
Qed.

Lemma getAll_total (s : t) :
  totalSize (getAll s) = totalSize (map_to_list (contentStore s)).*2.
Proof. apply totalSize_Permutation, merge_sort_Permutation. Qed.

Lemma contentCursor_total (s : t) :
  totalSize (contentCursor s) = totalSize (map_to_list (contentStore s)).*2.
Proof. apply totalSize_Permutation, merge_sort_Permutation. Qed.

Lemma getAll_elem (s : t) (c : CachedContent) :
  c ∈ getAll s ↔ ∃ k, contentStore s !! k = Some c.
Proof.
  unfold getAll. rewrite merge_sort_Permutation, list_elem_of_fmap. split.
  - intros ([k c'] & -> & Hin). exists k. by apply elem_of_map_to_list.
  - intros (k & Hk). exists (k, c). split; [done|]. by apply elem_of_map_to_list.
Qed.

Lemma store_total_insert (m : gmap string CachedContent) (k : string)
    (c : CachedContent) :
  m !! k = None →
  totalSize (map_to_list (<[k := c]> m)).*2 = size c + totalSize (map_to_list m).*2.
Proof.
  intros Hk. transitivity (totalSize ((k, c) :: map_to_list m).*2).
  - apply totalSize_Permutation. by rewrite map_to_list_insert.
  - by rewrite fmap_cons, totalSize_cons.
Qed.

Lemma store_total_delete (m : gmap string CachedContent) (k : string)
    (c : CachedContent) :
  m !! k = Some c →
  totalSize (map_to_list (delete k m)).*2 = totalSize (map_to_list m).*2 - size c.
Proof.
  intros Hk.
  assert (totalSize ((k, c) :: map_to_list (delete k m)).*2
          = totalSize (map_to_list m).*2) as Heq.
  { apply totalSize_Permutation. by rewrite map_to_list_delete. }
  rewrite fmap_cons, totalSize_cons in Heq. cbn [snd] in Heq. lia.
Qed.

Lemma store_total_replace (m : gmap string CachedContent) (k : string)
    (c old : CachedContent) :
  m !! k = Some old →
  totalSize (map_to_list (<[k := c]> m)).*2
  = totalSize (map_to_list m).*2 - size old + size c.
Proof.
  intros Hk. rewrite <- insert_delete_eq.
  rewrite store_total_insert by apply lookup_delete_eq.
  rewrite (store_total_delete m k old Hk). lia.
Qed.

Lemma store_total_foldl_delete (removed : list CachedContent)
    (m : gmap string CachedContent) :
  NoDup (url <$> removed) → (∀ r, r ∈ removed → m !! url r = Some r) →
  totalSize (map_to_list (foldl (λ m c, delete (url c) m) m removed)).*2
  = totalSize (map_to_list m).*2 - totalSize removed.
Proof.
  revert m. induction removed as [|r l IH]; intros m Hnd Hin.
  - cbn [foldl]. change (totalSize []) with 0. lia.
  - cbn [foldl]. rewrite fmap_cons in Hnd. apply NoDup_cons in Hnd as [Hr Hnd].
    rewrite IH; [|done|].
    + rewrite (store_total_delete m (url r) r) by (apply Hin; left).
      rewrite totalSize_cons. lia.
    + intros r' Hr'. rewrite lookup_delete_ne; [apply Hin; by right|].
      intros Heq. apply Hr. rewrite Heq. apply list_elem_of_fmap. by exists r'.
Qed.

(** The three properties below depend on the store and the running size
    only. *)
Lemma size_tracked_ext (s s' : t) :
  contentStore s' = contentStore s → cacheSizeBytes s' = cacheSizeBytes s →
  size_tracked s → size_tracked s'.
Proof. unfold size_tracked, getAll. by intros -> ->. Qed.


Lemma trimCache_size_tracked (e : env) (s : t) :
  keyed_by_url s → size_tracked s → size_tracked (trimCache e s).
Proof.
  intros Hkeyed Htracked. unfold trimCache. destruct (db s); [|done]. cbn [negb].
  destruct (trim e); [|done|done].
  destruct (trimCursor_spec (contentCursor s) 0 s)
    as (removed & kept & Hsplit & _ & Hstore & _ & Hsize & _).
  unfold size_tracked. rewrite getAll_total, Hstore, Hsize.
  assert (Hown : ∀ r, r ∈ removed → contentStore s !! url r = Some r).
  { intros r Hr. assert (Hc : r ∈ contentCursor s)
      by (rewrite Hsplit; apply elem_of_app; by left).
    apply contentCursor_elem in Hc as (k & Hk).
    by rewrite (Hkeyed k r Hk). }
  rewrite store_total_foldl_delete; [| |done].
  - rewrite <- getAll_total, <- Htracked. lia.
  - apply NoDup_fmap_2_strong.
    + intros x y Hx Hy Heq. apply Hown in Hx, Hy. rewrite Heq in Hx. congruence.
    + pose proof (contentCursor_NoDup s Hkeyed) as Hnd. rewrite Hsplit in Hnd.
      by apply NoDup_app in Hnd as (Hnd & _).
Qed.



(** The caches of the examples are consistent. *)
Lemma open_cache_consistent :
  keyed_by_url Scenario.open_cache ∧ size_tracked Scenario.open_cache
  ∧ records_have_bytes Scenario.open_cache.
Proof. split; [|split]; [intros k c Hk|done|intros k c Hk]; by cbn in Hk. Qed.

Lemma crowded_cache_consistent :
  keyed_by_url Scenario.crowded_cache ∧ size_tracked Scenario.crowded_cache
  ∧ records_have_bytes Scenario.crowded_cache.
Proof.
  split; [|split].
  - apply (bool_decide_unpack
             (map_Forall (λ k c, url c = k) (contentStore Scenario.crowded_cache))).
    vm_compute. exact I.
  - vm_compute. reflexivity.
  - apply (bool_decide_unpack
             (map_Forall (λ _ c, is_Some (blob c))
                (contentStore Scenario.crowded_cache))).
    vm_compute. exact I.
Qed.

End accounting.



(** Storing under an address that already has a record replaces the
    record but adds the whole size of the new blob to the running size:
    when no eviction follows, the running size exceeds the stored bytes by
    the size of the record that was replaced. *)
Lemma storeContent_replace_counts_twice
    (e : ContentSyncService.env) (address handle : string)
    (b : ContentSyncService.Blob) (old : ContentSyncService.CachedContent)
    (s : ContentSyncService.t) :
  ContentSyncService.db s = true →
  ContentSyncService.store e = ContentSyncService.Succeeds →
  ContentSyncService.contentStore s !! address = Some old →
  ContentSyncService.size_tracked s →
  ContentSyncService.cacheSizeBytes s + ContentSyncService.blob_size b
    ≤ ContentSyncService.MAX_CACHE_SIZE →
  let s' := ContentSyncService.storeContent e address handle b s in
  ContentSyncService.cacheSizeBytes s'
  = ContentSyncService.totalSize (ContentSyncService.getAll s')
    + ContentSyncService.size old
  ∧ ∃ c, ContentSyncService.contentStore s' !! address = Some c
         ∧ ContentSyncService.size c = ContentSyncService.blob_size b.
Proof.
  intros Hdb Hstore Hold Htracked Hroom. cbv zeta.
  unfold ContentSyncService.storeContent, ContentSyncService.storeContent_oncomplete.
  rewrite Hdb, Hstore. cbn [negb]. cbv zeta.
  cbn [ContentSyncService.cacheSizeBytes ContentSyncService.set_cacheSizeBytes
       ContentSyncService.storeContent_put ContentSyncService.log
       ContentSyncService.set_contentStore].
  destruct (Z.gtb_spec (ContentSyncService.cacheSizeBytes s
                        + ContentSyncService.blob_size b)
              ContentSyncService.MAX_CACHE_SIZE) as [Hgt|_]; [lia|].
  split.
  - rewrite getAll_total. cbn.
    rewrite (store_total_replace _ _ _ old Hold).
    cbn [ContentSyncService.size ContentSyncService.contentEntry].
    rewrite <- getAll_total, <- Htracked. lia.
  - exists (ContentSyncService.contentEntry e address handle b).
    cbn. by rewrite lookup_insert_eq.
Qed.

(** X7. A record of the old format, stored without its blob, makes
    [getLocalContentUrl] download the address again; the download is
    answered with its new handle and replaces the record, but its whole
    size is added to the running size: when no eviction follows, the
    running size exceeds the stored bytes by the size of the record that
    was replaced. *)
Theorem getLocalContentUrl_old_format_double_counts
    (e : ContentSyncService.env) (address handle : string)
    (b : ContentSyncService.Blob) (old : ContentSyncService.CachedContent)
    (s : ContentSyncService.t) :
  address ≠ "" →
  ContentSyncService.db s = true →
  ContentSyncService.ensureInitialized s = JS.Resolved true →
  ContentSyncService.size_tracked s →
  ContentSyncService.blobCache s !! address = None →
  ContentSyncService.contentStore s !! address = Some old →
  ContentSyncService.blob old = None →
  ContentSyncService.read e = ContentSyncService.Succeeds →
  ContentSyncService.store e = ContentSyncService.Succeeds →
  ContentSyncService.retry 2 0 (ContentSyncService.http_get e) = Some b →
  ContentSyncService.createObjectURL e = Some handle →
  ContentSyncService.cacheSizeBytes s + ContentSyncService.blob_size b
    ≤ ContentSyncService.MAX_CACHE_SIZE →
  let result := ContentSyncService.getLocalContentUrl e address s in
  result.1 = [JS.Next handle; JS.Complete]
  ∧ ContentSyncService.cacheSizeBytes result.2
    = ContentSyncService.totalSize (ContentSyncService.getAll result.2)
      + ContentSyncService.size old
  ∧ ∃ c, ContentSyncService.contentStore result.2 !! address = Some c
         ∧ ContentSyncService.size c = ContentSyncService.blob_size b.
Proof.
  intros Hne Hdb Hinit Htracked Hnohandle Hold Hblob Hread Hstore Hget Hcreate Hroom.
  cbv zeta. apply truthy_str_true in Hne.
  unfold ContentSyncService.getLocalContentUrl.
  rewrite Hne, Hinit, Hdb, Hnohandle, Hread, Hold, Hblob. cbn [negb orb].
  unfold ContentSyncService.download, ContentSyncService.downloadContent.
  rewrite Hne, Hget, Hcreate. cbn [negb]. cbv zeta. cbn [fst snd].
  split; [done|].
  by apply storeContent_replace_counts_twice.
Qed.

(** The record of the legacy cache counts 5000 bytes; the image is
    downloaded again, 1000 bytes long, and 5000 bytes are counted that are
    no longer stored. *)
Lemma getLocalContentUrl_old_format_double_counts_witness :
  let result := ContentSyncService.getLocalContentUrl
                  (Scenario.fair_weather 30 "blob:new" (Scenario.blob_of 1000))
                  "https://cdn.example/a.png" Scenario.legacy_cache in
  ContentSyncService.cacheSizeBytes result.2
  = ContentSyncService.totalSize (ContentSyncService.getAll result.2) + 5000.
Proof.
  refine (proj1 (proj2 (getLocalContentUrl_old_format_double_counts
                          (Scenario.fair_weather 30 "blob:new" (Scenario.blob_of 1000))
                          "https://cdn.example/a.png" "blob:new"
                          (Scenario.blob_of 1000)
                          {| ContentSyncService.url := "https://cdn.example/a.png";
                             ContentSyncService.localUrl := "blob:gone";
                             ContentSyncService.size := 5000;
                             ContentSyncService.timestamp := 10;
                             ContentSyncService.type := "image/png";
                             ContentSyncService.blob := None |}
                          Scenario.legacy_cache
                          _ eq_refl eq_refl _ _ _ eq_refl eq_refl eq_refl eq_refl
                          eq_refl _))).
  - discriminate.
  - vm_compute. reflexivity.
  - vm_compute. reflexivity.
  - vm_compute. reflexivity.
  - vm_compute. discriminate.
Defined.

(** X8. A download larger than the whole budget is answered with its new
    handle, and the store that follows evicts it at once: the record is
    gone, the handle is no longer tracked and, being a blob handle, has
    been revoked. *)
Theorem getLocalContentUrl_oversized_download_evicted
    (e : ContentSyncService.env) (address handle : string)
    (b : ContentSyncService.Blob) (s : ContentSyncService.t) :
  address ≠ "" →
  ContentSyncService.db s = true →
  ContentSyncService.ensureInitialized s = JS.Resolved true →
  ContentSyncService.keyed_by_url s →
  ContentSyncService.size_tracked s →
  (∀ k c, ContentSyncService.contentStore s !! k = Some c →
          0 ≤ ContentSyncService.size c) →
  ContentSyncService.blobCache s !! address = None →
  ContentSyncService.contentStore s !! address = None →
  ContentSyncService.read e = ContentSyncService.Succeeds →
  ContentSyncService.store e = ContentSyncService.Succeeds →
  ContentSyncService.trim e = ContentSyncService.Succeeds →
  ContentSyncService.retry 2 0 (ContentSyncService.http_get e) = Some b →
  ContentSyncService.createObjectURL e = Some handle →
  ContentSyncService.blob_size b > ContentSyncService.MAX_CACHE_SIZE →
  let result := ContentSyncService.getLocalContentUrl e address s in
  result.1 = [JS.Next handle; JS.Complete]
  ∧ ContentSyncService.contentStore result.2 !! address = None
  ∧ ContentSyncService.blobCache result.2 !! address = None
  ∧ (ContentSyncService.isBlobUrl handle = true →
     ContentSyncService.RevokeObjectURL handle
     ∈ ContentSyncService.effects result.2).
Proof.
  intros Hne Hdb Hinit Hkeyed Htracked Hpos Hnohandle Hfresh Hread Hstore Htrim
    Hget Hcreate Hbig. cbv zeta.
  apply truthy_str_true in Hne.
  unfold ContentSyncService.getLocalContentUrl.
  rewrite Hne, Hinit, Hdb, Hnohandle, Hread, Hfresh. cbn [negb orb].
  unfold ContentSyncService.download, ContentSyncService.downloadContent.
  rewrite Hne, Hget, Hcreate. cbn [negb]. cbv zeta. cbn [fst snd].
  split; [done|].
  set (s2 := ContentSyncService.log _ (ContentSyncService.set_blobCache _ _)).
  assert (Hkeyed2 : ContentSyncService.keyed_by_url s2) by exact Hkeyed.
  assert (Htracked2 : ContentSyncService.size_tracked s2) by exact Htracked.
  assert (Hfresh2 : ContentSyncService.contentStore s2 !! address = None) by exact Hfresh.
  assert (Hdb2 : ContentSyncService.db s2 = true) by exact Hdb.
  assert (Hpos2 : ∀ k c, ContentSyncService.contentStore s2 !! k = Some c →
                         0 ≤ ContentSyncService.size c) by exact Hpos.
  clearbody s2. clear Hkeyed Htracked Hfresh Hdb Hpos Hnohandle Hinit s.
  unfold ContentSyncService.storeContent. rewrite Hdb2, Hstore. cbn [negb].
  unfold ContentSyncService.storeContent_oncomplete. cbv zeta.
  pose proof (storeContent_put_keyed e address handle b s2 Hkeyed2) as Hkeyed3.
  set (new := ContentSyncService.contentEntry e address handle b).
  assert (Hnew : ContentSyncService.contentStore
                   (ContentSyncService.storeContent_put e address handle b s2)
                 !! address = Some new) by (cbn; by rewrite lookup_insert_eq).
  assert (Hrunning :
    ContentSyncService.cacheSizeBytes
      (ContentSyncService.storeContent_put e address handle b s2)
    + ContentSyncService.blob_size b
    = ContentSyncService.totalSize
        (ContentSyncService.contentCursor
           (ContentSyncService.storeContent_put e address handle b s2))).
  { rewrite contentCursor_total. cbn.
    rewrite store_total_insert by done.
    cbn [ContentSyncService.size ContentSyncService.contentEntry].
    rewrite <- getAll_total, <- Htracked2. lia. }
  assert (Hpos3 : ∀ c, c ∈ ContentSyncService.contentCursor
                         (ContentSyncService.storeContent_put e address handle b s2) →
                       0 ≤ ContentSyncService.size c).
  { intros c Hc. apply contentCursor_elem in Hc as (k & Hk). cbn in Hk.
    destruct (decide (k = address)) as [->|Hka].
    - rewrite lookup_insert_eq in Hk. injection Hk as <-. cbn.
      unfold ContentSyncService.MAX_CACHE_SIZE in Hbig. lia.
    - rewrite lookup_insert_ne in Hk by done. by apply (Hpos2 k). }
  set (s3 := ContentSyncService.storeContent_put e address handle b s2) in *.
  assert (Hdb3 : ContentSyncService.db s3 = true) by exact Hdb2.
  assert (Hnonneg : 0 ≤ ContentSyncService.cacheSizeBytes s3).
  { replace (ContentSyncService.cacheSizeBytes s3)
      with (ContentSyncService.cacheSizeBytes s2) by done.
    rewrite Htracked2. apply totalSize_nonneg. intros c Hc.
    apply getAll_elem in Hc as (k & Hk). by apply (Hpos2 k). }
  clearbody s3.
  cbn [ContentSyncService.cacheSizeBytes ContentSyncService.set_cacheSizeBytes].
  destruct (Z.gtb_spec (ContentSyncService.cacheSizeBytes s3
                        + ContentSyncService.blob_size b)
              ContentSyncService.MAX_CACHE_SIZE) as [_|Hle]; [|lia].
  unfold ContentSyncService.trimCache.
  cbn [ContentSyncService.db ContentSyncService.set_cacheSizeBytes].
  rewrite Hdb3, Htrim. cbn [negb].
  change (ContentSyncService.contentCursor
            (ContentSyncService.set_cacheSizeBytes
               (ContentSyncService.cacheSizeBytes s3 + ContentSyncService.blob_size b)
               s3))
    with (ContentSyncService.contentCursor s3).
  destruct (trimCursor_spec (ContentSyncService.contentCursor s3) 0
              (ContentSyncService.set_cacheSizeBytes
                 (ContentSyncService.cacheSizeBytes s3
                  + ContentSyncService.blob_size b) s3))
    as (removed & kept & Hsplit & Heffects & Hcontent & Hblobs & _ & Hstop & _).
  cbn [ContentSyncService.cacheSizeBytes ContentSyncService.set_cacheSizeBytes] in Hstop.
  assert (Hremoved : new ∈ removed).
  { assert (Hin : new ∈ ContentSyncService.contentCursor s3)
      by (apply contentCursor_elem; by exists address).
    rewrite Hsplit in Hin. apply elem_of_app in Hin as [Hin|Hin]; [done|].
    exfalso.
    assert (Hkept : kept ≠ []) by (intros ->; by apply elem_of_nil in Hin).
    specialize (Hstop Hkept).
    rewrite Hrunning, Hsplit, totalSize_app in Hstop.
    assert (ContentSyncService.size new ≤ ContentSyncService.totalSize kept).
    { apply totalSize_elem_le; [|done]. intros c Hc. apply Hpos3.
      rewrite Hsplit. apply elem_of_app. by right. }
    subst new. cbn [ContentSyncService.size ContentSyncService.contentEntry] in *.
    change ContentSyncService.targetSize with 367001600 in Hstop.
    change ContentSyncService.MAX_CACHE_SIZE with 524288000 in Hbig.
    lia. }
  assert (Hurl : address ∈ ContentSyncService.url <$> removed)
    by (apply list_elem_of_fmap; by exists new).
  rewrite Hcontent, Hblobs, !foldl_delete_lookup, !decide_True by done.
  split; [done|]. split; [done|].
  intros Hblob. rewrite Heffects. apply elem_of_app. right.
  apply list_elem_of_In, in_flat_map. exists new. split; [by apply list_elem_of_In|].
  apply list_elem_of_In. unfold ContentSyncService.evict_effects.
  subst new. cbn [ContentSyncService.localUrl ContentSyncService.contentEntry].
  rewrite Hblob. right. left.
Qed.

(** The blob of 600 MB is answered with "blob:huge" and is not in the
    store afterwards. *)
Lemma getLocalContentUrl_oversized_download_evicted_witness :
  let result := ContentSyncService.getLocalContentUrl
                  (Scenario.fair_weather 30 "blob:huge" (Scenario.blob_of 600000000))
                  "https://cdn.example/huge.mp4" Scenario.open_cache in
  result.1 = [JS.Next "blob:huge"; JS.Complete]
  ∧ ContentSyncService.contentStore result.2 !! "https://cdn.example/huge.mp4" = None.
Proof.
  destruct open_cache_consistent as (Hkeyed & Htracked & _).
  destruct (getLocalContentUrl_oversized_download_evicted
              (Scenario.fair_weather 30 "blob:huge" (Scenario.blob_of 600000000))
              "https://cdn.example/huge.mp4" "blob:huge"
              (Scenario.blob_of 600000000) Scenario.open_cache)
    as (Hout & Hgone & _).
  - discriminate.
  - reflexivity.
  - reflexivity.
  - exact Hkeyed.
  - exact Htracked.
  - intros k c Hk. by cbn in Hk.
  - vm_compute. reflexivity.
  - vm_compute. reflexivity.
  - reflexivity.
  - reflexivity.
  - reflexivity.
  - reflexivity.
  - reflexivity.
  - vm_compute. reflexivity.
  - split; [exact Hout|exact Hgone].
Defined.

(** X9. Recounting sets the running size to the total size of the records
    that remain, whatever it was before and whether or not the eviction
    that may follow succeeds. *)
Theorem calculateCacheSize_tracks
    (e : ContentSyncService.env) (s : ContentSyncService.t) :
  ContentSyncService.db s = true →
  ContentSyncService.keyed_by_url s →
  let s' := ContentSyncService.calculateCacheSize e ContentSyncService.Succeeds s in
  ContentSyncService.size_tracked s'
  ∧ (ContentSyncService.totalSize (ContentSyncService.getAll s)
     ≤ ContentSyncService.nearLimit →
     ContentSyncService.contentStore s' = ContentSyncService.contentStore s).
Proof.
  intros Hdb Hkeyed. cbv zeta. unfold ContentSyncService.calculateCacheSize.
  rewrite Hdb. cbn [negb]. cbv zeta.
  cbn [ContentSyncService.cacheSizeBytes ContentSyncService.set_cacheSizeBytes].
  assert (Htracked : ContentSyncService.size_tracked
                       (ContentSyncService.set_cacheSizeBytes
                          (ContentSyncService.totalSize (ContentSyncService.getAll s)) s))
    by done.
  destruct (Z.gtb_spec (ContentSyncService.totalSize (ContentSyncService.getAll s))
              ContentSyncService.nearLimit) as [Hgt|Hle].
  - split; [by apply trimCache_size_tracked|lia].
  - done.
Qed.

(** The crowded cache with a running size that was lost: the recount
    restores it. *)
Lemma calculateCacheSize_tracks_witness :
  ContentSyncService.size_tracked
    (ContentSyncService.calculateCacheSize
       (Scenario.fair_weather 30 "blob:new" (Scenario.blob_of 1))
       ContentSyncService.Succeeds
       (ContentSyncService.set_cacheSizeBytes 0 Scenario.crowded_cache)).
Proof.
  destruct crowded_cache_consistent as (Hkeyed & _ & _).
  exact (proj1 (calculateCacheSize_tracks
                  (Scenario.fair_weather 30 "blob:new" (Scenario.blob_of 1))
                  (ContentSyncService.set_cacheSizeBytes 0 Scenario.crowded_cache)
                  eq_refl Hkeyed)).
Defined.

(** ** Removing from the cache *)
Section removal.
Import JS ContentSyncService.

Lemma release_spec (key : string) (c : CachedContent) (s : t) :
  contentStore (release key c s) = contentStore s
  ∧ playlistStore (release key c s) = playlistStore s
  ∧ cacheSizeBytes (release key c s) = cacheSizeBytes s
  ∧ blobCache (release key c s) = delete key (blobCache s)
  ∧ effects (release key c s)
    = effects s
      ++ (if isBlobUrl (localUrl c) then [RevokeObjectURL (localUrl c)] else [])
      ++ [BlobCacheDelete key]
  ∧ db (release key c s) = db s
  ∧ ensureInitialized (release key c s) = ensureInitialized s.
Proof.
  unfold release. destruct (isBlobUrl (localUrl c)); cbn; repeat split; try done.
  by rewrite <- app_assoc.
Qed.

Lemma foldl_release_spec (l : list CachedContent) (s : t) :
  let s' := foldl (λ s' c, release (url c) c s') s l in
  contentStore s' = contentStore s
  ∧ playlistStore s' = playlistStore s
  ∧ cacheSizeBytes s' = cacheSizeBytes s
  ∧ blobCache s' = foldl (λ m c, delete (url c) m) (blobCache s) l
  ∧ (∀ x, x ∈ effects s → x ∈ effects s')
  ∧ (∀ c, c ∈ l → isBlobUrl (localUrl c) = true →
          RevokeObjectURL (localUrl c) ∈ effects s')
  ∧ db s' = db s
  ∧ ensureInitialized s' = ensureInitialized s.
Proof.
  cbv zeta. revert s. induction l as [|c l IH]; intros s.
  - cbn [foldl]. repeat split; try done. intros c Hc. by apply elem_of_nil in Hc.
  - cbn [foldl].
    destruct (IH (release (url c) c s))
      as (-> & -> & -> & -> & Hkeep & Hrevoked & -> & ->).
    destruct (release_spec (url c) c s) as (-> & -> & -> & -> & Heffects & -> & ->).
    repeat split; try done.
    + intros x Hx. apply Hkeep. rewrite Heffects. apply elem_of_app. by left.
    + intros c' Hc' Hblob. apply elem_of_cons in Hc' as [->|Hc']; [|by apply Hrevoked].
      apply Hkeep. rewrite Heffects, Hblob.
      apply elem_of_app. right. apply elem_of_app. left. apply list_elem_of_here.
Qed.

Lemma extremum_min (l : list Z) (m : Z) :
  extremum Z.min l = Some m → m ∈ l ∧ ∀ x, x ∈ l → m ≤ x.
Proof.
  destruct l as [|x0 l]; [done|]. cbn [extremum]. intros [= <-].
  revert x0. induction l as [|y l IH]; intros x0.
  - cbn. split; [left|]. intros x Hx. apply list_elem_of_singleton in Hx as ->. lia.
  - cbn [foldl]. destruct (IH (Z.min x0 y)) as [Hin Hle]. split.
    + apply elem_of_cons in Hin as [Heq|Hin]; [|right; by right].
      rewrite Heq. destruct (Z.min_spec x0 y) as [[_ ->]|[_ ->]]; [left|right; left].
    + intros x Hx. specialize (Hle (Z.min x0 y) ltac:(left)) as Hfirst.
      apply elem_of_cons in Hx as [Hx|Hx]; [lia|].
      apply elem_of_cons in Hx as [Hx|Hx]; [lia|].
      apply Hle. by right.
Qed.

Lemma extremum_max (l : list Z) (m : Z) :
  extremum Z.max l = Some m → m ∈ l ∧ ∀ x, x ∈ l → x ≤ m.
Proof.
  destruct l as [|x0 l]; [done|]. cbn [extremum]. intros [= <-].
  revert x0. induction l as [|y l IH]; intros x0.
  - cbn. split; [left|]. intros x Hx. apply list_elem_of_singleton in Hx as ->. lia.
  - cbn [foldl]. destruct (IH (Z.max x0 y)) as [Hin Hle]. split.
    + apply elem_of_cons in Hin as [Heq|Hin]; [|right; by right].
      rewrite Heq. destruct (Z.max_spec x0 y) as [[_ ->]|[_ ->]]; [right; left|left].
    + intros x Hx. specialize (Hle (Z.max x0 y) ltac:(left)) as Hfirst.
      apply elem_of_cons in Hx as [Hx|Hx]; [lia|].
      apply elem_of_cons in Hx as [Hx|Hx]; [lia|].
      apply Hle. by right.
Qed.

Lemma getAll_length (s : t) : length (getAll s) = base.size (contentStore s).
Proof.
  unfold getAll. rewrite merge_sort_Permutation, length_fmap.
  apply length_map_to_list.
Qed.

End removal.

(** X10. [deleteFromCache] answers [true] exactly when the database is
    ready, both requests succeed and a record is stored under the address;
    the record is then gone.  In every other case the store and the running
    size are as before.  The subscriber hears nothing at all when the
    delete request throws.  Whenever the record was found its handle is
    forgotten, also when the delete then fails. *)
Theorem deleteFromCache_reports
    (lookup removal : ContentSyncService.idb) (address : string)
    (s : ContentSyncService.t) :
  let result := ContentSyncService.deleteFromCache lookup removal address s in
  let found := ContentSyncService.db s = true
               ∧ ContentSyncService.ensureInitialized s = JS.Resolved true
               ∧ lookup = ContentSyncService.Succeeds
               ∧ is_Some (ContentSyncService.contentStore s !! address) in
  (result.1 = [JS.Next true; JS.Complete] ↔
     found ∧ removal = ContentSyncService.Succeeds)
  ∧ (result.1 = [] ↔ found ∧ removal = ContentSyncService.TransactionThrows)
  ∧ (result.1 = [JS.Next true; JS.Complete] ∨ result.1 = []
     ∨ result.1 = [JS.Next false; JS.Complete])
  ∧ (result.1 = [JS.Next true; JS.Complete] →
     ContentSyncService.contentStore result.2
     = delete address (ContentSyncService.contentStore s))
  ∧ (result.1 ≠ [JS.Next true; JS.Complete] →
     ContentSyncService.contentStore result.2 = ContentSyncService.contentStore s
     ∧ ContentSyncService.cacheSizeBytes result.2
       = ContentSyncService.cacheSizeBytes s)
  ∧ (found → ContentSyncService.blobCache result.2 !! address = None).
Proof.
  cbv zeta. unfold ContentSyncService.deleteFromCache.
  destruct (ContentSyncService.db s); cbn [negb];
    [|split_and!; try done; naive_solver].
  destruct (ContentSyncService.ensureInitialized s) as [[]|];
    [|split_and!; try done; naive_solver..].
  destruct lookup; [|split_and!; try done; naive_solver..].
  destruct (ContentSyncService.contentStore s !! address) as [c|] eqn:Hc;
    [|split_and!; try done; try naive_solver;
      intros (_ & _ & _ & [? ?]); discriminate].
  destruct (release_spec address c s) as (Hstore & _ & Hsize & Hblobs & _).
  cbv zeta. set (s1 := ContentSyncService.release address c s) in *. clearbody s1.
  destruct removal; cbn [fst snd].
  - split_and!; try done; try naive_solver.
    + cbn. by rewrite Hstore.
    + intros _. cbn. rewrite Hblobs. apply lookup_delete_eq.
  - split_and!; try done; try naive_solver.
    intros _. rewrite Hblobs. apply lookup_delete_eq.
  - split_and!; try done; try naive_solver.
    intros _. rewrite Hblobs. apply lookup_delete_eq.
Qed.

(** X11. Deleting a record and clearing the cache keep the running size
    equal to the total size of the records, whatever the outcome of their
    requests, and leave every record under its own address. *)
Theorem removal_keeps_size_tracked
    (lookup removal listing clearing clearingPlaylists : ContentSyncService.idb)
    (address : string) (s : ContentSyncService.t) :
  ContentSyncService.keyed_by_url s →
  ContentSyncService.size_tracked s →
  let deleted := (ContentSyncService.deleteFromCache lookup removal address s).2 in
  let cleared := (ContentSyncService.clearCache listing clearing clearingPlaylists s).2 in
  ContentSyncService.keyed_by_url deleted
  ∧ ContentSyncService.size_tracked deleted
  ∧ ContentSyncService.keyed_by_url cleared
  ∧ ContentSyncService.size_tracked cleared.
Proof.
  intros Hkeyed Htracked. cbv zeta.
  assert (Hsame : ∀ s', ContentSyncService.contentStore s'
                        = ContentSyncService.contentStore s →
                        ContentSyncService.cacheSizeBytes s'
                        = ContentSyncService.cacheSizeBytes s →
                        ContentSyncService.keyed_by_url s'
                        ∧ ContentSyncService.size_tracked s').
  { intros s' Hstore Hsize. split; [|by apply (size_tracked_ext s)].
    intros k c. rewrite Hstore. apply Hkeyed. }
  assert (Hdeleted :
    ContentSyncService.keyed_by_url
      (ContentSyncService.deleteFromCache lookup removal address s).2
    ∧ ContentSyncService.size_tracked
        (ContentSyncService.deleteFromCache lookup removal address s).2).
  { unfold ContentSyncService.deleteFromCache.
    destruct (ContentSyncService.db s); cbn [negb]; [|by apply Hsame].
    destruct (ContentSyncService.ensureInitialized s) as [[]|]; [|by apply Hsame..].
    destruct lookup; [|by apply Hsame..].
    destruct (ContentSyncService.contentStore s !! address) as [c|] eqn:Hc;
      [|by apply Hsame].
    destruct (release_spec address c s) as (Hstore & _ & Hsize & _).
    cbv zeta. set (s1 := ContentSyncService.release address c s) in *. clearbody s1.
    destruct removal; cbn [snd]; [|by apply Hsame..].
    split.
    - intros k c'. cbn. rewrite Hstore. intros Hk.
      apply lookup_delete_Some in Hk as [_ Hk]. by apply Hkeyed.
    - unfold ContentSyncService.size_tracked. rewrite getAll_total. cbn.
      rewrite Hstore, Hsize, (store_total_delete _ _ c Hc).
      rewrite <- getAll_total, <- Htracked. lia. }
  destruct Hdeleted as [Hk1 Ht1]. split; [done|]. split; [done|].
  unfold ContentSyncService.clearCache.
  destruct (ContentSyncService.db s); cbn [negb]; [|by apply Hsame].
  destruct (ContentSyncService.ensureInitialized s) as [[]|]; [|by apply Hsame..].
  destruct listing; [|by apply Hsame..]. cbv zeta.
  destruct (foldl_release_spec (ContentSyncService.getAll s) s)
    as (Hstore & _ & Hsize & _).
  set (s1 := foldl _ s (ContentSyncService.getAll s)) in *. clearbody s1.
  destruct clearing, clearingPlaylists; cbn [snd]; try (by apply Hsame).
  split; [|done]. intros k c Hk. by cbn in Hk.
Qed.

(** The older video is deleted from the crowded cache: 200 MB remain,
    counted and stored. *)
Lemma removal_keeps_size_tracked_witness :
  ContentSyncService.size_tracked
    (ContentSyncService.deleteFromCache ContentSyncService.Succeeds
       ContentSyncService.Succeeds "https://cdn.example/old.mp4"
       Scenario.crowded_cache).2.
Proof.
  destruct crowded_cache_consistent as (Hkeyed & Htracked & _).
  exact (proj1 (proj2 (removal_keeps_size_tracked
                         ContentSyncService.Succeeds ContentSyncService.Succeeds
                         ContentSyncService.Succeeds ContentSyncService.Succeeds
                         ContentSyncService.Succeeds "https://cdn.example/old.mp4"
                         Scenario.crowded_cache Hkeyed Htracked))).
Defined.

(** X12. [clearCache] answers [true] exactly when the database is ready
    and its three requests succeed; both stores are then empty, the running
    size is 0 and the statistics are those of an empty cache.  In every
    other case the stores and the running size are as before.  Once the
    records have been listed, the handle of every record is forgotten and,
    being a blob handle, revoked, also when the stores are not cleared
    afterwards; handles tracked for addresses without a record stay. *)
Theorem clearCache_empties
    (listing clearing clearingPlaylists : ContentSyncService.idb)
    (s : ContentSyncService.t) :
  ContentSyncService.keyed_by_url s →
  let result := ContentSyncService.clearCache listing clearing clearingPlaylists s in
  let listed := ContentSyncService.db s = true
                ∧ ContentSyncService.ensureInitialized s = JS.Resolved true
                ∧ listing = ContentSyncService.Succeeds in
  (result.1 = [JS.Next true; JS.Complete] ↔
     listed ∧ clearing = ContentSyncService.Succeeds
     ∧ clearingPlaylists = ContentSyncService.Succeeds)
  ∧ (result.1 = [JS.Next true; JS.Complete] →
     ContentSyncService.contentStore result.2 = ∅
     ∧ ContentSyncService.playlistStore result.2 = ∅
     ∧ ContentSyncService.cacheSizeBytes result.2 = 0
     ∧ ContentSyncService.getCacheStats ContentSyncService.Succeeds
         ContentSyncService.Succeeds result.2
       = [JS.Next ContentSyncService.noStats; JS.Complete])
  ∧ (result.1 ≠ [JS.Next true; JS.Complete] →
     ContentSyncService.contentStore result.2 = ContentSyncService.contentStore s
     ∧ ContentSyncService.playlistStore result.2 = ContentSyncService.playlistStore s
     ∧ ContentSyncService.cacheSizeBytes result.2
       = ContentSyncService.cacheSizeBytes s)
  ∧ (listed →
     (∀ k, ContentSyncService.blobCache result.2 !! k
           = if decide (is_Some (ContentSyncService.contentStore s !! k))
             then None else ContentSyncService.blobCache s !! k)
     ∧ (∀ k c, ContentSyncService.contentStore s !! k = Some c →
               ContentSyncService.isBlobUrl (ContentSyncService.localUrl c) = true →
               ContentSyncService.RevokeObjectURL (ContentSyncService.localUrl c)
               ∈ ContentSyncService.effects result.2)).
Proof.
  intros Hkeyed. cbv zeta. unfold ContentSyncService.clearCache.
  destruct (ContentSyncService.db s) eqn:Hdb; cbn [negb];
    [|split_and!; try done; naive_solver].
  destruct (ContentSyncService.ensureInitialized s) as [[]|] eqn:Hinit;
    [|split_and!; try done; naive_solver..].
  destruct listing; [|split_and!; try done; naive_solver..].
  cbv zeta.
  destruct (foldl_release_spec (ContentSyncService.getAll s) s)
    as (Hstore & Hplaylists & Hsize & Hblobs & _ & Hrevoked & Hdb1 & Hinit1).
  rewrite Hdb in Hdb1. rewrite Hinit in Hinit1.
  set (s1 := foldl _ s (ContentSyncService.getAll s)) in *.
  assert (Hforgotten :
    ∀ k, ContentSyncService.blobCache s1 !! k
         = if decide (is_Some (ContentSyncService.contentStore s !! k))
           then None else ContentSyncService.blobCache s !! k).
  { intros k. rewrite Hblobs, foldl_delete_lookup.
    destruct (decide (k ∈ ContentSyncService.url <$> ContentSyncService.getAll s))
      as [Hin|Hout].
    - apply list_elem_of_fmap in Hin as (c & -> & Hc).
      apply getAll_elem in Hc as (k & Hk). rewrite (Hkeyed k c Hk), Hk.
      by rewrite decide_True by by eexists.
    - destruct (ContentSyncService.contentStore s !! k) as [c|] eqn:Hk.
      + destruct Hout. apply list_elem_of_fmap. exists c.
        split; [by rewrite (Hkeyed k c Hk)|]. apply getAll_elem. by exists k.
      + by rewrite decide_False by (by intros [? ?]). }
  assert (Hrevoked' :
    ∀ k c, ContentSyncService.contentStore s !! k = Some c →
           ContentSyncService.isBlobUrl (ContentSyncService.localUrl c) = true →
           ContentSyncService.RevokeObjectURL (ContentSyncService.localUrl c)
           ∈ ContentSyncService.effects s1).
  { intros k c Hk Hblob. apply Hrevoked; [|done]. apply getAll_elem. by exists k. }
  clearbody s1.
  destruct clearing, clearingPlaylists; cbn [fst snd];
    (split_and!; [naive_solver|try done|try done|done]).
  intros _. split_and!; try done.
  unfold ContentSyncService.getCacheStats. cbn [ContentSyncService.db
    ContentSyncService.set_cacheSizeBytes ContentSyncService.set_playlistStore
    ContentSyncService.set_contentStore]. rewrite Hdb1. cbn [negb].
  replace (ContentSyncService.ensureInitialized _) with (JS.Resolved true); done.
Qed.

(** Clearing the crowded cache empties the content store. *)
Lemma clearCache_empties_witness :
  ContentSyncService.contentStore
    (ContentSyncService.clearCache ContentSyncService.Succeeds
       ContentSyncService.Succeeds ContentSyncService.Succeeds
       Scenario.crowded_cache).2 = ∅.
Proof.
  destruct crowded_cache_consistent as (Hkeyed & _ & _).
  destruct (clearCache_empties ContentSyncService.Succeeds ContentSyncService.Succeeds
              ContentSyncService.Succeeds Scenario.crowded_cache Hkeyed)
    as (Hiff & Hempty & _).
  apply Hempty, Hiff. repeat split.
Defined.

(** X13. When the database is ready and both requests succeed,
    [getCacheStats] emits one record of statistics and completes: the
    number of stored records and of stored playlists, the total size of
    the records, which is the running size when that is tracked, and, for
    a store that is not empty, the timestamps of a stored record that is at
    least as old, and of one that is at least as new, as every stored
    record; for an empty store both are [null]. *)
Theorem getCacheStats_reports (s : ContentSyncService.t) :
  ContentSyncService.db s = true →
  ContentSyncService.ensureInitialized s = JS.Resolved true →
  ∃ stats,
    ContentSyncService.getCacheStats ContentSyncService.Succeeds
      ContentSyncService.Succeeds s = [JS.Next stats; JS.Complete]
    ∧ ContentSyncService.Stats.itemCount stats
      = base.size (ContentSyncService.contentStore s)
    ∧ ContentSyncService.Stats.playlistCount stats
      = base.size (ContentSyncService.playlistStore s)
    ∧ ContentSyncService.Stats.totalSize stats
      = ContentSyncService.totalSize (ContentSyncService.getAll s)
    ∧ (ContentSyncService.size_tracked s →
       ContentSyncService.Stats.totalSize stats = ContentSyncService.getCacheSize s)
    ∧ match ContentSyncService.Stats.oldestItem stats,
            ContentSyncService.Stats.newestItem stats with
      | Some oldest, Some newest =>
        (∃ k c, ContentSyncService.contentStore s !! k = Some c
                ∧ ContentSyncService.timestamp c = oldest)
        ∧ (∃ k c, ContentSyncService.contentStore s !! k = Some c
                  ∧ ContentSyncService.timestamp c = newest)
        ∧ ∀ k c, ContentSyncService.contentStore s !! k = Some c →
                 oldest ≤ ContentSyncService.timestamp c ≤ newest
      | None, None => ContentSyncService.contentStore s = ∅
      | _, _ => False
      end.
Proof.
  intros Hdb Hinit. unfold ContentSyncService.getCacheStats.
  rewrite Hdb, Hinit. cbn [negb]. cbv zeta. eexists. split; [done|].
  cbn [ContentSyncService.Stats.itemCount ContentSyncService.Stats.playlistCount
       ContentSyncService.Stats.totalSize ContentSyncService.Stats.oldestItem
       ContentSyncService.Stats.newestItem].
  split; [apply getAll_length|]. split; [done|]. split; [done|].
  split; [intros Htracked; symmetry; exact Htracked|].
  pose proof (getAll_length s) as Hlen.
  pose proof (extremum_min (ContentSyncService.timestamp <$> ContentSyncService.getAll s))
    as Hmin.
  pose proof (extremum_max (ContentSyncService.timestamp <$> ContentSyncService.getAll s))
    as Hmax.
  assert (Hstored : ∀ t, t ∈ ContentSyncService.timestamp <$> ContentSyncService.getAll s →
                         ∃ k c, ContentSyncService.contentStore s !! k = Some c
                                ∧ ContentSyncService.timestamp c = t).
  { intros t Ht. apply list_elem_of_fmap in Ht as (c & -> & Hc).
    apply getAll_elem in Hc as (k & Hk). by exists k, c. }
  assert (Hall : ∀ k c, ContentSyncService.contentStore s !! k = Some c →
                        ContentSyncService.timestamp c
                        ∈ ContentSyncService.timestamp <$> ContentSyncService.getAll s).
  { intros k c Hk. apply list_elem_of_fmap. exists c. split; [done|].
    apply getAll_elem. by exists k. }
  destruct (ContentSyncService.getAll s) as [|c0 l].
  - cbn. apply map_size_empty_inv. by rewrite <- Hlen.
  - rewrite fmap_cons in *. cbn [ContentSyncService.extremum] in *.
    destruct (Hmin _ eq_refl) as [Hmin_in Hmin_le].
    destruct (Hmax _ eq_refl) as [Hmax_in Hmax_le].
    split; [by apply Hstored|]. split; [by apply Hstored|].
    intros k c Hk. split; [apply Hmin_le|apply Hmax_le]; by apply (Hall k).
Qed.

(** The statistics of the crowded cache count two records. *)
Lemma getCacheStats_reports_witness :
  ∃ stats,
    ContentSyncService.getCacheStats ContentSyncService.Succeeds
      ContentSyncService.Succeeds Scenario.crowded_cache
    = [JS.Next stats; JS.Complete]
    ∧ ContentSyncService.Stats.itemCount stats = 2%nat.
Proof.
  destruct (getCacheStats_reports Scenario.crowded_cache eq_refl eq_refl)
    as (stats & Hstats & Hcount & _).
  exists stats. split; [exact Hstats|]. rewrite Hcount. vm_compute. reflexivity.
Defined.

(** ** The playlist store *)

(** X14. When the playlist store can be read, [deleteCachedPlaylist]
    answers [true] whether or not a playlist is stored under the id;
    afterwards [getCachedPlaylist] answers [null] for that id and as
    before for every other id, and [getAllCachedPlaylists] lists exactly
    the records stored under the other ids. *)
Theorem deleteCachedPlaylist_forgets
    (e : ContentSyncService.env) (id : string) (s : ContentSyncService.t) :
  ContentSyncService.playlists_readable e s →
  let result := ContentSyncService.deleteCachedPlaylist e id s in
  result.1 = [JS.Next true; JS.Complete]
  ∧ ContentSyncService.getCachedPlaylist e id result.2 = None
  ∧ (∀ other, other ≠ id →
       ContentSyncService.getCachedPlaylist e other result.2
       = ContentSyncService.getCachedPlaylist e other s)
  ∧ (∀ c, c ∈ ContentSyncService.getAllCachedPlaylists e result.2 ↔
          ∃ k, k ≠ id ∧ ContentSyncService.playlistStore s !! k = Some c)
  ∧ ContentSyncService.contentStore result.2 = ContentSyncService.contentStore s.
Proof.
  intros (Hdb & Hinit & Hreq). cbv zeta.
  unfold ContentSyncService.deleteCachedPlaylist. rewrite Hdb, Hinit, Hreq.
  cbn [negb fst snd]. split; [done|].
  unfold ContentSyncService.getCachedPlaylist, ContentSyncService.getAllCachedPlaylists.
  replace (ContentSyncService.ensureInitialized
             (ContentSyncService.set_playlistStore
                (delete id (ContentSyncService.playlistStore s)) s))
    with (JS.Resolved true) by (by rewrite <- Hinit).
  rewrite Hinit, Hreq.
  cbn [ContentSyncService.db ContentSyncService.set_playlistStore
       ContentSyncService.playlistStore].
  rewrite Hdb. cbn [negb]. split_and!; [| |  |done].
  - destruct (JS.truthy_str id); [|done]. apply lookup_delete_eq.
  - intros other Hother. destruct (JS.truthy_str other); [|done].
    by apply lookup_delete_ne.
  - intros c. rewrite merge_sort_Permutation, list_elem_of_fmap. split.
    + intros ([k c'] & -> & Hin). apply elem_of_map_to_list in Hin.
      apply lookup_delete_Some in Hin as [Hne Hk]. by exists k.
    + intros (k & Hne & Hk). exists (k, c). split; [done|].
      apply elem_of_map_to_list, lookup_delete_Some. done.
Qed.

(** The lobby playlist is cached and deleted again: it is no longer
    found. *)
Lemma deleteCachedPlaylist_forgets_witness :
  let weather := Scenario.fair_weather 1000 "blob:1" (Scenario.blob_of 1) in
  ContentSyncService.getCachedPlaylist weather "lobby"
    (ContentSyncService.deleteCachedPlaylist weather "lobby"
       (ContentSyncService.cachePlaylist weather Scenario.lobby
          Scenario.open_cache)).2 = None.
Proof.
  refine (proj1 (proj2 (deleteCachedPlaylist_forgets
                          (Scenario.fair_weather 1000 "blob:1" (Scenario.blob_of 1))
                          "lobby"
                          (ContentSyncService.cachePlaylist
                             (Scenario.fair_weather 1000 "blob:1" (Scenario.blob_of 1))
                             Scenario.lobby Scenario.open_cache) _))).
  repeat split.
Defined.

(** ** Skipping and loading *)
Section engine.
Import PlaybackService.

Lemma clearTransition_spec (e : t) :
  currentPlaylist (clearTransition e) = currentPlaylist e
  ∧ currentIndex (clearTransition e) = currentIndex e
  ∧ currentTransitionTimeout (clearTransition e) = None
  ∧ isTransitioning_ (clearTransition e) = false
  ∧ playbackError_ (clearTransition e) = playbackError_ e
  ∧ playerState (clearTransition e) = playerState e
  ∧ deferred (clearTransition e) = deferred e
  ∧ currentItem_ (clearTransition e) = currentItem_ e.
Proof.
  unfold clearTransition.
  destruct (currentTransitionTimeout e) eqn:Ht; cbn; by rewrite ?Ht.
Qed.

Lemma skipToNext_keeps (e : t) :
  currentPlaylist (skipToNext e) = currentPlaylist e
  ∧ currentIndex (skipToNext e) = currentIndex e.
Proof.
  unfold skipToNext, clearTransition.
  destruct (currentPlaylist e) as [p|] eqn:Hp; [|done].
  destruct (Playlist.items p); [done|].
  destruct (currentTransitionTimeout e); cbn; by rewrite Hp.
Qed.

(** One skip from the request to the emission of the new item. *)
Lemma completeSkip_step (e : t) (p : Playlist.t) (i : nat) :
  currentPlaylist e = Some p → Playlist.items p ≠ [] → currentIndex e = Idx i →
  let n := length (Playlist.items p) in
  currentPlaylist (completeSkip e) = Some p
  ∧ currentIndex (completeSkip e) = Idx ((i + 1) mod n)
  ∧ isTransitioning_ (completeSkip e) = false
  ∧ currentTransitionTimeout (completeSkip e) = None
  ∧ deferred (completeSkip e) = []
  ∧ currentItem_ (completeSkip e) = Playlist.items p !! ((i + 1) mod n)%nat.
Proof.
  intros Hp Hne Hi n. unfold completeSkip.
  assert (Hn : n ≠ 0%nat) by (subst n; destruct (Playlist.items p); done).
  set (waiting := skipToNext e).
  assert (Hw : waiting = set_currentTransitionTimeout
                 (Some (getTransitionDuration
                          (set_isTransitioning true (clearTransition e))))
                 (set_isTransitioning true (clearTransition e))).
  { subst waiting. unfold skipToNext. rewrite Hp. destruct (Playlist.items p); done. }
  destruct (skipToNext_keeps e) as [Hwp Hwi]. fold waiting in Hwp, Hwi.
  rewrite Hp in Hwp. rewrite Hi in Hwi.
  destruct (advance_in_range i n Hn) as (j & Hadv & -> & Hlt).
  set (moved := set_isTransitioning false
                  (set_currentIndex
                     (advance (currentIndex waiting) (length (Playlist.items p)))
                     waiting)).
  assert (Hfire : transitionTimeout waiting
                  = set_currentTransitionTimeout None (playCurrentItem moved)).
  { unfold transitionTimeout. rewrite Hwp. rewrite Hw at 1. reflexivity. }
  destruct (playCurrentItem_spec moved p Hwp Hne) as (Pp & Pi & Pt & _ & _ & Pd & _).
  replace (currentIndex moved) with (Idx ((i + 1) mod n))
    in Pi, Pd by (subst moved; cbn; rewrite Hwi; symmetry; exact Hadv).
  destruct (settle_spec (transitionTimeout waiting))
    as (Sd & _ & Sc & Si & St & Sto & Sp & _).
  rewrite Sd, Si, St, Sto, Sp, Sc, Hfire.
  cbn [currentPlaylist currentIndex isTransitioning_ currentTransitionTimeout
       deferred currentItem_ set_currentTransitionTimeout].
  rewrite Pd, last_snoc, Pi, Pt, Pp. done.
Qed.

Lemma playCurrentItem_playerState (e : t) (p : Playlist.t) :
  currentPlaylist e = Some p → Playlist.items p ≠ [] →
  playerState (playCurrentItem e)
  = {| isPlaying := true; isOnline := isOnline (playerState e);
       currentPlaylistId := currentPlaylistId (playerState e);
       currentPlaylistName := currentPlaylistName (playerState e);
       currentItemIndex := currentIndex e;
       totalItems := totalItems (playerState e) |}.
Proof.
  intros Hp Hne. unfold playCurrentItem, preloadNextItem. rewrite Hp.
  destruct (Playlist.items p) as [|i0 items] eqn:Hitems; [done|].
  destruct (item_at (i0 :: items) (advance (currentIndex e) (length (i0 :: items))))
    as [next|] eqn:Hnext.
  - unfold preloadItem.
    destruct (PlaylistItem.thumbnail (PlaylistItem.content next)) as [th|];
      [destruct (JS.truthy_str th)|]; done.
  - done.
Qed.

(** [preloadAllContent] only asks the content service to preload. *)
Lemma preloadAllContent_frame (p : Playlist.t) (e : t) :
  let e' := preloadAllContent p e in
  currentPlaylist e' = currentPlaylist e
  ∧ currentIndex e' = currentIndex e
  ∧ currentTransitionTimeout e' = currentTransitionTimeout e
  ∧ isTransitioning_ e' = isTransitioning_ e
  ∧ playbackError_ e' = playbackError_ e
  ∧ playerState e' = playerState e
  ∧ deferred e' = deferred e
  ∧ currentItem_ e' = currentItem_ e.
Proof.
  cbv zeta. unfold preloadAllContent. revert e.
  induction (Playlist.items p) as [|it items IH]; intros e; [done|].
  cbn [foldl].
  match goal with
  | |- context [foldl ?f ?x items] =>
    destruct (IH x) as (-> & -> & -> & -> & -> & -> & -> & ->)
  end.
  destruct (PlaylistItem.thumbnail (PlaylistItem.content it)) as [th|];
    [destruct (JS.truthy_str th)|];
    destruct (JS.truthy_str (PlaylistItem.url (PlaylistItem.content it))); done.
Qed.

(** What [processPlaylist] leaves behind for a playlist with items. *)
Lemma processPlaylist_spec (p : Playlist.t) (fb : option Playlist.t) (e : t) :
  Playlist.items p ≠ [] →
  let e' := processPlaylist p fb e in
  currentPlaylist e' = Some p
  ∧ currentIndex e' = Idx 0
  ∧ playbackError_ e' = None
  ∧ isTransitioning_ e' = false
  ∧ currentTransitionTimeout e' = currentTransitionTimeout e
  ∧ deferred e' = deferred e ++ [head (Playlist.items p)]
  ∧ playerState e'
    = {| isPlaying := true; isOnline := isOnline (playerState e);
         currentPlaylistId := Some (Playlist.id p);
         currentPlaylistName := Playlist.name p;
         currentItemIndex := Idx 0;
         totalItems := length (Playlist.items p) |}.
Proof.
  intros Hne. cbv zeta. unfold processPlaylist.
  destruct (Playlist.items p) as [|i0 items] eqn:Hitems; [done|].
  rewrite <- Hitems in *.
  set (e3 := set_playbackError None
               (set_currentIndex (Idx 0) (set_currentPlaylist (Some p) e))).
  destruct (preloadAllContent_frame p e3)
    as (Fp & Fi & Ft & Ftr & Fe & Fs & Fd & _).
  set (e5 := updatePlayerState _ (preloadAllContent p e3)).
  assert (Hp5 : currentPlaylist e5 = Some p) by (subst e5; cbn; by rewrite Fp).
  destruct (playCurrentItem_spec e5 p Hp5 Hne) as (-> & -> & -> & -> & -> & -> & _).
  rewrite (playCurrentItem_playerState e5 p Hp5 Hne).
  subst e5. cbn. rewrite Fi, Ft, Fe, Fd, Fs. subst e3. cbn.
  rewrite Hitems. done.
Qed.

(** Whatever [processPlaylist] is given, no timer is started and the
    transition flag is lowered or left as it was. *)
Lemma processPlaylist_timer (p : Playlist.t) (fb : option Playlist.t) (e : t) :
  currentTransitionTimeout (processPlaylist p fb e) = currentTransitionTimeout e
  ∧ (isTransitioning_ e = false → isTransitioning_ (processPlaylist p fb e) = false).
Proof.
  destruct (decide (Playlist.items p = [])) as [Hempty|Hne].
  - unfold processPlaylist. rewrite Hempty. unfold loadFallbackContent.
    destruct fb as [q|]; [|done].
    set (e4 := updatePlayerState _ _).
    destruct (decide (Playlist.items q = [])) as [Hq|Hq].
    + unfold playCurrentItem. replace (currentPlaylist e4) with (Some q) by done.
      by rewrite Hq.
    + assert (Hp4 : currentPlaylist e4 = Some q) by done.
      destruct (playCurrentItem_spec e4 q Hp4 Hq) as (_ & _ & -> & -> & _). done.
  - destruct (processPlaylist_spec p fb e Hne) as (_ & _ & _ & -> & -> & _). done.
Qed.

End engine.

(** X15. On a playlist of [n] items, [k] skips, each carried through to
    the emission of its item, lead from position [i] to position
    [(i + k) mod n] and show the item at that position; [n] skips lead
    back to where they started. *)
Theorem completeSkip_cycles
    (e : PlaybackService.t) (p : Playlist.t) (i k : nat) :
  PlaybackService.currentPlaylist e = Some p →
  PlaybackService.currentIndex e = PlaybackService.Idx i →
  (i < length (Playlist.items p))%nat →
  let n := length (Playlist.items p) in
  PlaybackService.currentIndex (Nat.iter k PlaybackService.completeSkip e)
  = PlaybackService.Idx ((i + k) mod n)
  ∧ PlaybackService.currentPlaylist (Nat.iter k PlaybackService.completeSkip e)
    = Some p
  ∧ ((0 < k)%nat →
     PlaybackService.currentItem_ (Nat.iter k PlaybackService.completeSkip e)
     = Playlist.items p !! ((i + k) mod n)%nat)
  ∧ PlaybackService.currentIndex (Nat.iter n PlaybackService.completeSkip e)
    = PlaybackService.Idx i.
Proof.
  intros Hp Hi Hlt n.
  assert (Hne : Playlist.items p ≠ []) by (destruct (Playlist.items p); [cbn in Hlt; lia|done]).
  assert (Hn : n ≠ 0%nat) by (subst n; lia).
  assert (Hiter : ∀ k,
    PlaybackService.currentIndex (Nat.iter k PlaybackService.completeSkip e)
    = PlaybackService.Idx ((i + k) mod n)
    ∧ PlaybackService.currentPlaylist (Nat.iter k PlaybackService.completeSkip e)
      = Some p
    ∧ ((0 < k)%nat →
       PlaybackService.currentItem_ (Nat.iter k PlaybackService.completeSkip e)
       = Playlist.items p !! ((i + k) mod n)%nat)).
  { clear k. induction k as [|k (IHi & IHp & _)].
    - cbn [Nat.iter]. rewrite Nat.add_0_r, Nat.mod_small by done.
      split; [done|]. split; [done|]. lia.
    - cbn [Nat.iter].
      destruct (completeSkip_step _ p _ IHp Hne IHi) as (Sp & Si & _ & _ & _ & Sc).
      fold n in Si, Sc.
      replace (((i + k) mod n + 1) mod n)%nat with ((i + S k) mod n)%nat in Si, Sc
        by (rewrite Nat.Div0.add_mod_idemp_l; f_equal; lia).
      done. }
  destruct (Hiter k) as (Hk1 & Hk2 & Hk3). split; [done|]. split; [done|].
  split; [done|].
  destruct (Hiter n) as (Hn1 & _). rewrite Hn1. f_equal.
  replace (i + n)%nat with (i + 1 * n)%nat by lia.
  rewrite Nat.Div0.mod_add. by apply Nat.mod_small.
Qed.

(** Three skips on the three-slide lobby playlist lead back to the first
    slide. *)
Lemma completeSkip_cycles_witness :
  PlaybackService.currentIndex
    (Nat.iter 3 PlaybackService.completeSkip Scenario.playing_lobby)
  = PlaybackService.Idx 0.
Proof.
  refine (proj1 (completeSkip_cycles Scenario.playing_lobby Scenario.lobby 0 3
                   eq_refl eq_refl _)).
  vm_compute. lia.
Defined.

(** X16. Skips requested while a transition is under way do not add up:
    each one cancels the pending timer and starts it afresh, and when the
    timer fires the position has moved by one; the timer callback does
    nothing when it runs again. *)
Theorem skipToNext_repeated_advances_once
    (e : PlaybackService.t) (p : Playlist.t) (i m : nat) :
  PlaybackService.currentPlaylist e = Some p →
  Playlist.items p ≠ [] →
  PlaybackService.currentIndex e = PlaybackService.Idx i →
  let n := length (Playlist.items p) in
  let waiting := Nat.iter (S m) PlaybackService.skipToNext e in
  let arrived := PlaybackService.settle (PlaybackService.transitionTimeout waiting) in
  PlaybackService.currentIndex waiting = PlaybackService.Idx i
  ∧ PlaybackService.currentIndex arrived = PlaybackService.Idx ((i + 1) mod n)
  ∧ PlaybackService.currentItem_ arrived = Playlist.items p !! ((i + 1) mod n)%nat
  ∧ PlaybackService.transitionTimeout arrived = arrived.
Proof.
  intros Hp Hne Hi n waiting arrived.
  assert (Hkeep : ∀ m,
    PlaybackService.currentPlaylist (Nat.iter m PlaybackService.skipToNext e) = Some p
    ∧ PlaybackService.currentIndex (Nat.iter m PlaybackService.skipToNext e)
      = PlaybackService.Idx i).
  { clear m waiting arrived. intros m. induction m as [|m [IHp IHi]]; [done|].
    rewrite Nat.iter_succ.
    destruct (skipToNext_keeps (Nat.iter m PlaybackService.skipToNext e)) as [-> ->].
    done. }
  destruct (Hkeep (S m)) as [_ Hwi]. destruct (Hkeep m) as [Hmp Hmi].
  split; [exact Hwi|].
  destruct (completeSkip_step (Nat.iter m PlaybackService.skipToNext e) p i Hmp Hne Hmi)
    as (_ & Si & _ & Sto & _ & Sc).
  change (PlaybackService.completeSkip (Nat.iter m PlaybackService.skipToNext e))
    with arrived in Si, Sto, Sc.
  split; [exact Si|]. split; [exact Sc|].
  unfold PlaybackService.transitionTimeout. by rewrite Sto.
Qed.

(** Two skips in a row on the first slide of the lobby playlist arrive at
    the second slide. *)
Lemma skipToNext_repeated_advances_once_witness :
  PlaybackService.currentIndex
    (PlaybackService.settle
       (PlaybackService.transitionTimeout
          (Nat.iter 2 PlaybackService.skipToNext Scenario.playing_lobby)))
  = PlaybackService.Idx ((0 + 1) mod length (Playlist.items Scenario.lobby)).
Proof.
  pose proof (skipToNext_repeated_advances_once Scenario.playing_lobby
                Scenario.lobby 0 1 eq_refl ltac:(discriminate) eq_refl)
    as (_ & Harrived & _).
  exact Harrived.
Defined.

(** X17. In every state the engine reaches from one without a playlist, by
    loads that begin, playlists and fallback playlists that arrive (the
    fallback ones with items), errors shown, skips, timer callbacks, queued
    emissions and restarts, in any order, the position is one of the loaded
    playlist and an item stands there. *)
Theorem interleaving_index_in_bounds (e : PlaybackService.t) :
  PlaybackService.interleaving e →
  PlaybackService.index_in_bounds e
  ∧ ∀ p, PlaybackService.currentPlaylist e = Some p →
         is_Some (PlaybackService.item_at (Playlist.items p)
                    (PlaybackService.currentIndex e)).
Proof.
  intros Hreach.
  assert (Hbounds : PlaybackService.index_in_bounds e).
  { induction Hreach as [e Hnone|id e _ IH|p fb e _ IH Hfb|fb e _ IH Hfb
                         |message e _ IH|e _ IH|e _ IH|e _ IH|e _ IH].
    - unfold PlaybackService.index_in_bounds. by rewrite Hnone.
    - unfold PlaybackService.index_in_bounds in *.
      change (PlaybackService.currentPlaylist
                (PlaybackService.updatePlayerState (PlaybackService.loading id)
                   (PlaybackService.clearTransition e)))
        with (PlaybackService.currentPlaylist (PlaybackService.clearTransition e)).
      change (PlaybackService.currentIndex
                (PlaybackService.updatePlayerState (PlaybackService.loading id)
                   (PlaybackService.clearTransition e)))
        with (PlaybackService.currentIndex (PlaybackService.clearTransition e)).
      by destruct (clearTransition_spec e) as (-> & -> & _).
    - destruct (decide (Playlist.items p = [])) as [Hempty|Hne].
      + unfold PlaybackService.processPlaylist. rewrite Hempty.
        by apply loadFallbackContent_in_bounds.
      + by apply processPlaylist_in_bounds.
    - by apply loadFallbackContent_in_bounds.
    - exact IH.
    - unfold PlaybackService.index_in_bounds in *.
      by destruct (skipToNext_keeps e) as [-> ->].
    - by apply transitionTimeout_in_bounds.
    - unfold PlaybackService.index_in_bounds, PlaybackService.tick in *.
      by destruct (PlaybackService.deferred e).
    - by apply restartPlayback_in_bounds. }
  split; [exact Hbounds|]. intros p Hp.
  unfold PlaybackService.index_in_bounds in Hbounds. rewrite Hp in Hbounds.
  destruct Hbounds as (i & -> & Hlt). by apply lookup_lt_is_Some_2.
Qed.

(** The lobby playlist arrives at the idle engine and its first slide is
    emitted. *)
Lemma interleaving_index_in_bounds_witness :
  PlaybackService.index_in_bounds
    (PlaybackService.tick
       (PlaybackService.processPlaylist Scenario.lobby None Scenario.idle)).
Proof.
  apply interleaving_index_in_bounds.
  apply PlaybackService.emission_runs, PlaybackService.playlist_arrives.
  - by apply PlaybackService.at_start.
  - discriminate.
Defined.

(** ** Loading a playlist *)
Section loading.
Import PlaybackService.

Lemma getCachedPlaylist_cachePlaylist (e : ContentSyncService.env) (p : Playlist.t)
    (s : ContentSyncService.t) :
  ContentSyncService.playlists_readable e s → Playlist.id p ≠ "" →
  ContentSyncService.getCachedPlaylist e (Playlist.id p)
    (ContentSyncService.cachePlaylist e p s)
  = Some {| ContentSyncService.playlist := p;
            ContentSyncService.cachedAt := ContentSyncService.now e |}.
Proof.
  intros (Hdb & Hinit & Hreq) Hid. apply truthy_str_true in Hid.
  unfold ContentSyncService.getCachedPlaylist, ContentSyncService.cachePlaylist.
  rewrite Hid, Hdb, Hinit, Hreq. cbn [negb].
  replace (ContentSyncService.ensureInitialized _) with (JS.Resolved true)
    by (by rewrite <- Hinit).
  cbn. rewrite Hdb. cbn. apply lookup_insert_eq.
Qed.

Lemma loading_spec (id : string) (e : t) :
  let e1 := updatePlayerState (loading id) (clearTransition e) in
  currentPlaylist e1 = currentPlaylist e
  ∧ currentIndex e1 = currentIndex e
  ∧ currentTransitionTimeout e1 = None
  ∧ isTransitioning_ e1 = false
  ∧ playbackError_ e1 = playbackError_ e
  ∧ deferred e1 = deferred e
  ∧ currentItem_ e1 = currentItem_ e
  ∧ playerState e1
    = {| isPlaying := false; isOnline := isOnline (playerState e);
         currentPlaylistId := Some id; currentPlaylistName := "Loading...";
         currentItemIndex := Idx 0; totalItems := 0 |}.
Proof.
  cbv zeta. destruct (clearTransition_spec e) as (Hp & Hi & Ht & Htr & He & Hs & Hd & Hc).
  unfold updatePlayerState, loading.
  cbn [currentPlaylist currentIndex currentTransitionTimeout isTransitioning_
       playbackError_ deferred currentItem_ playerState set_playerState
       isPlaying' currentPlaylistId' currentPlaylistName' currentItemIndex'
       totalItems' default].
  by rewrite Hp, Hi, Ht, Htr, He, Hs, Hd, Hc.
Qed.

End loading.

(** X18. A playlist with items that has been cached is played by
    [loadPlaylist] whether or not the server answers: it is loaded at
    position 0 with the error cleared and no timer pending, and once the
    queued emission has run its first item is shown.  When the server does
    answer with a fresh version under the same id, that version replaces
    the cached one while the cached one goes on playing. *)
Theorem loadPlaylist_plays_cached
    (e : ContentSyncService.env) (fetch : string → option Playlist.t)
    (fallbackPlaylist : option Playlist.t) (p : Playlist.t)
    (s : ContentSyncService.t) (pb : PlaybackService.t) :
  ContentSyncService.playlists_readable e s →
  Playlist.id p ≠ "" →
  Playlist.items p ≠ [] →
  let w := {| PlaybackService.engine := pb;
              PlaybackService.cache := ContentSyncService.cachePlaylist e p s |} in
  let w' := PlaybackService.loadPlaylist e fetch fallbackPlaylist (Playlist.id p) w in
  let shown := PlaybackService.settle (PlaybackService.engine w') in
  PlaybackService.currentPlaylist shown = Some p
  ∧ PlaybackService.currentIndex shown = PlaybackService.Idx 0
  ∧ PlaybackService.playbackError_ shown = None
  ∧ PlaybackService.currentTransitionTimeout shown = None
  ∧ PlaybackService.currentItem_ shown = head (Playlist.items p)
  ∧ PlaybackService.isPlaying (PlaybackService.playerState shown) = true
  ∧ PlaybackService.totalItems (PlaybackService.playerState shown)
    = length (Playlist.items p)
  ∧ (∀ fresh, fetch (Playlist.id p) = Some fresh →
              Playlist.id fresh = Playlist.id p →
              ContentSyncService.asPlaylist
                <$> ContentSyncService.getCachedPlaylist e (Playlist.id p)
                      (PlaybackService.cache w')
              = Some fresh).
Proof.
  intros Hreadable Hid Hitems w w' shown.
  pose proof (getCachedPlaylist_cachePlaylist e p s Hreadable Hid) as Hcached.
  assert (Hid' : JS.truthy_str (Playlist.id p) = true) by by apply truthy_str_true.
  set (e1 := PlaybackService.updatePlayerState
               (PlaybackService.loading (Playlist.id p))
               (PlaybackService.clearTransition pb)).
  assert (Hengine : PlaybackService.engine w'
                    = PlaybackService.processPlaylist p fallbackPlaylist e1).
  { subst w' w. unfold PlaybackService.loadPlaylist.
    cbn [PlaybackService.engine PlaybackService.cache].
    rewrite Hid', Hcached. cbn [negb].
    by destruct (fetch (Playlist.id p)). }
  destruct (loading_spec (Playlist.id p) pb) as (_ & _ & Lt & _ & _ & Ld & _).
  fold e1 in Lt, Ld.
  destruct (processPlaylist_spec p fallbackPlaylist e1 Hitems)
    as (Pp & Pi & Pe & _ & Pt & Pd & Ps).
  destruct (settle_spec (PlaybackService.engine w'))
    as (_ & _ & Sc & Si & _ & Sto & Sp & Se & Ss).
  fold shown in Sc, Si, Sto, Sp, Se, Ss.
  rewrite Hengine in Sc, Si, Sto, Sp, Se, Ss.
  rewrite Sp, Si, Se, Sto, Sc, Ss, Pp, Pi, Pe, Pt, Pd, Ps, Lt, last_snoc.
  repeat (split; [done|]).
  intros fresh Hfresh Hsame. subst w' w. unfold PlaybackService.loadPlaylist.
  cbn [PlaybackService.engine PlaybackService.cache].
  rewrite Hid', Hcached, Hfresh. cbn [negb PlaybackService.cache].
  rewrite <- Hsame.
  assert (Hreadable' : ContentSyncService.playlists_readable e
                         (ContentSyncService.cachePlaylist e p s)).
  { destruct Hreadable as (Hdb & Hinit & Hreq).
    unfold ContentSyncService.playlists_readable, ContentSyncService.cachePlaylist.
    rewrite Hdb, Hinit, Hreq. cbn [negb]. repeat split; try done. }
  rewrite getCachedPlaylist_cachePlaylist; [done|done|by rewrite Hsame].
Qed.

(** The lobby playlist, cached at time 1000, is played with the server out
    of reach: its first slide is shown. *)
Lemma loadPlaylist_plays_cached_witness :
  let weather := Scenario.fair_weather 1000 "blob:1" (Scenario.blob_of 1) in
  PlaybackService.currentItem_
    (PlaybackService.settle
       (PlaybackService.engine
          (PlaybackService.loadPlaylist weather (λ _, None) None
             (Playlist.id Scenario.lobby)
             {| PlaybackService.engine := Scenario.idle;
                PlaybackService.cache :=
                  ContentSyncService.cachePlaylist weather Scenario.lobby
                    Scenario.open_cache |})))
  = head (Playlist.items Scenario.lobby).
Proof.
  pose proof (loadPlaylist_plays_cached
                (Scenario.fair_weather 1000 "blob:1" (Scenario.blob_of 1))
                (λ _, None) None Scenario.lobby Scenario.open_cache Scenario.idle
                ltac:(repeat split) ltac:(discriminate) ltac:(discriminate))
    as (_ & _ & _ & _ & Hshown & _).
  exact Hshown.
Defined.

(** X19. When a playlist is neither cached nor handed out by the server,
    [loadPlaylist] shows no error and does not ask for the fallback
    playlist: the state keeps saying "Loading..." and not playing, the
    playlist loaded before stays loaded, nothing is emitted and nothing is
    cached. *)
Theorem loadPlaylist_unknown_stays_loading
    (e : ContentSyncService.env) (fetch : string → option Playlist.t)
    (fallbackPlaylist : option Playlist.t) (playlistId : string)
    (w : PlaybackService.player) :
  playlistId ≠ "" →
  ContentSyncService.getCachedPlaylist e playlistId (PlaybackService.cache w) = None →
  fetch playlistId = None →
  let w' := PlaybackService.loadPlaylist e fetch fallbackPlaylist playlistId w in
  (∀ other, PlaybackService.loadPlaylist e fetch other playlistId w = w')
  ∧ PlaybackService.playbackError_ (PlaybackService.engine w')
    = PlaybackService.playbackError_ (PlaybackService.engine w)
  ∧ PlaybackService.currentPlaylist (PlaybackService.engine w')
    = PlaybackService.currentPlaylist (PlaybackService.engine w)
  ∧ PlaybackService.deferred (PlaybackService.engine w')
    = PlaybackService.deferred (PlaybackService.engine w)
  ∧ PlaybackService.isPlaying (PlaybackService.playerState (PlaybackService.engine w'))
    = false
  ∧ PlaybackService.currentPlaylistName
      (PlaybackService.playerState (PlaybackService.engine w')) = "Loading..."
  ∧ PlaybackService.currentPlaylistId
      (PlaybackService.playerState (PlaybackService.engine w')) = Some playlistId
  ∧ PlaybackService.cache w' = PlaybackService.cache w.
Proof.
  intros Hid Hcached Hfetch. cbv zeta. apply truthy_str_true in Hid.
  unfold PlaybackService.loadPlaylist. rewrite Hid, Hcached, Hfetch.
  cbn [negb PlaybackService.engine PlaybackService.cache].
  destruct (loading_spec playlistId (PlaybackService.engine w))
    as (-> & _ & _ & _ & -> & -> & _ & ->).
  done.
Qed.

(** The idle player is told to load a playlist that nobody knows. *)
Lemma loadPlaylist_unknown_stays_loading_witness :
  PlaybackService.playbackError_
    (PlaybackService.engine
       (PlaybackService.loadPlaylist
          (Scenario.fair_weather 1000 "blob:1" (Scenario.blob_of 1))
          (λ _, None) None "unknown"
          {| PlaybackService.engine := Scenario.idle;
             PlaybackService.cache := Scenario.open_cache |}))
  = None.
Proof.
  pose proof (loadPlaylist_unknown_stays_loading
                (Scenario.fair_weather 1000 "blob:1" (Scenario.blob_of 1))
                (λ _, None) None "unknown"
                {| PlaybackService.engine := Scenario.idle;
                   PlaybackService.cache := Scenario.open_cache |}
                ltac:(discriminate) eq_refl eq_refl)
    as (_ & Herror & _).
  exact Herror.
Defined.

(** X20. Loading a playlist under an id that is not empty cancels the
    skip that may be under way: whatever the cache and the server answer,
    no timer is pending afterwards and the transition flag is down, so the
    position set by the load is not moved by a timer started before it. *)
Theorem loadPlaylist_cancels_transition
    (e : ContentSyncService.env) (fetch : string → option Playlist.t)
    (fallbackPlaylist : option Playlist.t) (playlistId : string)
    (w : PlaybackService.player) :
  playlistId ≠ "" →
  let loaded := PlaybackService.engine
                  (PlaybackService.loadPlaylist e fetch fallbackPlaylist
                     playlistId w) in
  PlaybackService.currentTransitionTimeout loaded = None
  ∧ PlaybackService.isTransitioning_ loaded = false
  ∧ PlaybackService.transitionTimeout loaded = loaded.
Proof.
  intros Hid. cbv zeta. apply truthy_str_true in Hid.
  assert (Hgoal :
    PlaybackService.currentTransitionTimeout
      (PlaybackService.engine
         (PlaybackService.loadPlaylist e fetch fallbackPlaylist playlistId w)) = None
    ∧ PlaybackService.isTransitioning_
        (PlaybackService.engine
           (PlaybackService.loadPlaylist e fetch fallbackPlaylist playlistId w))
      = false).
  { unfold PlaybackService.loadPlaylist. rewrite Hid. cbn [negb].
    destruct (loading_spec playlistId (PlaybackService.engine w))
      as (_ & _ & Lt & Ltr & _).
    set (e1 := PlaybackService.updatePlayerState _ _) in *.
    destruct (ContentSyncService.getCachedPlaylist e playlistId
                (PlaybackService.cache w)) as [c|].
    - destruct (processPlaylist_timer (ContentSyncService.asPlaylist c)
                  fallbackPlaylist e1) as [Pt Ptr].
      destruct (fetch playlistId); cbn [PlaybackService.engine];
        by rewrite Pt, Lt, (Ptr Ltr).
    - destruct (fetch playlistId) as [p|]; cbn [PlaybackService.engine]; [|done].
      destruct (processPlaylist_timer p fallbackPlaylist e1) as [Pt Ptr].
      by rewrite Pt, Lt, (Ptr Ltr). }
  destruct Hgoal as [Ht Htr]. split; [done|]. split; [done|].
  unfold PlaybackService.transitionTimeout. by rewrite Ht.
Qed.

(** A skip is under way on the lobby playlist when the playlist is loaded
    again from the server: no timer is left. *)
Lemma loadPlaylist_cancels_transition_witness :
  PlaybackService.currentTransitionTimeout
    (PlaybackService.engine
       (PlaybackService.loadPlaylist
          (Scenario.fair_weather 1000 "blob:1" (Scenario.blob_of 1))
          (λ _, Some Scenario.lobby) None "lobby"
          {| PlaybackService.engine :=
               PlaybackService.skipToNext Scenario.playing_lobby;
             PlaybackService.cache := Scenario.open_cache |}))
  = None.
Proof.
  pose proof (loadPlaylist_cancels_transition
                (Scenario.fair_weather 1000 "blob:1" (Scenario.blob_of 1))
                (λ _, Some Scenario.lobby) None "lobby"
                {| PlaybackService.engine :=
                     PlaybackService.skipToNext Scenario.playing_lobby;
                   PlaybackService.cache := Scenario.open_cache |}
                ltac:(discriminate))
    as (Hnone & _).
  exact Hnone.
Defined.

(** ** The schedule check of the player component *)

(** X21. While a playlist is loaded, a schedule check that reports a
    change makes the player load the playlist that is loaded already, under
    its own id, whichever playlist the schedule selected: when the cache or
    the server hands that playlist out, it starts again at position 0.  A
    check that reports no change leaves the player as it is. *)
Theorem checkScheduleAndReload_restarts_loaded_playlist
    (e : ContentSyncService.env) (fetch : string → option Playlist.t)
    (fallbackPlaylist : option Playlist.t) (now later : JS.Date)
    (fetched screen : option ScreenModel.Screen) (deviceId : option string)
    (area : option ScreenModel.Area) (svc : ScheduleService.t)
    (w : PlaybackService.player) (p : Playlist.t) :
  PlaybackService.currentPlaylist (PlaybackService.engine w) = Some p →
  Playlist.id p ≠ "" →
  Playlist.items p ≠ [] →
  ContentSyncService.asPlaylist
    <$> ContentSyncService.getCachedPlaylist e (Playlist.id p) (PlaybackService.cache w)
  = Some p
  ∨ (ContentSyncService.getCachedPlaylist e (Playlist.id p) (PlaybackService.cache w)
     = None
     ∧ fetch (Playlist.id p) = Some p) →
  let result := ScheduleService.checkSchedule svc now fetched in
  let after := PlayerComponent.checkScheduleAndReload e fetch fallbackPlaylist
                 now fetched deviceId later screen area svc w in
  after.1 = ScheduleService.after result
  ∧ (ScheduleService.changed result = false → after.2 = w)
  ∧ (ScheduleService.changed result = true →
     after.2 = PlaybackService.loadPlaylist e fetch fallbackPlaylist (Playlist.id p) w
     ∧ PlaybackService.currentPlaylist (PlaybackService.engine after.2) = Some p
     ∧ PlaybackService.currentIndex (PlaybackService.engine after.2)
       = PlaybackService.Idx 0
     ∧ PlaybackService.currentPlaylistId
         (PlaybackService.playerState (PlaybackService.engine after.2))
       = Some (Playlist.id p)
     ∧ PlaybackService.currentItem_
         (PlaybackService.settle (PlaybackService.engine after.2))
       = head (Playlist.items p)).
Proof.
  intros Hp Hid Hitems Hfound. cbv zeta.
  unfold PlayerComponent.checkScheduleAndReload. cbv zeta. cbn [fst snd].
  split; [done|].
  destruct (ScheduleService.changed (ScheduleService.checkSchedule svc now fetched));
    [|done].
  split; [done|]. intros _.
  unfold PlaybackService.reloadPlaylist. rewrite Hp. split; [done|].
  apply truthy_str_true in Hid.
  set (e1 := PlaybackService.updatePlayerState
               (PlaybackService.loading (Playlist.id p))
               (PlaybackService.clearTransition (PlaybackService.engine w))).
  assert (Hengine :
    PlaybackService.engine
      (PlaybackService.loadPlaylist e fetch fallbackPlaylist (Playlist.id p) w)
    = PlaybackService.processPlaylist p fallbackPlaylist e1).
  { unfold PlaybackService.loadPlaylist. rewrite Hid. cbn [negb].
    destruct Hfound as [Hcached|[Hcached Hfetch]].
    - destruct (ContentSyncService.getCachedPlaylist e (Playlist.id p)
                  (PlaybackService.cache w)) as [c|]; [|done].
      injection Hcached as ->. by destruct (fetch _).
    - by rewrite Hcached, Hfetch. }
  rewrite Hengine.
  destruct (processPlaylist_spec p fallbackPlaylist e1 Hitems)
    as (Pp & Pi & _ & _ & _ & Pd & Ps).
  destruct (settle_spec (PlaybackService.processPlaylist p fallbackPlaylist e1))
    as (_ & _ & Sc & _).
  rewrite Pp, Pi, Ps, Sc, Pd, last_snoc. done.
Qed.

(** Office hours begin while the lobby playlist is playing its second
    slide: the check reports a change to "P1" and the lobby playlist starts
    again from its first slide. *)
Lemma checkScheduleAndReload_restarts_loaded_playlist_witness :
  let w := {| PlaybackService.engine :=
                PlaybackService.completeSkip Scenario.playing_lobby;
              PlaybackService.cache := Scenario.open_cache |} in
  let after := PlayerComponent.checkScheduleAndReload
                 (Scenario.fair_weather 1000 "blob:1" (Scenario.blob_of 1))
                 (λ _, Some Scenario.lobby) None
                 (Scenario.monday 10 0) (Some Scenario.office_screen)
                 (Some "screen-1") (Scenario.monday 10 0)
                 (Some Scenario.office_screen) None
                 Scenario.fresh_schedule_service w in
  PlaybackService.currentPlaylist (PlaybackService.engine after.2)
  = Some Scenario.lobby
  ∧ PlaybackService.currentIndex (PlaybackService.engine after.2)
    = PlaybackService.Idx 0.
Proof.
  pose proof (checkScheduleAndReload_restarts_loaded_playlist
                (Scenario.fair_weather 1000 "blob:1" (Scenario.blob_of 1))
                (λ _, Some Scenario.lobby) None
                (Scenario.monday 10 0) (Scenario.monday 10 0)
                (Some Scenario.office_screen) (Some Scenario.office_screen)
                (Some "screen-1") None Scenario.fresh_schedule_service
                {| PlaybackService.engine :=
                     PlaybackService.completeSkip Scenario.playing_lobby;
                   PlaybackService.cache := Scenario.open_cache |}
                Scenario.lobby eq_refl ltac:(discriminate) ltac:(discriminate)
                (or_intror (conj eq_refl eq_refl)))
    as (_ & _ & Hchanged).
  destruct (Hchanged eq_refl) as (_ & Hplaylist & Hindex & _).
  split; [exact Hplaylist|exact Hindex].
Defined.
